(** * RAG-Chatbot: ingestion, hybrid retrieval and chat routing

    A shallow embedding of the backend services of the repository
    (documentProcessor.js, vectorStore.js, chatRouter.js and the part of
    llmService.js they call) together with the properties the specification
    states about them.

    Conventions of the embedding.
    - JavaScript strings are [string]s; a character is read as a 7-bit ASCII
      code unit.  [toLowerCase] and the regular-expression classes [\w] and
      [\s] are written out for that range.
    - JavaScript numbers are IEEE 754 doubles.  Module [Doubles] holds the
      scoring and the ranking of the search on the doubles of the kernel
      ([float]), every sum and product rounded as the code rounds it, and
      the overlap of the chunker is counted in doubles.  The index, the
      registry and the router that the other properties are about carry the
      same formulas over exact rationals ([Q]), with [Math.sqrt] a Section
      variable; what is proved there is about exact arithmetic.  Lengths,
      counters and indices are [nat].
    - The embedding model and the language model are external to the
      repository: they are Section variables.  The embedding model always
      returns; the language model may fail, which the chat endpoint
      catches.
    - A method that can throw returns an [outcome] next to the final state. *)

From Stdlib Require Import Ascii String DecimalString DecimalNat.
From Stdlib Require Import QArith Qminmax Qabs Qround Lqa.
From Stdlib Require Import Sorting.Sorted Permutation.
From Stdlib Require Import Floats.
From stdpp Require Import gmap strings list fin_maps.

Local Open Scope list_scope.
Local Open Scope string_scope.
#[local] Set Warnings "-inexact-float".

(** ** JavaScript primitives used by the services *)

Module JS.

Definition code (c : ascii) : nat := nat_of_ascii c.

Definition between (lo hi : nat) (c : ascii) : bool :=
  (lo <=? code c)%nat && (code c <=? hi)%nat.

Definition isUpper : ascii -> bool := between 65 90.
Definition isLower : ascii -> bool := between 97 122.
Definition isDigit : ascii -> bool := between 48 57.

(** [\w] is [A-Za-z0-9_]. *)
Definition isWord (c : ascii) : bool :=
  isUpper c || isLower c || isDigit c || (code c =? 95)%nat.

(** [\s], and the characters removed by [String.prototype.trim]: tab, line
    feed, vertical tab, form feed, carriage return, space. *)
Definition isSpace (c : ascii) : bool :=
  between 9 13 c || (code c =? 32)%nat.

Definition lowerChar (c : ascii) : ascii :=
  if isUpper c then ascii_of_nat (code c + 32) else c.

Fixpoint mapChars (f : ascii -> ascii) (s : string) : string :=
  match s with
  | EmptyString => EmptyString
  | String c s' => String (f c) (mapChars f s')
  end.

Definition toLowerCase : string -> string := mapChars lowerChar.

(** [s.includes(t)] *)
Fixpoint includes (s t : string) : bool :=
  String.prefix t s ||
  match s with
  | EmptyString => false
  | String _ s' => includes s' t
  end.

(** [xs.join(sep)] *)
Fixpoint join (sep : string) (xs : list string) : string :=
  match xs with
  | [] => ""
  | [x] => x
  | x :: rest => x ++ sep ++ join sep rest
  end.

(** Put a character in front of the first piece of a split. *)
Definition consHead (c : ascii) (pieces : list string) : list string :=
  match pieces with
  | [] => [String c ""]
  | p :: ps => String c p :: ps
  end.

(** [s.split(' ')] and the like: every occurrence of the character ends a
    piece, so consecutive separators give empty pieces. *)
Fixpoint splitChar (sep : ascii) (s : string) : list string :=
  match s with
  | EmptyString => [""]
  | String c s' =>
      if Ascii.eqb c sep then "" :: splitChar sep s'
      else consHead c (splitChar sep s')
  end.

Definition startsWithSpace (s : string) : bool :=
  match s with
  | String c _ => isSpace c
  | EmptyString => false
  end.

(** [s.split(/\s+/)]: a maximal run of white space ends a piece; a string
    that starts or ends with white space gets an empty first or last piece. *)
Fixpoint splitSpaces (s : string) : list string :=
  match s with
  | EmptyString => [""]
  | String c s' =>
      if isSpace c then
        if startsWithSpace s' then splitSpaces s' else "" :: splitSpaces s'
      else consHead c (splitSpaces s')
  end.

Fixpoint dropSpaces (s : string) : string :=
  match s with
  | String c s' => if isSpace c then dropSpaces s' else s
  | EmptyString => EmptyString
  end.

Fixpoint allSpaces (s : string) : bool :=
  match s with
  | String c s' => isSpace c && allSpaces s'
  | EmptyString => true
  end.

(** White space at the end is dropped: a character is kept when something
    other than white space follows it or it is not white space itself. *)
Fixpoint dropSpacesEnd (s : string) : string :=
  match s with
  | String c s' => if allSpaces s then EmptyString else String c (dropSpacesEnd s')
  | EmptyString => EmptyString
  end.

(** [s.trim()] *)
Definition trim (s : string) : string := dropSpacesEnd (dropSpaces s).

(** [xs.slice(-k)]: the last [k] elements, all of them when there are fewer;
    [slice(-0)] is [slice(0)], the whole array. *)
Definition sliceLast {A} (k : nat) (xs : list A) : list A :=
  if (k =? 0)%nat then xs else skipn (length xs - k) xs.

(** [Array.prototype.sort(comparefn)].  [after a b] says [comparefn(a, b) > 0],
    that is, [a] has to come after [b]; a comparator result that is not a
    number counts as [0].  The sort is stable (ECMAScript 2019): elements the
    comparator does not order keep their relative position, which insertion
    from the right realises. *)
Section Sort.
Context {A : Type} (after : A -> A -> bool).

Fixpoint insert (x : A) (l : list A) : list A :=
  match l with
  | [] => [x]
  | y :: l' => if after x y then y :: insert x l' else x :: l
  end.

Definition sort (l : list A) : list A := foldr insert [] l.
End Sort.

(** Decimal digits of a key, as a number. *)
Fixpoint digitsValue (acc : N) (s : string) : N :=
  match s with
  | EmptyString => acc
  | String c s' => digitsValue (10 * acc + N.of_nat (code c - 48)) s'
  end.

Fixpoint allDigits (s : string) : bool :=
  match s with
  | EmptyString => true
  | String c s' => isDigit c && allDigits s'
  end.

(** A property key is an array index when it is the canonical decimal form of
    an integer between 0 and 2^32 - 2. *)
Definition isArrayIndex (k : string) : bool :=
  match k with
  | EmptyString => false
  | String c rest =>
      allDigits k
      && (negb (Ascii.eqb c "0") || String.eqb rest "")
      && (digitsValue 0 k <=? 4294967294)%N
  end.

(** Own keys of an ordinary object, as [Object.entries] lists them: array
    indices in ascending numeric order, then the other keys in the order in
    which they were created. *)
Definition ownEntries {V} (props : list (string * V)) : list (string * V) :=
  (sort (fun a b => (digitsValue 0 (fst b) <? digitsValue 0 (fst a))%N)
        (List.filter (fun p => isArrayIndex (fst p)) props)
   ++ List.filter (fun p => negb (isArrayIndex (fst p))) props)%list.

End JS.

(** ** JavaScript numbers

    A JavaScript number is an IEEE 754 double: a primitive [float], with the
    correctly rounded operations of the kernel. *)

Module Number.

(** The number of a length or a count, which is below 2^32. *)
Definition ofNat (n : nat) : float := of_uint63 (Uint63.of_Z (Z.of_nat n)).

(** [Math.ceil(x)] as a count, for [xs.slice(-Math.ceil(x))]: the least
    integer that is not below a positive [x].  For [NaN], a zero, an
    infinity and a negative [x] above -1 the slice is the whole array, as
    [slice(-0)] is, and the count is 0; a negative [x] does not arise from
    counts. *)
Definition Math_ceil (x : float) : nat :=
  match Prim2SF x with
  | S754_finite false m e =>
      match e with
      | Z0 => Pos.to_nat m
      | Zpos _ => Z.to_nat (Z.shiftl (Zpos m) e)
      | Zneg p => Z.to_nat (- ((- Zpos m) / 2 ^ Zpos p))
      end
  | _ => 0
  end.

(** [Math.min(x, y)]: [NaN] when an argument is [NaN]; of the two zeros the
    negative one. *)
Definition Math_min (x y : float) : float :=
  if PrimFloat.is_nan x || PrimFloat.is_nan y then nan
  else if PrimFloat.ltb x y then x
  else if PrimFloat.ltb y x then y
  else if PrimFloat.get_sign x then x
  else y.

End Number.

Definition nl : ascii := ascii_of_nat 10.
Definition cr : ascii := ascii_of_nat 13.

(** Template literals print a number in decimal. *)
Definition decimal (n : nat) : string :=
  NilEmpty.string_of_uint (Nat.to_uint n).

(** ** documentProcessor.js: the chunker *)

(** The metadata stamp a source comes with: [{ filename, type }] for an
    uploaded file, [{ url, type, title }] for a fetched page. *)
Record SourceMeta : Type := {
  filename : option string;
  url : option string;
  type : string;
  title : option string
}.

(** [{ ...metadata, chunkIndex, charStart, charEnd }] *)
Record ChunkMeta : Type := {
  source : SourceMeta;
  chunkIndex : nat;
  charStart : Z;
  charEnd : Z
}.

(** A chunk as the chunker returns it. *)
Record RawChunk : Type := {
  id : string;
  content : string;
  metadata : ChunkMeta
}.

(** [a || b] on optional text: an absent or empty [a] gives way to [b]. *)
Definition orElse (a b : option string) : option string :=
  match a with
  | Some (String _ _) => a
  | _ => b
  end.

(** [`${metadata.filename || metadata.url}`]; an absent value prints as
    [undefined]. *)
Definition sourceLabel (md : SourceMeta) : string :=
  match orElse (filename md) (url md) with
  | Some v => v
  | None => "undefined"
  end.

Record DocumentProcessor : Type := {
  chunkSize : nat;
  chunkOverlap : nat
}.

(** [options.chunkSize || 800], [options.chunkOverlap || 200] *)
Definition numberOr (o : option nat) (d : nat) : nat :=
  match o with
  | Some (S n) => S n
  | _ => d
  end.

Definition newDocumentProcessor (optSize optOverlap : option nat)
  : DocumentProcessor :=
  {| chunkSize := numberOr optSize 800;
     chunkOverlap := numberOr optOverlap 200 |}.

Definition defaultProcessor : DocumentProcessor :=
  newDocumentProcessor None None.

(** [.replace(/\r\n/g, '\n')] *)
Fixpoint normalizeLineEnds (s : string) : string :=
  match s with
  | EmptyString => EmptyString
  | String c s' =>
      match s' with
      | String c' _ =>
          if Ascii.eqb c cr && Ascii.eqb c' nl then normalizeLineEnds s'
          else String c (normalizeLineEnds s')
      | EmptyString => String c EmptyString
      end
  end.

(** [.replace(/\n{3,}/g, '\n\n')]; [run] counts the line feeds just passed. *)
Fixpoint collapseNewlines (run : nat) (s : string) : string :=
  match s with
  | EmptyString => EmptyString
  | String c s' =>
      if Ascii.eqb c nl then
        if (run <? 2)%nat then String c (collapseNewlines (S run) s')
        else collapseNewlines (S run) s'
      else String c (collapseNewlines 0 s')
  end.

Definition isTerminal (c : ascii) : bool :=
  Ascii.eqb c "." || Ascii.eqb c "!" || Ascii.eqb c "?".

Inductive scanMode : Type :=
  | Scanning
  | InSpaces      (* inside a match of [(?<=[.!?])\s+] *)
  | InNewlines.   (* inside a match of [\n{2,}] *)

Definition startsWithNewline (s : string) : bool :=
  match s with
  | String c _ => Ascii.eqb c nl
  | EmptyString => false
  end.

(** [.split(/(?<=[.!?])\s+|\n{2,}/)].  [prev] is the character before the
    current one, for the look-behind.  The head of the result is the piece
    under construction. *)
Fixpoint splitSentenceEnds (mode : scanMode) (prev : option ascii) (s : string)
  : list string :=
  match s with
  | EmptyString => [""]
  | String c s' =>
      let scan :=
        if match prev with Some p => isTerminal p | None => false end
           && JS.isSpace c
        then "" :: splitSentenceEnds InSpaces (Some c) s'
        else if Ascii.eqb c nl && startsWithNewline s'
        then "" :: splitSentenceEnds InNewlines (Some c) s'
        else JS.consHead c (splitSentenceEnds Scanning (Some c) s') in
      match mode with
      | Scanning => scan
      | InSpaces =>
          if JS.isSpace c then splitSentenceEnds InSpaces (Some c) s' else scan
      | InNewlines =>
          if Ascii.eqb c nl then splitSentenceEnds InNewlines (Some c) s'
          else scan
      end
  end.

Definition nonEmpty (s : string) : bool :=
  match s with
  | EmptyString => false
  | String _ _ => true
  end.

Definition splitIntoSentences (text : string) : list string :=
  List.filter nonEmpty
    (map JS.trim
       (splitSentenceEnds Scanning None
          (collapseNewlines 0 (normalizeLineEnds text)))).

(** The local variables of [createChunks]. *)
Record chunkerState : Type := {
  chunks_acc : list RawChunk;
  currentChunk : string;
  currentLength : nat;
  nextIndex : nat
}.

Section Chunker.
Variable this : DocumentProcessor.
Variable md : SourceMeta.

Definition makeChunk (buffer : string) (index : nat) : RawChunk :=
  let start := (Z.of_nat index * (Z.of_nat (chunkSize this) - Z.of_nat (chunkOverlap this)))%Z in
  {| id := sourceLabel md ++ "-chunk-" ++ decimal index;
     content := JS.trim buffer;
     metadata :=
       {| source := md;
          chunkIndex := index;
          charStart := start;
          charEnd := (start + Z.of_nat (String.length buffer))%Z |} |}.

(** [Math.ceil(words.length * (this.chunkOverlap / this.chunkSize))], in
    doubles: for 25 words, overlap 7 and size 25 the quotient is rounded up,
    the product is 7.000000000000001 and the count is 8. *)
Definition overlapCount (nwords : nat) : nat :=
  Number.Math_ceil
    (Number.ofNat nwords
     * (Number.ofNat (chunkOverlap this) / Number.ofNat (chunkSize this)))%float.

Definition overlapSeed (buffer : string) : string :=
  let words := JS.splitChar " " buffer in
  JS.join " " (JS.sliceLast (overlapCount (length words)) words) ++ " ".

(** One turn of [for (const sentence of sentences)]. *)
Definition chunkStep (st : chunkerState) (sentence : string) : chunkerState :=
  let st' :=
    if (chunkSize this <? currentLength st + String.length sentence)%nat
       && nonEmpty (currentChunk st)
    then
      let seed := overlapSeed (currentChunk st) in
      {| chunks_acc := (chunks_acc st ++ [makeChunk (currentChunk st) (nextIndex st)])%list;
         currentChunk := seed;
         currentLength := String.length seed;
         nextIndex := S (nextIndex st) |}
    else st in
  {| chunks_acc := chunks_acc st';
     currentChunk := currentChunk st' ++ sentence ++ " ";
     currentLength := currentLength st' + String.length sentence + 1;
     nextIndex := nextIndex st' |}.

Definition chunkerStart : chunkerState :=
  {| chunks_acc := []; currentChunk := ""; currentLength := 0; nextIndex := 0 |}.

(** The remaining buffer becomes the last chunk unless it is blank. *)
Definition finish (st : chunkerState) : list RawChunk :=
  if nonEmpty (JS.trim (currentChunk st))
  then (chunks_acc st ++ [makeChunk (currentChunk st) (nextIndex st)])%list
  else chunks_acc st.

Definition chunkSentences (sentences : list string) : list RawChunk :=
  finish (fold_left chunkStep sentences chunkerStart).

Definition createChunks (text : string) : list RawChunk :=
  chunkSentences (splitIntoSentences text).
End Chunker.

(** ** vectorStore.js: keyword extraction *)

Definition stopWords : list string :=
  [ "the"; "a"; "an"; "and"; "or"; "but"; "in"; "on"; "at"; "to"; "for";
    "of"; "with"; "by"; "from"; "is"; "are"; "was"; "were"; "be"; "been";
    "being"; "have"; "has"; "had"; "do"; "does"; "did"; "will"; "would";
    "could"; "should"; "may"; "might"; "must"; "shall"; "can"; "need";
    "it"; "its"; "this"; "that"; "these"; "those"; "i"; "you"; "he"; "she";
    "we"; "they"; "what"; "which"; "who"; "when"; "where"; "why"; "how";
    "all"; "each"; "every"; "both"; "few"; "more"; "most"; "other"; "some";
    "such"; "no"; "nor"; "not"; "only"; "own"; "same"; "so"; "than"; "too";
    "very"; "just"; "as"; "if"; "then"; "because"; "while"; "although" ].

Definition has (set : list string) (w : string) : bool :=
  existsb (String.eqb w) set.

(** [text.toLowerCase().replace(/[^\w\s]/g, ' ').split(/\s+/)
      .filter(word => word.length > 2 && !stopWords.has(word))] *)
Definition words (text : string) : list string :=
  List.filter
    (fun word => (2 <? String.length word)%nat && negb (has stopWords word))
    (JS.splitSpaces
       (JS.mapChars (fun c => if JS.isWord c || JS.isSpace c then c else " "%char)
                    (JS.toLowerCase text))).

(** What a slot of [wordFreq] holds.  [wordFreq] is an ordinary object, so a
    word that names a property inherited from [Object.prototype] does not
    start from [0]: reading [wordFreq["constructor"]] gives the [Object]
    function, and adding [1] to it gives text, which every later subtraction
    in the comparator turns into [NaN]. *)
Inductive freq : Type :=
  | Count (n : nat)
  | NotANumber.

Fixpoint getOwn (props : list (string * freq)) (k : string) : option freq :=
  match props with
  | [] => None
  | (k', v) :: rest => if String.eqb k k' then Some v else getOwn rest k
  end.

Fixpoint setOwn (props : list (string * freq)) (k : string) (v : freq)
  : list (string * freq) :=
  match props with
  | [] => [(k, v)]
  | (k', v') :: rest =>
      if String.eqb k k' then (k', v) :: rest else (k', v') :: setOwn rest k v
  end.

(** [wordFreq[word] = (wordFreq[word] || 0) + 1].  Of the inherited names
    only [constructor] and [__proto__] are lower-case words; assigning text
    to [__proto__] is ignored by its setter, so that word never becomes an
    own key. *)
Definition countWord (wordFreq : list (string * freq)) (word : string)
  : list (string * freq) :=
  if String.eqb word "__proto__" then wordFreq
  else
    match getOwn wordFreq word with
    | Some (Count n) => setOwn wordFreq word (Count (n + 1))
    | Some NotANumber => wordFreq
    | None =>
        if String.eqb word "constructor" then setOwn wordFreq word NotANumber
        else setOwn wordFreq word (Count 1)
    end.

(** [(a, b) => b[1] - a[1]] is positive when [a] is the less frequent.  With
    a count that is not a number the difference is [NaN]; the comparator is
    then no ordering and the engine is free in how it orders the result. *)
Definition lessFrequent (a b : string * freq) : bool :=
  match snd a, snd b with
  | Count n, Count m => (n <? m)%nat
  | _, _ => false
  end.

Definition extractKeywords (text : string) : list string :=
  let wordFreq := fold_left countWord (words text) [] in
  map fst (firstn 20 (JS.sort lessFrequent (JS.ownEntries wordFreq))).

(** ** vectorStore.js: the hybrid index and the document registry *)

(** A chunk of the index: [{ ...chunk, docId, embedding, keywords }]. *)
Record Chunk : Type := {
  raw : RawChunk;
  docId : string;
  embedding : list Q;
  keywords : list string
}.

(** A registry entry. *)
Record DocInfo : Type := {
  doc_id : string;
  name : string;
  chunkCount : nat;
  addedAt : string
}.

(** [documents] is the [Map] from document id to entry and [chunks] the array
    of all chunks; the order in which a [Map] lists its entries plays no part
    in what follows. *)
Record VectorStore : Type := {
  documents : gmap string DocInfo;
  chunks : list Chunk
}.

(** A scored chunk, as [hybridSearch] returns it. *)
Record Hit : Type := {
  hitChunk : RawChunk;      (* id, content, metadata *)
  hitDocId : string;
  vectorScore : Q;
  keywordScore : Q;
  phraseBoost : Q;
  score : Q
}.

Inductive outcome : Type :=
  | Returned
  | Threw (message : string).

Definition newVectorStore : VectorStore := {| documents := ∅; chunks := [] |}.

Definition batchSize : nat := 20.

Section Index.
(** The feature-extraction pipeline with mean pooling and normalisation. *)
Variable embedder : string -> list Q.
Variable Math_sqrt : Q -> Q.

Definition generateEmbedding (text : string) : list Q :=
  embedder (String.substring 0 512 text).

Definition generateEmbeddingsBatch (texts : list string) : list (list Q) :=
  map (fun text => embedder (String.substring 0 512 text)) texts.

Definition processChunk (d : string) (chunk : RawChunk) (e : list Q) : Chunk :=
  {| raw := chunk; docId := d; embedding := e;
     keywords := extractKeywords (content chunk) |}.

(** [for (let i = 0; i < chunks.length; i += this.batchSize)]: every turn
    embeds one slice and pushes its chunks.  [turns] bounds the number of
    turns; [length input] is enough. *)
Fixpoint processBatches (turns : nat) (d : string) (input : list RawChunk)
         (i : nat) (processedChunks : list Chunk) : list Chunk :=
  match turns with
  | O => processedChunks
  | S turns' =>
      if (i <? length input)%nat then
        let batch := firstn batchSize (skipn i input) in
        let embeddings := generateEmbeddingsBatch (map content batch) in
        processBatches turns' d input (i + batchSize)
          (processedChunks ++ zip_with (processChunk d) batch embeddings)%list
      else processedChunks
  end.

(** [now] is the reading of the clock that stamps the entry. *)
Definition addDocument (d nm : string) (input : list RawChunk) (now : string)
           (this : VectorStore) : VectorStore :=
  let processedChunks := processBatches (length input) d input 0 [] in
  {| documents :=
       <[ d := {| doc_id := d; name := nm;
                  chunkCount := length processedChunks;
                  addedAt := now |} ]> (documents this);
     chunks := (chunks this ++ processedChunks)%list |}.

(** The three accumulators of the loop of [cosineSimilarity], in exact
    arithmetic.  Vectors of one embedding model have one length; a missing
    [b[i]] (which makes the result [NaN] in the source, see
    [Doubles.cosineLoop]) reads as 0 here. *)
Fixpoint cosineLoop (a b : list Q) (acc : Q * Q * Q) : Q * Q * Q :=
  match a with
  | [] => acc
  | ai :: a' =>
      let '(dotProduct, normA, normB) := acc in
      let bi := List.hd 0%Q b in
      cosineLoop a' (List.tl b)
        (dotProduct + ai * bi, normA + ai * ai, normB + bi * bi)%Q
  end.

(** A zero norm makes the quotient [NaN] in the source; it is 0 here. *)
Definition cosineSimilarity (a b : list Q) : Q :=
  let '(dotProduct, normA, normB) := cosineLoop a b (0, 0, 0)%Q in
  (dotProduct / (Math_sqrt normA * Math_sqrt normB))%Q.

Definition ofNat (n : nat) : Q := inject_Z (Z.of_nat n).

Definition keywordMatch (queryKeywords chunkKeywords : list string) : Q :=
  let matches := List.filter (fun kw => has chunkKeywords kw) queryKeywords in
  (ofNat (length matches) / ofNat (Nat.max (length queryKeywords) 1))%Q.

(** [for (const word of importantWords) if (contentLower.includes(word))
    phraseBoost += 0.05] *)
Definition wordBoost (contentLower : string) (importantWords : list string) : Q :=
  fold_left
    (fun phraseBoost word =>
       if JS.includes contentLower word then (phraseBoost + 0.05)%Q
       else phraseBoost)
    importantWords 0%Q.

Definition phraseBoostOf (queryKeywords : list string) (chunkContent : string) : Q :=
  let contentLower := JS.toLowerCase chunkContent in
  let importantWords := firstn 5 queryKeywords in
  let phraseBoost := wordBoost contentLower importantWords in
  if (2 <=? length importantWords)%nat then
    let twoWordPhrase := JS.join " " (firstn 2 importantWords) in
    if JS.includes contentLower twoWordPhrase then (phraseBoost + 0.1)%Q
    else phraseBoost
  else phraseBoost.

(** The score of one chunk in exact arithmetic; [Doubles.scoreChunk] is the
    same computation with the rounding of the code. *)
Definition scoreChunk (queryEmbedding : list Q) (queryKeywords : list string)
           (chunk : Chunk) : Hit :=
  let vs := cosineSimilarity queryEmbedding (embedding chunk) in
  let ks := keywordMatch queryKeywords (keywords chunk) in
  let pb := phraseBoostOf queryKeywords (content (raw chunk)) in
  {| hitChunk := raw chunk;
     hitDocId := docId chunk;
     vectorScore := vs;
     keywordScore := ks;
     phraseBoost := pb;
     score := (vs * 0.6 + ks * 0.25 + Qmin pb 0.15)%Q |}.

(** [(a, b) => b.score - a.score] is positive when [a] scores less. *)
Definition scoresLess (a b : Hit) : bool :=
  match (score a ?= score b)%Q with Lt => true | _ => false end.

Definition scoreAll (query : string) (this : VectorStore) : list Hit :=
  map (scoreChunk (generateEmbedding query) (extractKeywords query))
      (chunks this).

Definition hybridSearch (query : string) (topK : nat) (this : VectorStore)
  : list Hit :=
  if (length (chunks this) =? 0)%nat then []
  else firstn topK (JS.sort scoresLess (scoreAll query this)).

Definition removeDocument (d : string) (this : VectorStore)
  : outcome * VectorStore :=
  match documents this !! d with
  | None => (Threw "Document not found", this)
  | Some _ =>
      (Returned,
       {| documents := delete d (documents this);
          chunks := List.filter (fun chunk => negb (String.eqb (docId chunk) d))
                                (chunks this) |})
  end.

Definition clear (this : VectorStore) : VectorStore :=
  {| documents := ∅; chunks := [] |}.

Definition getDocumentCount (this : VectorStore) : nat := size (documents this).
Definition getChunkCount (this : VectorStore) : nat := length (chunks this).
Definition hasDocuments (this : VectorStore) : bool :=
  (0 <? length (chunks this))%nat.
End Index.

(** ** llmService.js and chatRouter.js *)

Record Message : Type := {
  role : string;
  messageContent : string
}.

(** One request to [LLMService.generateResponse]. *)
Record LlmCall : Type := {
  prompt : string;
  context : option string;
  history : list Message
}.

(** A citation of a [rag] answer. *)
Record Source : Type := {
  sourceId : nat;
  sourceContent : string;
  sourceName : string;
  sourceScore : string;
  sourceChunkIndex : nat
}.

Record Response : Type := {
  answer : string;
  mode : string;
  sources : list Source;
  retrievedCount : option nat;
  noRelevantResults : option bool
}.

(** A computation that may ask the language model: its value and the requests
    it made, in order. *)
Definition Llm (A : Type) : Type := A * list LlmCall.

Definition ret {A} (a : A) : Llm A := (a, []).

Definition bind {A B} (m : Llm A) (k : A -> Llm B) : Llm B :=
  let '(a, calls) := m in
  let '(b, calls') := k a in
  (b, (calls ++ calls')%list).

Notation "x <- m ;; k" := (bind m (fun x => k))
  (at level 100, m at next level, right associativity).

(** [x.toFixed(1)] on an exact number: the nearest tenth, the larger one of
    two equally near, with the sign in front. *)
Definition toFixed1 (x : Q) : string :=
  let tenths := Z.to_nat (Qfloor (Qabs x * 10 + 0.5)%Q) in
  (if Qlt_le_dec x 0 then "-" else "")
  ++ decimal (tenths / 10) ++ "." ++ decimal (tenths mod 10).

Definition relevanceThreshold : Q := 0.15.

Definition documentKeywords : list string :=
  [ "document"; "file"; "uploaded"; "says"; "mentioned"; "according to";
    "in the"; "from the"; "based on"; "what does"; "find"; "search";
    "look for"; "locate"; "extract"; "summarize"; "summary" ].

Definition refusalAnswer : string :=
  "No documents have been uploaded yet. Please upload documents first to use RAG mode, or switch to General mode for open-ended questions.".

Definition noResultsAnswer : string :=
  "I searched through the uploaded documents but couldn't find information directly relevant to your question. Try rephrasing your question or ask something more specific about the document content.".

Definition nothingFoundAnswer : string :=
  "I couldn't find any relevant information in the uploaded documents to answer your question.".

Definition reaches (threshold : Q) (chunk : Hit) : bool :=
  Qle_bool threshold (score chunk).

Section Router.
Variable embedder : string -> list Q.
Variable Math_sqrt : Q -> Q.
(** The answer of the selected provider to a request. *)
Variable provider : string -> option string -> list Message -> string.

Definition generateResponse (p : string) (ctx : option string)
           (h : list Message) : Llm string :=
  (provider p ctx h, [{| prompt := p; context := ctx; history := h |}]).

Definition hitLabel (chunk : Hit) : option string :=
  orElse (filename (source (metadata (hitChunk chunk))))
         (url (source (metadata (hitChunk chunk)))).

Definition contextOf (retrievedChunks : list Hit) : string :=
  JS.join (String nl (String nl "---" ++ String nl (String nl "")))
    (imap (fun i chunk =>
             "[Source " ++ decimal (i + 1) ++ " - "
             ++ match hitLabel chunk with Some v => v | None => "undefined" end
             ++ "]" ++ String nl (content (hitChunk chunk)))
          retrievedChunks).

Definition sourcesOf (retrievedChunks : list Hit) : list Source :=
  imap (fun i chunk =>
          {| sourceId := i + 1;
             sourceContent := content (hitChunk chunk);
             sourceName :=
               match orElse (hitLabel chunk) (Some "Unknown") with
               | Some v => v
               | None => "Unknown"
               end;
             sourceScore := toFixed1 (score chunk * 100)%Q ++ "%";
             sourceChunkIndex := chunkIndex (metadata (hitChunk chunk)) |})
       retrievedChunks.

Definition generateRAGResponse (query : string) (retrievedChunks : list Hit)
           (h : list Message) : Llm (string * list Source) :=
  if (length retrievedChunks =? 0)%nat then ret (nothingFoundAnswer, [])
  else
    a <- generateResponse query (Some (contextOf retrievedChunks)) h ;;
    ret (a, sourcesOf retrievedChunks).

Definition generateGeneralResponse (query : string) (h : list Message)
  : Llm (string * list Source) :=
  a <- generateResponse query None h ;;
  ret (a, []).

Definition handleRAGQuery (query : string) (h : list Message)
           (store : VectorStore) : Llm Response :=
  let retrievedChunks := hybridSearch embedder Math_sqrt query 8 store in
  let relevantChunks := List.filter (reaches relevanceThreshold) retrievedChunks in
  if (length relevantChunks =? 0)%nat then
    let fallbackChunks := List.filter (reaches 0.1) retrievedChunks in
    if (0 <? length fallbackChunks)%nat then
      response <- generateRAGResponse query (firstn 5 fallbackChunks) h ;;
      ret {| answer := fst response; mode := "rag"; sources := snd response;
             retrievedCount := Some (length fallbackChunks);
             noRelevantResults := None |}
    else
      ret {| answer := noResultsAnswer; mode := "rag"; sources := [];
             retrievedCount := None; noRelevantResults := Some true |}
  else
    response <- generateRAGResponse query relevantChunks h ;;
    ret {| answer := fst response; mode := "rag"; sources := snd response;
           retrievedCount := Some (length relevantChunks);
           noRelevantResults := None |}.

Definition handleGeneralQuery (query : string) (h : list Message)
  : Llm Response :=
  response <- generateGeneralResponse query h ;;
  ret {| answer := fst response; mode := "general"; sources := snd response;
         retrievedCount := None; noRelevantResults := None |}.

Definition autoDetectMode (query : string) (hasDocs : bool)
           (store : VectorStore) : string :=
  if negb hasDocs then "general"
  else
    let queryLower := JS.toLowerCase query in
    let isDocumentQuery := existsb (JS.includes queryLower) documentKeywords in
    if isDocumentQuery then "rag"
    else
      match hybridSearch embedder Math_sqrt query 1 store with
      | top :: _ =>
          if negb (Qle_bool (score top) relevanceThreshold) then "rag"
          else "general"
      | [] => "general"
      end.

Definition dispatch (mode query : string) (h : list Message)
           (store : VectorStore) : Llm Response :=
  if String.eqb mode "rag" then handleRAGQuery query h store
  else handleGeneralQuery query h.

Definition route (query requestedMode : string) (h : list Message)
           (store : VectorStore) : Llm Response :=
  let hasDocs := hasDocuments store in
  if String.eqb requestedMode "auto" then
    dispatch (autoDetectMode query hasDocs store) query h store
  else if String.eqb requestedMode "rag" && negb hasDocs then
    ret {| answer := refusalAnswer; mode := "error"; sources := [];
           retrievedCount := None; noRelevantResults := None |}
  else dispatch requestedMode query h store.
End Router.

(** ** vectorStore.js: the search by vectors alone *)

(** A chunk with its similarity: [{ ...chunk, similarity }]. *)
Record Similar : Type := {
  similarChunk : Chunk;
  similarity : Q
}.

(** [(a, b) => b.similarity - a.similarity] is positive when [a] is the less
    similar. *)
Definition lessSimilar (a b : Similar) : bool :=
  match (similarity a ?= similarity b)%Q with Lt => true | _ => false end.

Section VectorSearch.
Variable embedder : string -> list Q.
Variable Math_sqrt : Q -> Q.

Definition withSimilarity (queryEmbedding : list Q) (chunk : Chunk) : Similar :=
  {| similarChunk := chunk;
     similarity := cosineSimilarity Math_sqrt queryEmbedding (embedding chunk) |}.

Definition vectorSearch (query : string) (topK : nat) (this : VectorStore)
  : list Similar :=
  if (length (chunks this) =? 0)%nat then []
  else
    let queryEmbedding := generateEmbedding embedder query in
    firstn topK
      (JS.sort lessSimilar (map (withSimilarity queryEmbedding) (chunks this))).
End VectorSearch.

(** ** vectorStore.js: the scores as the code computes them *)

(** The scores of the search are IEEE 754 doubles, and the sums and products
    that make them are rounded one by one.  This module repeats the search
    of the index on the primitive doubles, with the chunks of [this.chunks]
    as they are stored. *)
Module Doubles.

(** A chunk of the index: [{ ...chunk, docId, embedding, keywords }]. *)
Record Chunk : Type := {
  raw : RawChunk;
  docId : string;
  embedding : list float;
  keywords : list string
}.

(** A scored chunk, as [hybridSearch] returns it. *)
Record Hit : Type := {
  hitChunk : RawChunk;      (* id, content, metadata *)
  hitDocId : string;
  vectorScore : float;
  keywordScore : float;
  phraseBoost : float;
  score : float
}.

(** A chunk with its similarity: [{ ...chunk, similarity }]. *)
Record Similar : Type := {
  similarChunk : Chunk;
  similarity : float
}.

(** [b[i]] past the end of [b] is [undefined], and a product with it is
    [NaN]. *)
Definition at0 (b : list float) : float :=
  match b with
  | [] => nan
  | bi :: _ => bi
  end.

(** The three accumulators of the loop of [cosineSimilarity]. *)
Fixpoint cosineLoop (a b : list float) (acc : float * float * float)
  : float * float * float :=
  match a with
  | [] => acc
  | ai :: a' =>
      let '(dotProduct, normA, normB) := acc in
      let bi := at0 b in
      cosineLoop a' (List.tl b)
        (dotProduct + ai * bi, normA + ai * ai, normB + bi * bi)%float
  end.

Definition cosineSimilarity (a b : list float) : float :=
  let '(dotProduct, normA, normB) := cosineLoop a b (0, 0, 0)%float in
  (dotProduct / (PrimFloat.sqrt normA * PrimFloat.sqrt normB))%float.

Definition keywordMatch (queryKeywords chunkKeywords : list string) : float :=
  let matches := List.filter (fun kw => has chunkKeywords kw) queryKeywords in
  (Number.ofNat (length matches)
   / Number.ofNat (Nat.max (length queryKeywords) 1))%float.

(** [for (const word of importantWords) if (contentLower.includes(word))
    phraseBoost += 0.05] *)
Definition wordBoost (contentLower : string) (importantWords : list string)
  : float :=
  fold_left
    (fun phraseBoost word =>
       if JS.includes contentLower word then (phraseBoost + 0.05)%float
       else phraseBoost)
    importantWords 0%float.

Definition phraseBoostOf (queryKeywords : list string) (chunkContent : string)
  : float :=
  let contentLower := JS.toLowerCase chunkContent in
  let importantWords := firstn 5 queryKeywords in
  let phraseBoost := wordBoost contentLower importantWords in
  if (2 <=? length importantWords)%nat then
    let twoWordPhrase := JS.join " " (firstn 2 importantWords) in
    if JS.includes contentLower twoWordPhrase then (phraseBoost + 0.1)%float
    else phraseBoost
  else phraseBoost.

Definition scoreChunk (queryEmbedding : list float) (queryKeywords : list string)
           (chunk : Chunk) : Hit :=
  let vs := cosineSimilarity queryEmbedding (embedding chunk) in
  let ks := keywordMatch queryKeywords (keywords chunk) in
  let pb := phraseBoostOf queryKeywords (content (raw chunk)) in
  {| hitChunk := raw chunk;
     hitDocId := docId chunk;
     vectorScore := vs;
     keywordScore := ks;
     phraseBoost := pb;
     score := (vs * 0.6 + ks * 0.25 + Number.Math_min pb 0.15)%float |}.

(** [(a, b) => b.score - a.score] sends [a] after [b] when the difference
    is positive; a difference that is [NaN] counts as 0. *)
Definition scoresLess (a b : Hit) : bool := (0 <? score b - score a)%float.

(** [(a, b) => b.similarity - a.similarity] *)
Definition lessSimilar (a b : Similar) : bool :=
  (0 <? similarity b - similarity a)%float.

Section Search.
(** The feature-extraction pipeline with mean pooling and normalisation. *)
Variable embedder : string -> list float.
(** [this.chunks] *)
Variable chunks : list Chunk.

Definition generateEmbedding (text : string) : list float :=
  embedder (String.substring 0 512 text).

Definition scoreAll (query : string) : list Hit :=
  map (scoreChunk (generateEmbedding query) (extractKeywords query)) chunks.

Definition hybridSearch (query : string) (topK : nat) : list Hit :=
  if (length chunks =? 0)%nat then []
  else firstn topK (JS.sort scoresLess (scoreAll query)).

Definition withSimilarity (queryEmbedding : list float) (chunk : Chunk) : Similar :=
  {| similarChunk := chunk;
     similarity := cosineSimilarity queryEmbedding (embedding chunk) |}.

Definition vectorSearch (query : string) (topK : nat) : list Similar :=
  if (length chunks =? 0)%nat then []
  else
    let queryEmbedding := generateEmbedding query in
    firstn topK (JS.sort lessSimilar (map (withSimilarity queryEmbedding) chunks)).
End Search.

(** A chunk as [addDocument] stores it. *)
Definition processChunk (embedder : string -> list float) (d : string)
           (chunk : RawChunk) : Chunk :=
  {| raw := chunk; docId := d;
     embedding := embedder (String.substring 0 512 (content chunk));
     keywords := extractKeywords (content chunk) |}.

End Doubles.

(** ** llmService.js: the models and the requests to their providers *)

Module LLM.

(** The variables of [process.env] that the service reads; [None] is a
    variable that is not set. *)
Record Env : Type := {
  DEFAULT_MODEL : option string;
  OLLAMA_BASE_URL : option string;
  OPENAI_API_KEY : option string;
  DEEPSEEK_API_KEY : option string
}.

(** A client of the [openai] library: [new OpenAI({ apiKey, baseURL })]. *)
Record Client : Type := {
  apiKey : string;
  baseURL : option string
}.

Record ModelConfig : Type := {
  provider : string;
  modelName : option string;
  name : string;
  available : bool
}.

Record LLMService : Type := {
  currentModel : string;
  openai : option Client;
  deepseek : option Client;
  ollamaBaseUrl : string;
  models : list (string * ModelConfig)
}.

(** [a || b] where [a] is a string or undefined and [b] a string. *)
Definition stringOr (a : option string) (b : string) : string :=
  match a with
  | Some (String c s) => String c s
  | _ => b
  end.

(** [!!client] *)
Definition isSet (client : option Client) : bool :=
  match client with Some _ => true | None => false end.

(** The constructor.  Its first assignment to [currentModel] reads
    [DEFAULT_MODEL]; its last statement assigns the field again. *)
Definition newLLMService (env : Env) : LLMService :=
  let currentModel := stringOr (DEFAULT_MODEL env) "ollama-llama3.2" in
  let ollamaBaseUrl := stringOr (OLLAMA_BASE_URL env) "http://localhost:11434" in
  let openai :=
    match OPENAI_API_KEY env with
    | Some key =>
        if (10 <? String.length key)%nat
        then Some {| apiKey := key; baseURL := None |}
        else None
    | None => None
    end in
  let deepseek :=
    match DEEPSEEK_API_KEY env with
    | Some key =>
        if (10 <? String.length key)%nat
        then Some {| apiKey := key; baseURL := Some "https://api.deepseek.com" |}
        else None
    | None => None
    end in
  let models :=
    [ ("ollama-llama3.2",
       {| provider := "ollama"; modelName := Some "llama3.2:1b";
          name := "Llama 3.2 1B (Local)"; available := true |});
      ("ollama-llama3.2-3b",
       {| provider := "ollama"; modelName := Some "llama3.2:3b";
          name := "Llama 3.2 3B (Local)"; available := true |});
      ("deepseek-chat",
       {| provider := "deepseek"; modelName := None;
          name := "DeepSeek Chat"; available := isSet deepseek |});
      ("deepseek-coder",
       {| provider := "deepseek"; modelName := None;
          name := "DeepSeek Coder"; available := isSet deepseek |});
      ("gpt-3.5-turbo",
       {| provider := "openai"; modelName := None;
          name := "GPT-3.5 Turbo"; available := isSet openai |});
      ("gpt-4",
       {| provider := "openai"; modelName := None;
          name := "GPT-4"; available := isSet openai |});
      ("gpt-4-turbo",
       {| provider := "openai"; modelName := None;
          name := "GPT-4 Turbo"; available := isSet openai |});
      ("local-simple",
       {| provider := "local"; modelName := None;
          name := "Local (No LLM)"; available := true |}) ] in
  let currentModel := "ollama-llama3.2" in
  {| currentModel := currentModel; openai := openai; deepseek := deepseek;
     ollamaBaseUrl := ollamaBaseUrl; models := models |}.

(** The names every object inherits from [Object.prototype]; each of them
    reads as a function or an object, none of which has a property
    [available] or [provider]. *)
Definition prototypeNames : list string :=
  [ "constructor"; "__defineGetter__"; "__defineSetter__"; "hasOwnProperty";
    "__lookupGetter__"; "__lookupSetter__"; "isPrototypeOf";
    "propertyIsEnumerable"; "toString"; "valueOf"; "__proto__";
    "toLocaleString" ].

Fixpoint ownProperty {V} (props : list (string * V)) (k : string) : option V :=
  match props with
  | [] => None
  | (k', v) :: rest => if String.eqb k k' then Some v else ownProperty rest k
  end.

(** What [this.models[modelId]] reads. *)
Inductive Property : Type :=
  | Own (config : ModelConfig)
  | Inherited
  | Undefined.

Definition getModel (this : LLMService) (modelId : string) : Property :=
  match ownProperty (models this) modelId with
  | Some config => Own config
  | None => if has prototypeNames modelId then Inherited else Undefined
  end.

(** An entry of the list of models: [{ id, name, provider }]. *)
Record ModelInfo : Type := {
  listedId : string;
  listedName : string;
  listedProvider : string
}.

Definition getAvailableModels (this : LLMService) : list ModelInfo :=
  map (fun entry =>
         {| listedId := fst entry;
            listedName := name (snd entry);
            listedProvider := provider (snd entry) |})
      (List.filter (fun entry => available (snd entry))
                   (JS.ownEntries (models this))).

Definition getCurrentModel (this : LLMService) : string := currentModel this.

Definition withCurrentModel (modelId : string) (this : LLMService) : LLMService :=
  {| currentModel := modelId; openai := openai this; deepseek := deepseek this;
     ollamaBaseUrl := ollamaBaseUrl this; models := models this |}.

Definition setModel (modelId : string) (this : LLMService)
  : outcome * LLMService :=
  match getModel this modelId with
  | Undefined => (Threw ("Unknown model: " ++ modelId), this)
  | Inherited => (Threw ("Model not available: " ++ modelId), this)
  | Own config =>
      if available config then (Returned, withCurrentModel modelId this)
      else (Threw ("Model not available: " ++ modelId), this)
  end.

(** The body of a chat request: [{ model, messages, stream, temperature }]
    and the bound on the answer ([num_predict] for Ollama, [max_tokens] for
    the clients). *)
Record ChatRequest : Type := {
  model : option string;
  messages : list Message;
  stream : option bool;
  temperature : Q;
  max_tokens : nat
}.

(** What leaves the service: a [fetch] of a URL or a call of
    [chat.completions.create] on a client. *)
Inductive Sent : Type :=
  | Fetch (url : string) (body : ChatRequest)
  | Create (client : Client) (params : ChatRequest).

(** How a [fetch] of the Ollama endpoint ends: with the content of the
    message of the reply, with a status that is not ok, or with an
    exception. *)
Inductive FetchReply : Type :=
  | Fetched (text : string)
  | NotOk (status : nat) (statusText : string)
  | FetchFailed (message : string).

(** How an asynchronous method of the service ends. *)
Inductive Completion : Type :=
  | Resolved (text : string)
  | Rejected (message : string).

(** [context ? ... : ...]: a context is used when it is a non-empty string. *)
Definition given (context : option string) : bool :=
  match context with
  | Some (String _ _) => true
  | _ => false
  end.

Definition br : string := String nl "".
Definition quote : string := String (ascii_of_nat 34) "".

(** The system prompt of [generateOllama] and [generateDeepSeek]. *)
Definition systemPromptThorough (context : option string) : string :=
  match context with
  | Some (String c s) =>
      JS.join br
        [ "You are a helpful AI assistant that answers questions based on the provided context. ";
          "         Always cite your sources and indicate which part of the context your answer comes from.";
          "         If the context doesn't contain relevant information, say so clearly.";
          "         Do not make up information that isn't in the context.";
          "         Be concise but thorough in your responses.";
          "         ";
          "         Context:";
          "         " ++ String c s ]
  | _ =>
      "You are a helpful AI assistant. Provide accurate, helpful, and well-structured responses to user questions."
  end.

(** The system prompt of [generateOpenAI]. *)
Definition systemPromptPlain (context : option string) : string :=
  match context with
  | Some (String c s) =>
      JS.join br
        [ "You are a helpful AI assistant that answers questions based on the provided context. ";
          "         Always cite your sources and indicate which part of the context your answer comes from.";
          "         If the context doesn't contain relevant information, say so clearly.";
          "         Do not make up information that isn't in the context.";
          "         ";
          "         Context:";
          "         " ++ String c s ]
  | _ =>
      "You are a helpful AI assistant. Provide accurate, helpful responses to user questions."
  end.

(** The array [messages] of the three generators: the system prompt, the
    last six messages of the history, the prompt. *)
Definition messagesOf (systemPrompt : string) (conversationHistory : list Message)
           (prompt : string) : list Message :=
  ({| role := "system"; messageContent := systemPrompt |}
   :: map (fun msg => {| role := role msg; messageContent := messageContent msg |})
          (JS.sliceLast 6 conversationHistory)
   ++ [{| role := "user"; messageContent := prompt |}])%list.

Section Providers.
(** The reply of the Ollama endpoint to a request. *)
Variable fetch : string -> ChatRequest -> FetchReply.
(** The reply of a client of the [openai] library: the content of the first
    choice, or the message of the exception. *)
Variable create : Client -> ChatRequest -> string + string.
(** The message of the engine's [TypeError] for reading a property of
    [undefined] or [null]. *)
Variable cannotRead : string -> string.

Definition generateOllama (this : LLMService) (prompt : string)
           (context : option string) (conversationHistory : list Message)
  : Completion * list Sent :=
  let systemPrompt := systemPromptThorough context in
  let messages := messagesOf systemPrompt conversationHistory prompt in
  match getModel this (currentModel this) with
  | Undefined => (Rejected ("Ollama error: " ++ cannotRead "modelName"), [])
  | modelConfig =>
      let url := ollamaBaseUrl this ++ "/api/chat" in
      let body :=
        {| model := match modelConfig with
                    | Own config => modelName config
                    | _ => None
                    end;
           messages := messages;
           stream := Some false;
           temperature := if given context then 0.3%Q else 0.7%Q;
           max_tokens := 2000 |} in
      (match fetch url body with
       | Fetched text => Resolved text
       | NotOk status statusText =>
           Rejected ("Ollama error: " ++ "Ollama API error: "
                     ++ decimal status ++ " " ++ statusText)
       | FetchFailed message => Rejected ("Ollama error: " ++ message)
       end,
       [Fetch url body])
  end.

Definition generateDeepSeek (this : LLMService) (prompt : string)
           (context : option string) (conversationHistory : list Message)
  : Completion * list Sent :=
  let systemPrompt := systemPromptThorough context in
  let messages := messagesOf systemPrompt conversationHistory prompt in
  match deepseek this with
  | None => (Rejected ("DeepSeek error: " ++ cannotRead "chat"), [])
  | Some client =>
      let params :=
        {| model := Some (currentModel this);
           messages := messages;
           stream := Some false;
           temperature := if given context then 0.3%Q else 0.7%Q;
           max_tokens := 2000 |} in
      (match create client params with
       | inl text => Resolved text
       | inr message => Rejected ("DeepSeek error: " ++ message)
       end,
       [Create client params])
  end.

Definition generateOpenAI (this : LLMService) (prompt : string)
           (context : option string) (conversationHistory : list Message)
  : Completion * list Sent :=
  let systemPrompt := systemPromptPlain context in
  let messages := messagesOf systemPrompt conversationHistory prompt in
  match openai this with
  | None => (Rejected ("LLM error: " ++ cannotRead "chat"), [])
  | Some client =>
      let params :=
        {| model := Some (currentModel this);
           messages := messages;
           stream := None;
           temperature := if given context then 0.3%Q else 0.7%Q;
           max_tokens := 1000 |} in
      (match create client params with
       | inl text => Resolved text
       | inr message => Rejected ("LLM error: " ++ message)
       end,
       [Create client params])
  end.

Definition generateLocalResponse (prompt : string) (context : option string)
  : string :=
  match context with
  | Some (String c s) =>
      "Based on the provided documents, here is the relevant information:"
      ++ br ++ br ++ String c s ++ br ++ br ++ "---" ++ br
      ++ "*Note: This response shows the raw retrieved context. Connect an LLM (like DeepSeek or OpenAI) for intelligent answers.*"
  | _ =>
      "I'm running in local mode without an LLM connection. To get intelligent responses:"
      ++ br ++ br
      ++ "1. Add your DeepSeek or OpenAI API key to the .env file" ++ br
      ++ "2. Or upload documents to use RAG mode" ++ br ++ br
      ++ "Your question was: " ++ quote ++ prompt ++ quote
  end.

Definition generateResponse (this : LLMService) (prompt : string)
           (context : option string) (conversationHistory : list Message)
  : Completion * list Sent :=
  match getModel this (currentModel this) with
  | Undefined => (Rejected (cannotRead "provider"), [])
  | Inherited => (Resolved (generateLocalResponse prompt context), [])
  | Own model =>
      if String.eqb (provider model) "ollama" then
        generateOllama this prompt context conversationHistory
      else if String.eqb (provider model) "deepseek" && isSet (deepseek this) then
        generateDeepSeek this prompt context conversationHistory
      else if String.eqb (provider model) "openai" && isSet (openai this) then
        generateOpenAI this prompt context conversationHistory
      else (Resolved (generateLocalResponse prompt context), [])
  end.
End Providers.

End LLM.

(** ** server.js: the chat endpoint and its conversation memory *)

(** A message of a stored conversation: [{ role, content, timestamp }], with
    [mode] and [sources] on the messages of the assistant. *)
Record StoredMessage : Type := {
  storedRole : string;
  storedContent : string;
  timestamp : string;
  storedMode : option string;
  storedSources : option (list Source)
}.

Record Conversation : Type := {
  conversationId : string;
  messages : list StoredMessage;
  createdAt : string
}.

(** The fields of [req.body] that the handler reads, [None] for a field that
    is not there, together with what the handler draws while it serves the
    request: an identifier from [uuidv4()] and three readings of the clock. *)
Record ChatBody : Type := {
  bodyMessage : option string;
  bodyConversationId : option string;
  bodyMode : option string;
  uuid : string;
  createdTime : string;
  userTime : string;
  assistantTime : string
}.

(** The three replies of the handler: 200 with the conversation id and the
    response, 400, and the 500 of its [catch] with [error.message] as the
    details. *)
Inductive ChatReply : Type :=
  | ChatOk (conversation : string) (response : Response)
  | ChatBadRequest (error : string)
  | ChatFailed (error details : string).

(** The router and the language-model service read [role] and [content] of
    the messages they are handed. *)
Definition seen (msg : StoredMessage) : Message :=
  {| role := storedRole msg; messageContent := storedContent msg |}.

Section Chat.
Variable embedder : string -> list Q.
Variable Math_sqrt : Q -> Q.
Variable provider : string -> option string -> list Message -> string.
(** The requests that the language model fails to answer, with the message
    of the error that [generateResponse] then throws. *)
Variable failure : LlmCall -> option string.

(** The message of the first error among the requests of a computation. *)
Fixpoint firstFailure (calls : list LlmCall) : option string :=
  match calls with
  | [] => None
  | call :: rest =>
      match failure call with
      | Some details => Some details
      | None => firstFailure rest
      end
  end.

(** The requests made until an error is thrown. *)
Fixpoint attempted (calls : list LlmCall) : list LlmCall :=
  match calls with
  | [] => []
  | call :: rest =>
      call :: match failure call with
              | Some _ => []
              | None => attempted rest
              end
  end.

(** [try { ... await m ... } catch (error)]: the value of [m], or the
    message of the error that stopped it. *)
Definition attempt {A} (m : Llm A) : Llm (string + A) :=
  match firstFailure (snd m) with
  | Some details => (inl details, attempted (snd m))
  | None => (inr (fst m), snd m)
  end.

(** [app.post('/api/chat', ...)], one request at a time.  The conversation
    is an object of the [Map] and [push] changes it in place, so the user
    message stays in it when the route throws. *)
Definition chat (body : ChatBody) (store : VectorStore)
           (conversations : gmap string Conversation)
  : Llm (ChatReply * gmap string Conversation) :=
  match bodyMessage body with
  | Some (String c s) =>
      let message := String c s in
      let conversationId' :=
        match bodyConversationId body with
        | Some v => v
        | None => uuid body
        end in
      let mode' :=
        match bodyMode body with
        | Some v => v
        | None => "auto"
        end in
      let conversation :=
        match conversations !! conversationId' with
        | Some stored => stored
        | None => {| conversationId := conversationId'; messages := [];
                     createdAt := createdTime body |}
        end in
      let pushed :=
        (messages conversation
         ++ [{| storedRole := "user"; storedContent := message;
                timestamp := userTime body;
                storedMode := None; storedSources := None |}])%list in
      routed <- attempt (route embedder Math_sqrt provider message mode'
                               (map seen pushed) store) ;;
      match routed with
      | inl details =>
          ret (ChatFailed "Failed to process message" details,
               <[conversationId' :=
                   {| conversationId := conversationId conversation;
                      messages := pushed;
                      createdAt := createdAt conversation |}]> conversations)
      | inr response =>
          let answered :=
            (pushed
             ++ [{| storedRole := "assistant"; storedContent := answer response;
                    timestamp := assistantTime body;
                    storedMode := Some (mode response);
                    storedSources := Some (sources response) |}])%list in
          let trimmed :=
            if (20 <? length answered)%nat then JS.sliceLast 20 answered
            else answered in
          ret (ChatOk conversationId' response,
               <[conversationId' :=
                   {| conversationId := conversationId conversation;
                      messages := trimmed;
                      createdAt := createdAt conversation |}]> conversations)
      end
  | _ => ret (ChatBadRequest "Message is required", conversations)
  end.
End Chat.

(** ** documentProcessor.js: reading files and pages *)

(** What [cheerio] shows of a page once the script, style, nav, footer,
    header and aside elements are removed: the text of the elements a
    selector matches, [None] when it matches none; the text of the body; the
    text of the title. *)
Record Page : Type := {
  select : string -> option string;
  bodyText : string;
  titleText : string
}.

Definition mainSelectors : list string :=
  ["main"; "article"; ".content"; "#content"; ".post"; ".entry"].

(** [for (const selector of mainSelectors)
       if ($(selector).length) { text = $(selector).text(); break; }] *)
Fixpoint firstSelected (page : Page) (selectors : list string) : string :=
  match selectors with
  | [] => ""
  | selector :: rest =>
      match select page selector with
      | Some text => text
      | None => firstSelected page rest
      end
  end.

(** [.replace(/\s+/g, ' ')]; [inRun] says that the character before was
    white space. *)
Fixpoint replaceSpaceRuns (inRun : bool) (s : string) : string :=
  match s with
  | EmptyString => EmptyString
  | String c s' =>
      if JS.isSpace c then
        if inRun then replaceSpaceRuns true s'
        else String " " (replaceSpaceRuns true s')
      else String c (replaceSpaceRuns false s')
  end.

(** [.replace(/\n+/g, '\n')] *)
Fixpoint replaceNewlineRuns (inRun : bool) (s : string) : string :=
  match s with
  | EmptyString => EmptyString
  | String c s' =>
      if Ascii.eqb c nl then
        if inRun then replaceNewlineRuns true s'
        else String nl (replaceNewlineRuns true s')
      else String c (replaceNewlineRuns false s')
  end.

Section Reading.
Variable this : DocumentProcessor.
(** [path.extname] *)
Variable extname : string -> string.
(** What the libraries make of the file at a path, or the message of the
    exception they throw: [pdfParse(fs.readFileSync(path))] and its [text];
    [mammoth.extractRawText] and its [value]; [XLSX.readFile] and, for each
    sheet in order, its name and [sheet_to_csv]; [fs.readFileSync(path,
    'utf-8')]. *)
Variable pdfParse : string -> string + string.
Variable extractRawText : string -> string + string.
Variable readWorkbook : string -> list (string * string) + string.
Variable readFileSync : string -> string + string.
(** [cheerio.load] of what [axios.get] receives from a URL. *)
Variable load : string -> Page + string.

Definition extractPDF (filePath : string) : string + string := pdfParse filePath.

Definition extractDocx (filePath : string) : string + string :=
  extractRawText filePath.

Definition extractExcel (filePath : string) : string + string :=
  match readWorkbook filePath with
  | inl sheets =>
      inl (fold_left
             (fun text sheet =>
                text ++ String nl ("=== Sheet: " ++ fst sheet ++ " ===")
                     ++ String nl (snd sheet) ++ String nl "")
             sheets "")
  | inr message => inr message
  end.

Definition extractPptx (filePath : string) : string :=
  match extractRawText filePath with
  | inl (String c s) => String c s
  | inl EmptyString => "Unable to extract text from PowerPoint"
  | inr _ => "PowerPoint extraction not fully supported"
  end.

Definition extractCSV (filePath : string) : string + string :=
  readFileSync filePath.

Definition processFile (filePath originalName : string)
  : list RawChunk + string :=
  let ext := JS.toLowerCase (extname originalName) in
  let metadata :=
    {| filename := Some originalName; url := None; type := ext; title := None |} in
  let text :=
    if String.eqb ext ".pdf" then extractPDF filePath
    else if String.eqb ext ".docx" then extractDocx filePath
    else if String.eqb ext ".xlsx" || String.eqb ext ".xls"
    then extractExcel filePath
    else if String.eqb ext ".pptx" then inl (extractPptx filePath)
    else if String.eqb ext ".txt" || String.eqb ext ".md"
            || String.eqb ext ".markdown"
    then readFileSync filePath
    else if String.eqb ext ".csv" then extractCSV filePath
    else inr ("Unsupported file type: " ++ ext) in
  match text with
  | inl text => inl (createChunks this metadata text)
  | inr message => inr message
  end.

Definition processUrl (address : string) : list RawChunk + string :=
  match load address with
  | inl page =>
      let text := firstSelected page mainSelectors in
      let text := if nonEmpty text then text else bodyText page in
      let text :=
        JS.trim (replaceNewlineRuns false (replaceSpaceRuns false text)) in
      let metadata :=
        {| filename := None; url := Some address; type := "webpage";
           title := orElse (Some (titleText page)) (Some address) |} in
      inl (createChunks this metadata text)
  | inr message => inr ("Failed to fetch URL: " ++ message)
  end.
End Reading.

(** ** server.js: the ingestion endpoints *)

(** A file as [multer] hands it over, with what the handler draws when it
    adds it: an identifier from [uuidv4()] and a reading of the clock. *)
Record UploadedFile : Type := {
  path : string;
  originalname : string;
  drawnId : string;
  addedTime : string
}.

(** An entry of [results]: [{ filename, docId, chunks, status }] or
    [{ filename, status, error }]. *)
Record UploadResult : Type := {
  resultFilename : string;
  resultDocId : option string;
  resultChunks : option nat;
  status : string;
  resultError : option string
}.

Inductive UploadReply : Type :=
  | UploadOk (processed failed : nat) (results : list UploadResult)
             (totalDocuments totalChunks : nat)
  | UploadBadRequest (error : string).

Inductive UrlReply : Type :=
  | UrlOk (address docId : string) (chunkTotal totalDocuments totalChunks : nat)
  | UrlBadRequest (error : string)
  | UrlFailed (error details : string).

Section Ingestion.
Variable embedder : string -> list Q.
Variable documentProcessor : DocumentProcessor.
Variable extname : string -> string.
Variable pdfParse : string -> string + string.
Variable extractRawText : string -> string + string.
Variable readWorkbook : string -> list (string * string) + string.
Variable readFileSync : string -> string + string.
Variable load : string -> Page + string.
(** [fs.unlinkSync]: [Some] carries the message of the exception. *)
Variable unlinkSync : string -> option string.

Definition failure (file : UploadedFile) (message : string) : UploadResult :=
  {| resultFilename := originalname file; resultDocId := None;
     resultChunks := None; status := "error"; resultError := Some message |}.

(** One turn of [for (const file of req.files)]: the [try] block and its
    [catch]. *)
Definition uploadFile (acc : list UploadResult * VectorStore) (file : UploadedFile)
  : list UploadResult * VectorStore :=
  let '(results, vectorStore) := acc in
  match processFile documentProcessor extname pdfParse extractRawText
                    readWorkbook readFileSync (path file) (originalname file) with
  | inl chunks =>
      let docId := drawnId file in
      let vectorStore :=
        addDocument embedder docId (originalname file) chunks (addedTime file)
                    vectorStore in
      let results :=
        (results
         ++ [{| resultFilename := originalname file; resultDocId := Some docId;
                resultChunks := Some (length chunks); status := "success";
                resultError := None |}])%list in
      match unlinkSync (path file) with
      | None => (results, vectorStore)
      | Some message => ((results ++ [failure file message])%list, vectorStore)
      end
  | inr message => ((results ++ [failure file message])%list, vectorStore)
  end.

(** [app.post('/api/documents/upload', ...)], where the embedding model
    answers. *)
Definition upload (files : option (list UploadedFile)) (vectorStore : VectorStore)
  : UploadReply * VectorStore :=
  match files with
  | None | Some [] => (UploadBadRequest "No files uploaded", vectorStore)
  | Some files =>
      let '(results, vectorStore) := fold_left uploadFile files ([], vectorStore) in
      (UploadOk
         (length (List.filter (fun r => String.eqb (status r) "success") results))
         (length (List.filter (fun r => String.eqb (status r) "error") results))
         results
         (getDocumentCount vectorStore)
         (getChunkCount vectorStore),
       vectorStore)
  end.

(** [app.post('/api/documents/url', ...)]; [docId] and [now] are what the
    handler draws. *)
Definition ingestUrl (address : option string) (docId now : string)
           (vectorStore : VectorStore) : UrlReply * VectorStore :=
  match address with
  | Some (String c s) =>
      let address := String c s in
      match processUrl documentProcessor load address with
      | inl chunks =>
          let vectorStore :=
            addDocument embedder docId address chunks now vectorStore in
          (UrlOk address docId (length chunks)
                 (getDocumentCount vectorStore) (getChunkCount vectorStore),
           vectorStore)
      | inr message => (UrlFailed "Failed to process URL" message, vectorStore)
      end
  | _ => (UrlBadRequest "URL is required", vectorStore)
  end.
End Ingestion.

(** * Vocabulary of the properties *)

(** [x] may stay in front of [y]: the comparator does not send it after [y]. *)
Definition mayPrecede {A : Type} (after : A -> A -> bool) (x y : A) : Prop :=
  after x y = false.

(** The bonus for the phrase made of the first two query keywords. *)
Definition phraseBonus (queryKeywords : list string) (contentLower : string) : Q :=
  match queryKeywords with
  | k1 :: k2 :: _ =>
      if JS.includes contentLower (k1 ++ " " ++ k2) then 0.1%Q else 0%Q
  | _ => 0%Q
  end.

(** A client request that changes the store. *)
Inductive request : Type :=
  | Add (d nm : string) (input : list RawChunk) (now : string)
  | Remove (d : string)
  | Clear.

Definition serve (embedder : string -> list Q) (this : VectorStore) (r : request)
  : VectorStore :=
  match r with
  | Add d nm input now => addDocument embedder d nm input now this
  | Remove d => snd (removeDocument d this)
  | Clear => clear this
  end.

(** The store after a sequence of requests, starting from the empty one. *)
Definition serveAll (embedder : string -> list Q) (rs : list request) : VectorStore :=
  fold_left (serve embedder) rs newVectorStore.

Definition ownedBy (d : string) (chunk : Chunk) : bool := String.eqb (docId chunk) d.

(** One chunk as [addDocument] stores it. *)
Definition embedChunk (embedder : string -> list Q) (d : string) (chunk : RawChunk)
  : Chunk :=
  processChunk d chunk (embedder (String.substring 0 512 (content chunk))).

(** What holds of the registry and the index in every reachable state. *)
Definition consistent (this : VectorStore) : Prop :=
  (forall chunk, In chunk (chunks this) -> is_Some (documents this !! docId chunk))
  /\ (forall d info, documents this !! d = Some info ->
        (chunkCount info <= length (List.filter (ownedBy d) (chunks this)))%nat).

(** What a client can ask of the server: ingest a source (a file under its
    name, or a page under its URL), delete a document, clear everything.
    The document id is drawn by the server. *)
Inductive action : Type :=
  | Upload (d : string) (md : SourceMeta) (text : string) (now : string)
  | Delete (d : string)
  | ClearAll.

(** The store request an action leads to: an ingested source is chunked and
    added under its name. *)
Definition requestOf (this : DocumentProcessor) (a : action) : request :=
  match a with
  | Upload d md text now => Add d (sourceLabel md) (createChunks this md text) now
  | Delete d => Remove d
  | ClearAll => Clear
  end.

(** The source names of the ingested sources, in order. *)
Definition labels (acts : list action) : list string :=
  flat_map (fun a => match a with
                     | Upload _ md _ _ => [sourceLabel md]
                     | _ => []
                     end) acts.

(** The ids of the chunks of the index, in order. *)
Definition chunkIds (this : VectorStore) : list string :=
  map (fun chunk => id (raw chunk)) (chunks this).

(** Every id of the index is made of an ingested source name and a number,
    and no id occurs twice. *)
Definition labelled (seen : list string) (store : VectorStore) : Prop :=
  List.NoDup (chunkIds store)
  /\ forall x, In x (chunkIds store) ->
       exists l i, In l seen /\ x = l ++ "-chunk-" ++ decimal i.

(** The longest run of digits at the end of a text. *)
Fixpoint digitSuffix (s : string) : string :=
  match s with
  | EmptyString => EmptyString
  | String c s' => if JS.allDigits s then s else digitSuffix s'
  end.

(** A hint term occurs in the query, whatever the case of its letters. *)
Definition hasHint (query : string) : Prop :=
  exists kw, In kw documentKeywords /\ JS.includes (JS.toLowerCase query) kw = true.

(** The chunk at position [i] is chunk number [i] of its source. *)
Definition numbered (md : SourceMeta) (l : list RawChunk) : Prop :=
  forall i chunk, nth_error l i = Some chunk ->
    id chunk = sourceLabel md ++ "-chunk-" ++ decimal i
    /\ chunkIndex (metadata chunk) = i.

Definition counted (md : SourceMeta) (st : chunkerState) : Prop :=
  numbered md (chunks_acc st) /\ nextIndex st = length (chunks_acc st).

Fixpoint lastIsSpace (s : string) : bool :=
  match s with
  | EmptyString => false
  | String c EmptyString => JS.isSpace c
  | String _ s' => lastIsSpace s'
  end.

(** Trimmed text: no white space at either end. *)
Definition trimmed (s : string) : Prop :=
  JS.trim s = s /\ JS.startsWithSpace s = false /\ lastIsSpace s = false.

(** Every sentence followed by its space, as the buffer holds them. *)
Definition spaced (sentences : list string) : string :=
  fold_right (fun sentence rest => sentence ++ " " ++ rest) "" sentences.

Definition wellFormed (chunk : RawChunk) : Prop :=
  trimmed (content chunk) /\ content chunk <> "".

(** The buffer is empty or holds more than white space. *)
Definition solid (st : chunkerState) : Prop :=
  Forall wellFormed (chunks_acc st)
  /\ (nonEmpty (currentChunk st) = true -> JS.allSpaces (currentChunk st) = false).

(** How often a word occurs. *)
Definition occurrences (w : string) (ws : list string) : nat :=
  length (List.filter (String.eqb w) ws).

(** The distinct words, in the order of their first appearance. *)
Fixpoint firstOccurrences (ws : list string) : list string :=
  match ws with
  | [] => []
  | w :: rest =>
      w :: List.filter (fun x => negb (String.eqb x w)) (firstOccurrences rest)
  end.

(** [a] goes after [b] when it occurs less often. *)
Definition fewer (ws : list string) (a b : string) : bool :=
  (occurrences a ws <? occurrences b ws)%nat.

(** The order in which an object lists keys that were created in the order
    [l]. *)
Definition keyOrder (l : list string) : list string :=
  (JS.sort (fun a b => (JS.digitsValue 0 b <? JS.digitsValue 0 a)%N)
           (List.filter JS.isArrayIndex l)
   ++ List.filter (fun k => negb (JS.isArrayIndex k)) l)%list.

(** The lower-case words that name a property every object inherits. *)
Definition inheritedName (w : string) : bool :=
  String.eqb w "constructor" || String.eqb w "__proto__".

Definition plainWords (text : string) : bool :=
  forallb (fun w => negb (inheritedName w)) (words text).

(** Keyword extraction as the specification words it: the distinct tokens,
    most frequent first, equally frequent ones by first appearance, at most
    twenty. *)
Definition extract_keywords_spec (text : string) : list string :=
  firstn 20 (JS.sort (fewer (words text)) (firstOccurrences (words text))).

(** The same with the key order of the frequency table in place of the order
    of first appearance. *)
Definition extract_keywords_keyed (text : string) : list string :=
  firstn 20 (JS.sort (fewer (words text)) (keyOrder (firstOccurrences (words text)))).

(** The frequency table after the loop over plain words. *)
Definition tally (ws : list string) : list (string * freq) :=
  map (fun k => (k, Count (occurrences k ws))) (firstOccurrences ws).

(** The tokens are lower-case words. *)
Fixpoint allChars (p : ascii -> bool) (s : string) : bool :=
  match s with
  | EmptyString => true
  | String c s' => p c && allChars p s'
  end.

Definition lowerWordChar (c : ascii) : bool := JS.isWord c && negb (JS.isUpper c).

(** What the three generators put into a request. *)
Definition wellAddressed (prompt : string) (context : option string)
           (h : list Message) (request : LLM.ChatRequest) : Prop :=
  exists system,
    LLM.messages request
    = (system :: JS.sliceLast 6 h
         ++ [{| role := "user"; messageContent := prompt |}])%list
    /\ role system = "system"
    /\ (LLM.given context = true ->
        exists instructions text,
          context = Some text
          /\ messageContent system = instructions ++ text)
    /\ (LLM.given context = false ->
        messageContent system = LLM.systemPromptThorough None
        \/ messageContent system = LLM.systemPromptPlain None)
    /\ LLM.temperature request = (if LLM.given context then 0.3%Q else 0.7%Q).

(** * Sample inputs *)

(** A square root that is exact on ratios of perfect squares. *)
Definition exactRoot (x : Q) : Q :=
  let r := Qred x in Z.sqrt (Qnum r) # Pos.sqrt (Qden r).

(** An embedder that sends every text to the same unit vector. *)
Definition unitEmbedder (text : string) : list Q := [1%Q].

Definition catsFile : SourceMeta :=
  {| filename := Some "cats.txt"; url := None; type := ".txt"; title := None |}.

(** One upload of [cats.txt] holding the text [cats purr]. *)
Definition catsStore : VectorStore :=
  addDocument unitEmbedder "doc-1" "cats.txt"
    (createChunks defaultProcessor catsFile "cats purr") "2024-01-01T00:00:00.000Z"
    newVectorStore.

(** The only hit of the query [cats purr] on [catsStore]. *)
Definition catsHit : Hit :=
  scoreChunk exactRoot (generateEmbedding unitEmbedder "cats purr")
    (extractKeywords "cats purr")
    (processChunk "doc-1"
       {| id := "cats.txt-chunk-0"; content := "cats purr";
          metadata := {| source := catsFile; chunkIndex := 0;
                         charStart := 0; charEnd := 10 |} |}
       [1%Q]).

(** The same file uploaded twice; the server draws a new document id each
    time. *)
Definition sameNameTwice : list action :=
  [ Upload "doc-1" catsFile "cats purr" "2024-01-01T00:00:00.000Z";
    Upload "doc-2" catsFile "cats purr" "2024-01-02T00:00:00.000Z" ].

Definition catsTwice : VectorStore :=
  serveAll unitEmbedder (map (requestOf defaultProcessor) sameNameTwice).

Definition emptyFile : SourceMeta :=
  {| filename := Some "empty.txt"; url := None; type := ".txt"; title := None |}.

(** An upload whose text is empty: the chunker returns no chunk. *)
Definition emptyUpload : list request :=
  [Add "doc-1" "empty.txt" (createChunks defaultProcessor emptyFile "")
       "2024-01-01T00:00:00.000Z"].

(** A sentence of 801 letters. *)
Definition longSentence : string :=
  string_of_list_ascii (repeat "a"%char 801).

Definition sampleText : string := "Hello 2024 world, hello the World!! 007 100".

(** An embedder with two unit vectors whose cosine is 1/5: one for the text
    [banana], one for every other text. *)
Definition tableEmbedder (text : string) : list Q :=
  if String.eqb text "banana" then [1; 0; 0; 0]%Q
  else [1 # 5; 2 # 5; 2 # 5; 4 # 5]%Q.

(** An embedder that sends [banana] and every other text to orthogonal unit
    vectors. *)
Definition orthogonalEmbedder (text : string) : list Q :=
  if String.eqb text "banana" then [1; 0]%Q else [0; 1]%Q.

(** A provider that always gives the same answer. *)
Definition cannedProvider (p : string) (ctx : option string) (h : list Message)
  : string := "ok".

Definition policyFile : SourceMeta :=
  {| filename := Some "policy.txt"; url := None; type := ".txt"; title := None |}.

Definition policyStore (embedder : string -> list Q) : VectorStore :=
  addDocument embedder "doc-1" "policy.txt"
    (createChunks defaultProcessor policyFile
       "The reimbursement limit is 500 dollars per quarter.")
    "2024-01-01T00:00:00.000Z" newVectorStore.

Definition notesFile : SourceMeta :=
  {| filename := Some "notes.txt"; url := None; type := ".txt"; title := None |}.

(** Two files under different names, one of them deleted and its text
    uploaded again under a third name. *)
Definition sampleActions : list action :=
  [ Upload "doc-1" catsFile "cats purr. cats sleep." "2024-01-01T00:00:00.000Z";
    Upload "doc-2" policyFile "The reimbursement limit is 500 dollars per quarter."
           "2024-01-02T00:00:00.000Z";
    Delete "doc-1";
    Upload "doc-3" notesFile "cats purr." "2024-01-03T00:00:00.000Z" ].

(** [s] occurs in [buffer] as a contiguous piece. *)
Definition appearsIn (s buffer : string) : Prop :=
  exists pre post, buffer = pre ++ s ++ post.

(** A sentence is kept when a finished chunk or the buffer holds it. *)
Definition kept (acc : list RawChunk) (buffer s : string) : Prop :=
  (exists chunk, In chunk acc /\ appearsIn s (content chunk))
  \/ appearsIn s buffer.

(** What [addDocument] has derived from the content of a chunk. *)
Definition derived (embedder : string -> list Q) (chunk : Chunk) : Prop :=
  keywords chunk = extractKeywords (content (raw chunk))
  /\ embedding chunk
     = embedder (String.substring 0 512 (content (raw chunk))).

(** A keyword list as the index holds it. *)
Definition keywordList (l : list string) : Prop :=
  (length l <= 20)%nat
  /\ List.NoDup l
  /\ Forall (fun w => allChars lowerWordChar w = true
                      /\ (2 < String.length w)%nat
                      /\ has stopWords w = false) l.

(** The sum of the squares of a vector, accumulated as the loop of
    [cosineSimilarity] does. *)
Definition sumSquares (a : list Q) : Q :=
  fold_left (fun norm x => (norm + x * x)%Q) a 0%Q.

(** The language-model service after its constructor and a sequence of calls
    of [setModel]; a call that throws changes nothing. *)
Definition serviceAfter (env : LLM.Env) (modelIds : list string) : LLM.LLMService :=
  fold_left (fun this modelId => snd (LLM.setModel modelId this)) modelIds
            (LLM.newLLMService env).

(** The body of a request that left the service. *)
Definition bodyOf (sent : LLM.Sent) : LLM.ChatRequest :=
  match sent with
  | LLM.Fetch _ body => body
  | LLM.Create _ params => params
  end.

(** What the table of models promises about one of its entries, given the
    clients of the service. *)
Definition configured (this : LLM.LLMService) (entry : string * LLM.ModelConfig)
  : Prop :=
  let config := snd entry in
  (LLM.provider config = "ollama" /\ LLM.available config = true
   /\ exists nm, LLM.modelName config = Some nm)
  \/ (LLM.provider config = "deepseek"
      /\ LLM.available config = LLM.isSet (LLM.deepseek this))
  \/ (LLM.provider config = "openai"
      /\ LLM.available config = LLM.isSet (LLM.openai this))
  \/ (LLM.provider config = "local" /\ fst entry = "local-simple").

(** The invariant of the service: keys of the table are distinct, every entry
    is configured, the clients are the ones the constructor builds, and the
    current model is an available entry. *)
Definition serviceInvariant (this : LLM.LLMService) : Prop :=
  List.NoDup (map fst (LLM.models this))
  /\ Forall (fun entry => JS.isArrayIndex (fst entry) = false
                         /\ has LLM.prototypeNames (fst entry) = false)
            (LLM.models this)
  /\ Forall (configured this) (LLM.models this)
  /\ (forall client, LLM.deepseek this = Some client ->
        LLM.baseURL client = Some "https://api.deepseek.com")
  /\ (forall client, LLM.openai this = Some client -> LLM.baseURL client = None)
  /\ exists config,
       LLM.ownProperty (LLM.models this) (LLM.currentModel this) = Some config
       /\ LLM.available config = true.

(** The conversation memory after a sequence of chat requests, each served
    on the index of its time, starting from no conversation. *)
Definition chatAll (embedder : string -> list Q) (Math_sqrt : Q -> Q)
           (provider : string -> option string -> list Message -> string)
           (failure : LlmCall -> option string)
           (requests : list (ChatBody * VectorStore))
  : gmap string Conversation :=
  fold_left (fun conversations request =>
               snd (fst (chat embedder Math_sqrt provider failure
                              (fst request) (snd request) conversations)))
            requests ∅.

(** A language model that answers every request. *)
Definition answers : LlmCall -> option string := fun _ => None.

(** A language model that is out of reach for the first message of a
    conversation and answers afterwards. *)
Definition failsFirst (call : LlmCall) : option string :=
  if (length (history call) =? 1)%nat then Some "Ollama error: fetch failed"
  else None.

(** A user message, then a message of the assistant, and so on. *)
Fixpoint alternates (l : list StoredMessage) : bool :=
  match l with
  | [] => true
  | u :: rest =>
      match rest with
      | [] => false
      | a :: rest' =>
          String.eqb (storedRole u) "user"
          && String.eqb (storedRole a) "assistant"
          && alternates rest'
      end
  end.

(** What the chat endpoint keeps true of a stored conversation. *)
Definition wellKept (key : string) (conversation : Conversation) : Prop :=
  conversationId conversation = key
  /\ (length (messages conversation) <= 20)%nat
  /\ alternates (messages conversation) = true.

(** The stored messages of a conversation, none when it does not exist. *)
Definition messagesOf (conversations : gmap string Conversation) (key : string)
  : list StoredMessage :=
  match conversations !! key with
  | Some conversation => messages conversation
  | None => []
  end.

(** The conversation a chat request addresses. *)
Definition addressed (body : ChatBody) : string :=
  match bodyConversationId body with
  | Some v => v
  | None => uuid body
  end.

(** A first chat request: the message [Hello], no conversation id, no
    mode. *)
Definition helloBody : ChatBody :=
  {| bodyMessage := Some "Hello"; bodyConversationId := None; bodyMode := None;
     uuid := "c-1";
     createdTime := "2024-01-01T00:00:00.000Z";
     userTime := "2024-01-01T00:00:00.001Z";
     assistantTime := "2024-01-01T00:00:01.000Z" |}.

(** The same message again, sent to the conversation that the first one
    opened. *)
Definition helloAgain : ChatBody :=
  {| bodyMessage := Some "Hello"; bodyConversationId := Some "c-1";
     bodyMode := None;
     uuid := "c-2";
     createdTime := "2024-01-01T00:01:00.000Z";
     userTime := "2024-01-01T00:01:00.001Z";
     assistantTime := "2024-01-01T00:01:01.000Z" |}.

(** An environment without keys. *)
Definition bareEnv : LLM.Env :=
  {| LLM.DEFAULT_MODEL := Some "gpt-4"; LLM.OLLAMA_BASE_URL := None;
     LLM.OPENAI_API_KEY := None; LLM.DEEPSEEK_API_KEY := None |}.

(** An Ollama endpoint and a client that always answer [ok]. *)
Definition cannedFetch (url : string) (body : LLM.ChatRequest) : LLM.FetchReply :=
  LLM.Fetched "ok".

Definition cannedCreate (client : LLM.Client) (params : LLM.ChatRequest)
  : string + string := inl "ok".

Definition engineMessage (property : string) : string :=
  "Cannot read properties of undefined (reading '" ++ property ++ "')".

(** The extensions [processFile] has a case for. *)
Definition supportedTypes : list string :=
  [".pdf"; ".docx"; ".xlsx"; ".xls"; ".pptx"; ".txt"; ".md"; ".markdown"; ".csv"].

(** The metadata [processFile] stamps on the chunks of a file. *)
Definition fileMeta (extname : string -> string) (originalName : string)
  : SourceMeta :=
  {| filename := Some originalName; url := None;
     type := JS.toLowerCase (extname originalName); title := None |}.

(** White space other than the space itself does not occur. *)
Definition singleLine (s : string) : bool :=
  allChars (fun c => negb (JS.isSpace c) || Ascii.eqb c " ") s.

Section UploadVocabulary.
Variable embedder : string -> list Q.
Variable documentProcessor : DocumentProcessor.
Variable extname : string -> string.
Variable pdfParse : string -> string + string.
Variable extractRawText : string -> string + string.
Variable readWorkbook : string -> list (string * string) + string.
Variable readFileSync : string -> string + string.
Variable unlinkSync : string -> option string.

(** The chunks of an uploaded file, none when it cannot be processed. *)
Definition chunksOf (file : UploadedFile) : list RawChunk :=
  match processFile documentProcessor extname pdfParse extractRawText
                    readWorkbook readFileSync (path file) (originalname file) with
  | inl chunks => chunks
  | inr _ => []
  end.

Definition readable (file : UploadedFile) : bool :=
  match processFile documentProcessor extname pdfParse extractRawText
                    readWorkbook readFileSync (path file) (originalname file) with
  | inl _ => true
  | inr _ => false
  end.

Definition accepted (file : UploadedFile) : UploadResult :=
  {| resultFilename := originalname file; resultDocId := Some (drawnId file);
     resultChunks := Some (length (chunksOf file)); status := "success";
     resultError := None |}.

(** The entries of [results] that one file leaves. *)
Definition reported (file : UploadedFile) : list UploadResult :=
  match processFile documentProcessor extname pdfParse extractRawText
                    readWorkbook readFileSync (path file) (originalname file) with
  | inl _ =>
      accepted file
      :: match unlinkSync (path file) with
         | None => []
         | Some message =>
             [failure file message]
         end
  | inr message => [failure file message]
  end.

(** The store with the readable files added, in order. *)
Definition ingested (files : list UploadedFile) (vectorStore : VectorStore)
  : VectorStore :=
  fold_left (fun store file =>
               addDocument embedder (drawnId file) (originalname file)
                           (chunksOf file) (addedTime file) store)
            (List.filter readable files) vectorStore.
End UploadVocabulary.

(** Two text files, the second of which cannot be read, and a file of a type
    that is not supported. *)
Definition sampleUploads : list UploadedFile :=
  [ {| path := "uploads/1-cats.txt"; originalname := "cats.txt";
       drawnId := "doc-1"; addedTime := "2024-01-01T00:00:00.000Z" |};
    {| path := "uploads/2-dogs.txt"; originalname := "dogs.TXT";
       drawnId := "doc-2"; addedTime := "2024-01-01T00:00:01.000Z" |};
    {| path := "uploads/3-logo.png"; originalname := "logo.png";
       drawnId := "doc-3"; addedTime := "2024-01-01T00:00:02.000Z" |} ].

(** The extension of a name without directories: from the last dot on, none
    when there is no dot or only a leading one. *)
Fixpoint lastDot (s : string) : option string :=
  match s with
  | EmptyString => None
  | String c s' =>
      match lastDot s' with
      | Some ext => Some ext
      | None => if Ascii.eqb c "." then Some (String c s') else None
      end
  end.

Definition sampleExtname (name : string) : string :=
  match name with
  | EmptyString => ""
  | String _ rest => match lastDot rest with Some ext => ext | None => "" end
  end.

Definition sampleDisk (filePath : string) : string + string :=
  if String.eqb filePath "uploads/1-cats.txt" then inl "cats purr"
  else inr "ENOENT: no such file or directory".

Definition noText (filePath : string) : string + string :=
  inr "not a document".

Definition noWorkbook (filePath : string) : list (string * string) + string :=
  inr "not a workbook".

Definition alwaysUnlinks (filePath : string) : option string := None.

(** A page whose [main] element holds two paragraphs. *)
Definition samplePage : Page :=
  {| select := fun selector =>
       if String.eqb selector "main"
       then Some (String nl ("  Cats purr." ++ String nl (String nl "   Dogs bark.  ")))
       else None;
     bodyText := "menu Cats purr. Dogs bark. footer";
     titleText := "" |}.

Definition sampleWeb (address : string) : Page + string :=
  if String.eqb address "https://example.org/pets" then inl samplePage
  else inr "getaddrinfo ENOTFOUND".

(** ** Documents present at one time *)

(** The document ids that the server drew for the uploads, in order. *)
Definition drawn (acts : list action) : list string :=
  flat_map (fun a => match a with
                     | Upload d _ _ _ => [d]
                     | _ => []
                     end) acts.

(** No two documents of the registry have the same name. *)
Definition distinctNames (this : VectorStore) : Prop :=
  forall d1 d2 info1 info2,
    documents this !! d1 = Some info1 -> documents this !! d2 = Some info2 ->
    name info1 = name info2 -> d1 = d2.

(** What uploads under fresh document ids keep true: the registered ids
    have been drawn, the id of every chunk is made of the name of its
    registered document and a number, and no document has two chunks of one
    id. *)
Definition registered (ids : list string) (store : VectorStore) : Prop :=
  (forall d, is_Some (documents store !! d) -> In d ids)
  /\ (forall chunk, In chunk (chunks store) ->
        exists info i,
          documents store !! docId chunk = Some info
          /\ id (raw chunk) = name info ++ "-chunk-" ++ decimal i)
  /\ List.NoDup (map (fun chunk => (docId chunk, id (raw chunk))) (chunks store)).

(** One name uploaded, deleted and uploaded again. *)
Definition uploadedAgain : list action :=
  [ Upload "doc-1" catsFile "cats purr" "2024-01-01T00:00:00.000Z";
    Delete "doc-1";
    Upload "doc-2" catsFile "cats purr" "2024-01-02T00:00:00.000Z" ].

(** ** The size of a chunk *)

(** The chunk before chunk [i], none for the first. *)
Definition previousOf (l : list RawChunk) (i : nat) : option RawChunk :=
  match i with
  | O => None
  | S j => nth_error l j
  end.

(** A chunk made of one sentence and of what was carried over: nothing for
    the first chunk, otherwise the last words of the buffer that became the
    chunk before it. *)
Definition carriesOne (this : DocumentProcessor) (sentences : list string)
           (previous : option RawChunk) (chunk : RawChunk) : Prop :=
  exists sentence,
    In sentence sentences
    /\ match previous with
       | None => content chunk = sentence
       | Some before =>
           exists buffer,
             content before = JS.trim buffer
             /\ content chunk = JS.trim (overlapSeed this buffer ++ sentence ++ " ")
       end.

(** Every chunk is within the chunk size, or is one sentence with what was
    carried over. *)
Definition sized (this : DocumentProcessor) (sentences : list string)
           (l : list RawChunk) : Prop :=
  forall i chunk, nth_error l i = Some chunk ->
    (String.length (content chunk) <= chunkSize this)%nat
    \/ carriesOne this sentences (previousOf l i) chunk.

(** What the buffer of the chunker holds between two sentences: nothing,
    before the first sentence; or text that fits, with the space after its
    last sentence; or the carried-over words and one sentence. *)
Definition buffered (this : DocumentProcessor) (sentences : list string)
           (st : chunkerState) : Prop :=
  (currentChunk st = "" /\ chunks_acc st = [])
  \/ (exists body, currentChunk st = body ++ " "
                   /\ (String.length body <= chunkSize this)%nat)
  \/ (exists sentence,
        In sentence sentences
        /\ ((chunks_acc st = [] /\ currentChunk st = sentence ++ " ")
            \/ exists front before buffer,
                 chunks_acc st = (front ++ [before])%list
                 /\ content before = JS.trim buffer
                 /\ currentChunk st = overlapSeed this buffer ++ sentence ++ " ")).

Definition measured (this : DocumentProcessor) (sentences : list string)
           (st : chunkerState) : Prop :=
  currentLength st = String.length (currentChunk st)
  /\ sized this sentences (chunks_acc st)
  /\ buffered this sentences st.

(** ** Doubles *)

(** The order of the numbers that are not [NaN], through a key in three
    integers, compared from left to right. *)
Definition orderKey (x : spec_float) : Z * Z * Z :=
  match x with
  | S754_infinity true => (-2, 0, 0)
  | S754_finite true m e => (-1, - e, - Zpos m)
  | S754_zero _ => (0, 0, 0)
  | S754_nan => (0, 0, 0)
  | S754_finite false m e => (1, e, Zpos m)
  | S754_infinity false => (2, 0, 0)
  end%Z.

Definition keyBelow (k k' : Z * Z * Z) : Prop :=
  let '(a, b, c) := k in
  let '(a', b', c') := k' in
  (a < a' \/ (a = a' /\ (b < b' \/ (b = b' /\ c < c'))))%Z.

(** The key of a number of the kernel. *)
Definition keyOf (x : float) : Z * Z * Z := orderKey (Prim2SF x).

(** The boost as the loop builds it: 0.05 added to 0 once per word found,
    each sum rounded, then 0.1 added for the phrase. *)
Definition boostOf (found : nat) (phrase : bool) : float :=
  let words := Nat.iter found (fun phraseBoost => (phraseBoost + 0.05)%float) 0%float in
  if phrase then (words + 0.1)%float else words.

(** The phrase made of the first two query keywords occurs in the content. *)
Definition phraseFound (queryKeywords : list string) (contentLower : string) : bool :=
  match queryKeywords with
  | k1 :: k2 :: _ => JS.includes contentLower (k1 ++ " " ++ k2)
  | _ => false
  end.

(** No score is [NaN]. *)
Definition comparable (hits : list Doubles.Hit) : Prop :=
  Forall (fun hit => PrimFloat.is_nan (Doubles.score hit) = false) hits.

(** The chunks that [addDocument] stores for the sources of [uploads], each
    under its document id. *)
Definition indexed (embedder : string -> list float)
           (uploads : list (string * SourceMeta * string)) : list Doubles.Chunk :=
  flat_map (fun '(d, md, text) =>
              map (Doubles.processChunk embedder d)
                  (createChunks defaultProcessor md text))
           uploads.

(** An embedder that sends the query about the Greek letters and every other
    text to orthogonal unit vectors. *)
Definition greekEmbedder (text : string) : list float :=
  if String.eqb text "alpha beta gamma delta epsilon" then [1; 0]%float
  else [0; 1]%float.

Definition greekIndex : list Doubles.Chunk :=
  indexed greekEmbedder
    [ ("doc-1", catsFile, "alphas betas gammas");
      ("doc-2", notesFile, "alpha epsilons") ].

(** An embedder for a query without keywords and two chunks whose embeddings
    point in nearly the same direction. *)
Definition nearEmbedder (text : string) : list float :=
  if String.eqb text "is it" then [1; 0]%float
  else if String.eqb text "first" then [1.8; 0.9]%float
  else [0.2; 0.1]%float.

Definition nearIndex : list Doubles.Chunk :=
  indexed nearEmbedder
    [ ("doc-1", catsFile, "first"); ("doc-2", notesFile, "second") ].

(** * Properties *)

(** ** The stable sort *)

Section SortFacts.
Context {A : Type} (after : A -> A -> bool).

Lemma insert_Permutation (x : A) (l : list A) :
  Permutation (JS.insert after x l) (x :: l).
Proof.
  induction l as [|y l IH]; simpl; [reflexivity|].
  destruct (after x y); [|reflexivity].
  rewrite IH. apply perm_swap.
Qed.

Lemma sort_Permutation (l : list A) : Permutation (JS.sort after l) l.
Proof.
  induction l as [|x l IH]; simpl; [constructor|].
  rewrite insert_Permutation. now constructor.
Qed.

(** Elements that the comparator leaves unordered among themselves come
    out in the order in which they went in. *)
Lemma insert_filter (P : A -> bool) (x : A) (l : list A) :
  (forall a b, P a = true -> P b = true -> after a b = false) ->
  List.filter P (JS.insert after x l) = List.filter P (x :: l).
Proof.
  intros HP. induction l as [|y l IH]; [reflexivity|].
  simpl. destruct (after x y) eqn:Hxy; [|reflexivity].
  simpl in *. rewrite IH.
  destruct (P x) eqn:Px, (P y) eqn:Py; try reflexivity.
  rewrite (HP x y Px Py) in Hxy. discriminate.
Qed.

Lemma sort_stable (P : A -> bool) (l : list A) :
  (forall a b, P a = true -> P b = true -> after a b = false) ->
  List.filter P (JS.sort after l) = List.filter P l.
Proof.
  intros HP. induction l as [|x l IH]; [reflexivity|].
  simpl. rewrite (insert_filter P x _ HP). simpl. now rewrite IH.
Qed.

Section Ordered.
Hypothesis after_asym : forall x y, after x y = true -> after y x = false.
Hypothesis after_chain :
  forall x y z, after x y = false -> after y z = false -> after x z = false.

Lemma insert_sorted (x : A) (l : list A) :
  StronglySorted (mayPrecede after) l -> StronglySorted (mayPrecede after) (JS.insert after x l).
Proof.
  induction 1 as [|y l Hl IH Hy]; simpl.
  - repeat constructor.
  - destruct (after x y) eqn:Hxy.
    + constructor; [exact IH|].
      eapply Permutation_Forall; [symmetry; apply insert_Permutation|].
      constructor; [now apply after_asym | exact Hy].
    + constructor; [now constructor|].
      constructor; [exact Hxy|].
      eapply Forall_impl; [exact Hy|].
      intros z Hz. unfold mayPrecede in *. now apply (after_chain x y z).
Qed.

Lemma sort_sorted (l : list A) : StronglySorted (mayPrecede after) (JS.sort after l).
Proof.
  induction l as [|x l IH]; simpl; [constructor|].
  now apply insert_sorted.
Qed.
End Ordered.
End SortFacts.

Lemma StronglySorted_weaken {A : Type} (R S : A -> A -> Prop) (l : list A) :
  (forall a b, R a b -> S a b) -> StronglySorted R l -> StronglySorted S l.
Proof.
  intros HRS. induction 1 as [|x l Hl IH Hx]; constructor; [exact IH|].
  eapply Forall_impl; [exact Hx|]. intros y. apply HRS.
Qed.

(** ** Hybrid scoring *)

Lemma scoresLess_lt (a b : Hit) : scoresLess a b = true <-> (score a < score b)%Q.
Proof.
  unfold scoresLess. rewrite Qlt_alt.
  destruct (score a ?= score b)%Q; split; congruence.
Qed.

Lemma scoresLess_ge (a b : Hit) : scoresLess a b = false <-> (score b <= score a)%Q.
Proof.
  rewrite <- not_true_iff_false, scoresLess_lt. split.
  - apply Qnot_lt_le.
  - apply Qle_not_lt.
Qed.

Lemma scoresLess_asym (a b : Hit) : scoresLess a b = true -> scoresLess b a = false.
Proof. rewrite scoresLess_lt, scoresLess_ge. apply Qlt_le_weak. Qed.

Lemma scoresLess_chain (a b c : Hit) :
  scoresLess a b = false -> scoresLess b c = false -> scoresLess a c = false.
Proof. rewrite !scoresLess_ge. intros H1 H2. now apply Qle_trans with (score b). Qed.

(** The loop over the important words adds 0.05 once per word found. *)
Lemma wordBoost_count (contentLower : string) (ws : list string) :
  (wordBoost contentLower ws
   == 0.05 * ofNat (length (List.filter (JS.includes contentLower) ws)))%Q.
Proof.
  unfold wordBoost.
  assert (G : forall acc,
    (fold_left (fun phraseBoost word =>
                  if JS.includes contentLower word then phraseBoost + 0.05
                  else phraseBoost) ws acc
     == acc + 0.05 * ofNat (length (List.filter (JS.includes contentLower) ws)))%Q).
  { induction ws as [|w ws IH]; intros acc; simpl.
    - unfold ofNat. simpl. ring.
    - rewrite IH. destruct (JS.includes contentLower w); simpl; [|reflexivity].
      unfold ofNat. rewrite Nat2Z.inj_succ, <- Z.add_1_r, inject_Z_plus. ring. }
  rewrite G. ring.
Qed.

Lemma phraseBoostOf_closed (queryKeywords : list string) (chunkContent : string) :
  (phraseBoostOf queryKeywords chunkContent
   == 0.05 * ofNat (length (List.filter (JS.includes (JS.toLowerCase chunkContent))
                                        (firstn 5 queryKeywords)))
      + phraseBonus queryKeywords (JS.toLowerCase chunkContent))%Q.
Proof.
  unfold phraseBoostOf, phraseBonus.
  destruct queryKeywords as [|k1 [|k2 rest]].
  - change (2 <=? length (firstn 5 (@nil string)))%nat with false. cbv iota zeta.
    rewrite wordBoost_count. ring.
  - change (2 <=? length (firstn 5 [k1]))%nat with false. cbv iota zeta.
    rewrite wordBoost_count. ring.
  - change (2 <=? length (firstn 5 (k1 :: k2 :: rest)))%nat with true.
    change (JS.join " " (firstn 2 (firstn 5 (k1 :: k2 :: rest))))
      with (k1 ++ " " ++ k2).
    cbv iota zeta.
    destruct (JS.includes (JS.toLowerCase chunkContent) (k1 ++ " " ++ k2));
      rewrite wordBoost_count; ring.
Qed.

(** ** Doubles: the sign of a difference, and the order *)

Section Rounding.
Variable prec emax : Z.
Hypothesis prec_pos : (0 < prec)%Z.

Lemma iter_pos_nat {A : Type} (f : A -> A) (p : positive) :
  forall x, @SpecFloat.iter_pos A f p x = Nat.iter (Pos.to_nat p) f x.
Proof.
  induction p as [p IH|p IH|]; intros x; cbn [SpecFloat.iter_pos].
  - rewrite !IH, Pos2Nat.inj_xI.
    replace (S (2 * Pos.to_nat p)) with (Pos.to_nat p + S (Pos.to_nat p))%nat by lia.
    rewrite Nat.iter_add, Nat.iter_succ_r. reflexivity.
  - rewrite !IH, Pos2Nat.inj_xO.
    replace (2 * Pos.to_nat p)%nat with (Pos.to_nat p + Pos.to_nat p)%nat by lia.
    now rewrite Nat.iter_add.
  - reflexivity.
Qed.

Lemma shr_keeps_digits (k : nat) :
  forall (m : positive) (r s : bool),
    (Z.of_nat k < Zpos (digits2_pos m))%Z ->
    exists m' r' s',
      Nat.iter k shr_1 {| shr_m := Zpos m; shr_r := r; shr_s := s |}
      = {| shr_m := Zpos m'; shr_r := r'; shr_s := s' |}
      /\ Zpos (digits2_pos m') = (Zpos (digits2_pos m) - Z.of_nat k)%Z.
Proof.
  induction k as [|k IH]; intros m r s Hk.
  - exists m, r, s. split; [reflexivity|]. lia.
  - destruct (IH m r s) as (m' & r' & s' & E & Hd); [lia|].
    rewrite Nat.iter_succ, E. cbn [shr_1 orb].
    destruct m' as [q|q|]; cbn [digits2_pos] in Hd.
    + exists q. eexists _, _. split; [reflexivity|]. lia.
    + exists q. eexists _, _. split; [reflexivity|]. lia.
    + lia.
Qed.

Lemma shr_record_of_loc_m (m : Z) (l : location) :
  exists r s, shr_record_of_loc m l = {| shr_m := m; shr_r := r; shr_s := s |}.
Proof. destruct l as [|[]]; eexists _, _; reflexivity. Qed.

Lemma shr_fexp_positive (m : positive) (e : Z) (l : location) :
  (SpecFloat.emin prec emax <= e)%Z ->
  exists m' r s e',
    shr_fexp prec emax (Zpos m) e l
    = ({| shr_m := Zpos m'; shr_r := r; shr_s := s |}, e')
    /\ (SpecFloat.emin prec emax <= e')%Z.
Proof.
  intros He. unfold shr_fexp, shr. cbn [Zdigits2].
  destruct (shr_record_of_loc_m (Zpos m) l) as (r & s & ->).
  destruct (SpecFloat.fexp prec emax (Zpos (digits2_pos m) + e) - e)%Z as [|p|p] eqn:En.
  - now exists m, r, s, e.
  - rewrite iter_pos_nat.
    destruct (shr_keeps_digits (Pos.to_nat p) m r s) as (m' & r' & s' & -> & _).
    + rewrite positive_nat_Z. unfold SpecFloat.fexp in En. lia.
    + exists m', r', s', (e + Zpos p)%Z. split; [reflexivity|]. lia.
  - now exists m, r, s, e.
Qed.

Lemma round_nearest_even_positive (m : positive) (l : location) :
  exists m', round_nearest_even (Zpos m) l = Zpos m'.
Proof.
  destruct l as [|[]]; cbn [round_nearest_even]; try (eexists; reflexivity).
  destruct (Z.even (Zpos m)); eexists; reflexivity.
Qed.

(** A positive mantissa is never rounded to zero. *)
Lemma binary_round_aux_positive (s : bool) (m : positive) (e : Z) (l : location) :
  (SpecFloat.emin prec emax <= e)%Z ->
  (exists m' e', binary_round_aux prec emax s (Zpos m) e l = S754_finite s m' e')
  \/ binary_round_aux prec emax s (Zpos m) e l = S754_infinity s.
Proof.
  intros He. unfold binary_round_aux.
  destruct (shr_fexp_positive m e l He) as (m1 & r1 & s1 & e1 & -> & He1).
  cbn [shr_m].
  destruct (round_nearest_even_positive m1
              (loc_of_shr_record {| shr_m := Zpos m1; shr_r := r1; shr_s := s1 |}))
    as [m2 ->].
  destruct (shr_fexp_positive m2 e1 loc_Exact He1) as (m3 & r3 & s3 & e3 & -> & _).
  cbn [shr_m]. destruct (e3 <=? emax - prec)%Z; [left; eauto | now right].
Qed.

Lemma binary_round_aux_sign (s : bool) (m e : Z) (l : location) :
  match binary_round_aux prec emax s m e l with
  | S754_zero s' | S754_infinity s' | S754_finite s' _ _ => s' = s
  | S754_nan => True
  end.
Proof.
  unfold binary_round_aux.
  destruct (shr_fexp prec emax m e l) as [mrs1 e1].
  destruct (shr_fexp prec emax _ e1 loc_Exact) as [mrs2 e2].
  destruct (shr_m mrs2); [reflexivity| |exact I].
  now destruct (e2 <=? emax - prec)%Z.
Qed.

Lemma shl_align_exponent (m : positive) (e e' : Z) :
  (SpecFloat.emin prec emax <= e)%Z -> (SpecFloat.emin prec emax <= e')%Z ->
  (SpecFloat.emin prec emax <= snd (shl_align m e e'))%Z.
Proof. intros He He'. unfold shl_align. now destruct (e' - e)%Z. Qed.

Lemma binary_round_positive (s : bool) (m : positive) (e : Z) :
  (SpecFloat.emin prec emax <= e)%Z ->
  (exists m' e', binary_round prec emax s m e = S754_finite s m' e')
  \/ binary_round prec emax s m e = S754_infinity s.
Proof.
  intros He. unfold binary_round.
  pose proof (shl_align_exponent m e (SpecFloat.fexp prec emax (Zpos (digits2_pos m) + e)) He)
    as Hz.
  destruct (shl_align m e (SpecFloat.fexp prec emax (Zpos (digits2_pos m) + e))) as [mz ez].
  apply binary_round_aux_positive. apply Hz. unfold SpecFloat.fexp. lia.
Qed.

(** The sign of a rounded integer. *)
Lemma binary_normalize_sign (D e : Z) :
  (SpecFloat.emin prec emax <= e)%Z ->
  SFltb (S754_zero false) (binary_normalize prec emax D e false) = (0 <? D)%Z.
Proof.
  intros He. destruct D as [|p|p]; cbn [binary_normalize].
  - reflexivity.
  - destruct (binary_round_positive false p e He) as [(m' & e' & ->) | ->];
      reflexivity.
  - unfold binary_round.
    destruct (shl_align p e _) as [mz ez].
    pose proof (binary_round_aux_sign true (Zpos mz) ez loc_Exact) as H.
    destruct (binary_round_aux prec emax true (Zpos mz) ez loc_Exact);
      try subst; reflexivity.
Qed.

Lemma digits2_pos_bounds (m : positive) :
  (2 ^ (Zpos (digits2_pos m) - 1) <= Zpos m < 2 ^ Zpos (digits2_pos m))%Z.
Proof.
  induction m as [p IH|p IH|]; cbn [digits2_pos].
  - rewrite Pos2Z.inj_succ.
    replace (Z.succ (Zpos (digits2_pos p)) - 1)%Z
      with (Z.succ (Zpos (digits2_pos p) - 1)) by lia.
    rewrite !Z.pow_succ_r by lia. lia.
  - rewrite Pos2Z.inj_succ.
    replace (Z.succ (Zpos (digits2_pos p)) - 1)%Z
      with (Z.succ (Zpos (digits2_pos p) - 1)) by lia.
    rewrite !Z.pow_succ_r by lia. lia.
  - cbn. lia.
Qed.

Lemma iter_xO_value (d m : positive) :
  Zpos (Pos.iter xO m d) = (Zpos m * 2 ^ Zpos d)%Z.
Proof.
  induction d as [|d IH] using Pos.peano_ind.
  - cbn. lia.
  - rewrite Pos.iter_succ, Pos2Z.inj_xO, IH, Pos2Z.inj_succ, Z.pow_succ_r by lia.
    lia.
Qed.

Lemma shl_align_value (m : positive) (e ez : Z) :
  (ez <= e)%Z -> Zpos (fst (shl_align m e ez)) = (Zpos m * 2 ^ (e - ez))%Z.
Proof.
  intros H. unfold shl_align. destruct (ez - e)%Z as [|d|d] eqn:E.
  - replace (e - ez)%Z with 0%Z by lia. cbn [fst]. lia.
  - lia.
  - cbn [fst]. rewrite iter_xO_value. f_equal. f_equal. lia.
Qed.

(** What a valid mantissa and exponent satisfy. *)
Lemma bounded_spec (m : positive) (e : Z) :
  bounded prec emax m e = true ->
  (SpecFloat.emin prec emax <= e)%Z
  /\ (Zpos (digits2_pos m) <= prec)%Z
  /\ ((SpecFloat.emin prec emax < e)%Z -> Zpos (digits2_pos m) = prec).
Proof.
  unfold bounded, canonical_mantissa, SpecFloat.fexp. intros H.
  apply andb_prop in H as [H _]. apply Z.eqb_eq in H. lia.
Qed.

(** Valid numbers of larger exponent are larger. *)
Lemma larger_exponent (m1 m2 : positive) (e1 e2 : Z) :
  bounded prec emax m1 e1 = true -> bounded prec emax m2 e2 = true ->
  (e1 < e2)%Z -> (Zpos m1 < Zpos m2 * 2 ^ (e2 - e1))%Z.
Proof.
  intros H1 H2 He.
  destruct (bounded_spec m1 e1 H1) as (Hmin & Hd1 & _).
  destruct (bounded_spec m2 e2 H2) as (_ & _ & Hd2).
  specialize (Hd2 ltac:(lia)).
  pose proof (digits2_pos_bounds m1) as B1. pose proof (digits2_pos_bounds m2) as B2.
  rewrite Hd2 in B2.
  assert (P1 : (2 ^ Zpos (digits2_pos m1) <= 2 ^ prec)%Z)
    by (apply Z.pow_le_mono_r; lia).
  assert (P2 : (2 ^ prec = 2 * 2 ^ (prec - 1))%Z).
  { replace prec with (Z.succ (prec - 1)) at 1 by lia.
    apply Z.pow_succ_r. lia. }
  assert (P3 : (2 ^ 1 <= 2 ^ (e2 - e1))%Z) by (apply Z.pow_le_mono_r; lia).
  change (2 ^ 1)%Z with 2%Z in P3. nia.
Qed.

Lemma SFsub_sign (x y : spec_float) :
  SpecFloat.valid_binary prec emax x = true ->
  SpecFloat.valid_binary prec emax y = true ->
  SFltb (S754_zero false) (SFsub prec emax y x) = SFltb x y.
Proof.
  destruct x as [sx|sx| |sx mx ex], y as [sy|sy| |sy my ey]; intros Hx Hy;
    try (destruct sx; reflexivity); try (destruct sy; reflexivity);
    try (destruct sx, sy; reflexivity); try reflexivity.
  cbn [SpecFloat.valid_binary] in Hx, Hy. cbn [SFsub].
  destruct (bounded_spec mx ex Hx) as (Hex & _). destruct (bounded_spec my ey Hy) as (Hey & _).
  rewrite binary_normalize_sign by lia.
  rewrite !shl_align_value by lia.
  unfold SFltb, SFcompare.
  destruct (Z.compare_spec ex ey) as [E|E|E].
  - subst ey. rewrite Z.min_id, Z.sub_diag. cbn [Z.pow].
    fold (Pos.compare mx my). destruct (Pos.compare_spec mx my) as [Em|Em|Em];
      destruct sx, sy; cbn [cond_Zopp CompOpp]; lia.
  - pose proof (larger_exponent mx my ex ey Hx Hy E) as Hl.
    replace (Z.min ey ex) with ex by lia. rewrite Z.sub_diag. cbn [Z.pow].
    destruct sx, sy; cbn [cond_Zopp]; lia.
  - pose proof (larger_exponent my mx ey ex Hy Hx E) as Hl.
    replace (Z.min ey ex) with ey by lia. rewrite Z.sub_diag. cbn [Z.pow].
    destruct sx, sy; cbn [cond_Zopp]; lia.
Qed.
End Rounding.

Lemma SFltb_orderKey (x y : spec_float) :
  x <> S754_nan -> y <> S754_nan ->
  (SFltb x y = true <-> keyBelow (orderKey x) (orderKey y)).
Proof.
  intros Hx Hy. unfold SFltb, SFcompare, keyBelow, orderKey.
  destruct x as [sx|sx| |sx mx ex], y as [sy|sy| |sy my ey]; try congruence;
    try (destruct sx; split; intros H; try discriminate H; lia);
    try (destruct sy; split; intros H; try discriminate H; lia);
    try (destruct sx, sy; split; intros H; try discriminate H; lia).
  fold (Pos.compare mx my).
  destruct sx, sy; try (split; intros H; try discriminate H; lia);
    destruct (Z.compare_spec ex ey) as [E|E|E];
    destruct (Pos.compare_spec mx my) as [Em|Em|Em];
    cbn [CompOpp]; split; intros H; try discriminate H; try reflexivity; lia.
Qed.

Lemma SFleb_orderKey (x y : spec_float) :
  x <> S754_nan -> y <> S754_nan ->
  (SFleb x y = true <-> ~ keyBelow (orderKey y) (orderKey x)).
Proof.
  intros Hx Hy. unfold SFleb, SFcompare, keyBelow, orderKey.
  destruct x as [sx|sx| |sx mx ex], y as [sy|sy| |sy my ey]; try congruence;
    try (destruct sx; split; intros H; try discriminate H; try reflexivity; lia);
    try (destruct sy; split; intros H; try discriminate H; try reflexivity; lia);
    try (destruct sx, sy; split; intros H; try discriminate H; try reflexivity; lia).
  fold (Pos.compare mx my).
  destruct sx, sy; try (split; intros H; try discriminate H; try reflexivity; lia);
    destruct (Z.compare_spec ex ey) as [E|E|E];
    destruct (Pos.compare_spec mx my) as [Em|Em|Em];
    cbn [CompOpp]; split; intros H; try discriminate H; try reflexivity; lia.
Qed.

Lemma SFeqb_orderKey (x y : spec_float) :
  x <> S754_nan -> y <> S754_nan ->
  (SFeqb x y = true <-> orderKey x = orderKey y).
Proof.
  intros Hx Hy. unfold SFeqb, SFcompare, orderKey.
  destruct x as [sx|sx| |sx mx ex], y as [sy|sy| |sy my ey]; try congruence;
    try (destruct sx; split; intros H; try discriminate H; reflexivity);
    try (destruct sy; split; intros H; try discriminate H; reflexivity);
    try (destruct sx, sy; split; intros H; try discriminate H; reflexivity).
  fold (Pos.compare mx my).
  destruct sx, sy; try (split; intros H; discriminate H);
    destruct (Z.compare_spec ex ey) as [E|E|E];
    destruct (Pos.compare_spec mx my) as [Em|Em|Em];
    cbn [CompOpp]; split; intros H; try discriminate H; try reflexivity;
    try (injection H; lia); subst; reflexivity.
Qed.

(** *** The same for the numbers of the kernel *)

Lemma is_nan_spec (x : float) :
  PrimFloat.is_nan x = true <-> Prim2SF x = S754_nan.
Proof.
  unfold PrimFloat.is_nan. rewrite FloatAxioms.eqb_spec.
  unfold SFeqb, SFcompare.
  destruct (Prim2SF x) as [s|s| |s m e].
  - split; intros H; discriminate H.
  - destruct s; split; intros H; discriminate H.
  - split; reflexivity.
  - fold (Pos.compare m m). rewrite Z.compare_refl, Pos.compare_refl.
    destruct s; split; intros H; discriminate H.
Qed.

Lemma not_nan_spec (x : float) :
  PrimFloat.is_nan x = false <-> Prim2SF x <> S754_nan.
Proof.
  rewrite <- is_nan_spec. destruct (PrimFloat.is_nan x); split; congruence.
Qed.

(** [b - a] is positive exactly when [a] is below [b]; with a [NaN], neither
    holds. *)
Lemma difference_positive (a b : float) :
  (0 <? b - a)%float = (a <? b)%float.
Proof.
  rewrite !ltb_spec, sub_spec.
  change (Prim2SF 0%float) with (S754_zero false).
  apply (SFsub_sign prec emax); [reflexivity | apply Prim2SF_valid..].
Qed.

Lemma ltb_keyOf (x y : float) :
  PrimFloat.is_nan x = false -> PrimFloat.is_nan y = false ->
  ((x <? y)%float = true <-> keyBelow (keyOf x) (keyOf y)).
Proof.
  intros Hx Hy. rewrite ltb_spec.
  apply SFltb_orderKey; now apply not_nan_spec.
Qed.

Lemma leb_keyOf (x y : float) :
  PrimFloat.is_nan x = false -> PrimFloat.is_nan y = false ->
  ((x <=? y)%float = true <-> ~ keyBelow (keyOf y) (keyOf x)).
Proof.
  intros Hx Hy. rewrite leb_spec.
  apply SFleb_orderKey; now apply not_nan_spec.
Qed.

Lemma eqb_keyOf (x y : float) :
  PrimFloat.is_nan x = false -> PrimFloat.is_nan y = false ->
  ((x =? y)%float = true <-> keyOf x = keyOf y).
Proof.
  intros Hx Hy. rewrite FloatAxioms.eqb_spec.
  apply SFeqb_orderKey; now apply not_nan_spec.
Qed.

Lemma eqb_not_nan (x y : float) :
  (x =? y)%float = true -> PrimFloat.is_nan x = false /\ PrimFloat.is_nan y = false.
Proof.
  rewrite FloatAxioms.eqb_spec, !not_nan_spec. unfold SFeqb, SFcompare.
  destruct (Prim2SF x), (Prim2SF y); intros H; try discriminate H; split; discriminate.
Qed.

(** ** Hybrid scoring in doubles *)

Section SortOn.
Context {A : Type} (after : A -> A -> bool) (P : A -> Prop).
Hypothesis after_asym : forall x y, P x -> P y -> after x y = true -> after y x = false.
Hypothesis after_chain :
  forall x y z, P x -> P y -> P z ->
    after x y = false -> after y z = false -> after x z = false.

Lemma insert_sorted_on (x : A) (l : list A) :
  P x -> Forall P l ->
  StronglySorted (mayPrecede after) l ->
  StronglySorted (mayPrecede after) (JS.insert after x l).
Proof.
  intros Hx HP. induction 1 as [|y l Hl IH Hy]; simpl.
  - repeat constructor.
  - inversion HP as [|? ? Py Pl]; subst.
    destruct (after x y) eqn:Hxy.
    + constructor; [now apply IH|].
      eapply Permutation_Forall; [symmetry; apply insert_Permutation|].
      constructor; [now apply after_asym | exact Hy].
    + constructor; [now constructor|].
      constructor; [exact Hxy|].
      rewrite List.Forall_forall in *. intros z Hz.
      unfold mayPrecede in *. apply (after_chain x y z); auto.
Qed.

Lemma sort_sorted_on (l : list A) :
  Forall P l -> StronglySorted (mayPrecede after) (JS.sort after l).
Proof.
  induction 1 as [|x l Hx Hl IH]; simpl; [constructor|].
  apply insert_sorted_on; [exact Hx | | exact IH].
  eapply Permutation_Forall; [symmetry; apply sort_Permutation | exact Hl].
Qed.
End SortOn.

Lemma StronglySorted_weaken_on {A : Type} (P : A -> Prop) (R S : A -> A -> Prop)
      (l : list A) :
  (forall a b, P a -> P b -> R a b -> S a b) ->
  Forall P l -> StronglySorted R l -> StronglySorted S l.
Proof.
  intros HRS HP. induction 1 as [|x l Hl IH Hx]; constructor;
    inversion HP as [|? ? Px Pl]; subst; [now apply IH|].
  rewrite List.Forall_forall in *. intros y Hy. apply HRS; auto.
Qed.

Lemma keyBelow_asym (k k' : Z * Z * Z) : keyBelow k k' -> ~ keyBelow k' k.
Proof. destruct k as [[a b] c], k' as [[a' b'] c']. unfold keyBelow. lia. Qed.

Lemma keyBelow_chain (k1 k2 k3 : Z * Z * Z) :
  ~ keyBelow k1 k2 -> ~ keyBelow k2 k3 -> ~ keyBelow k1 k3.
Proof.
  destruct k1 as [[a1 b1] c1], k2 as [[a2 b2] c2], k3 as [[a3 b3] c3].
  unfold keyBelow. lia.
Qed.

Lemma keyBelow_irrefl (k : Z * Z * Z) : ~ keyBelow k k.
Proof. destruct k as [[a b] c]. unfold keyBelow. lia. Qed.

(** The comparator of the sort orders the scores as [<] does. *)
Lemma scoresLess_ltb (a b : Doubles.Hit) :
  Doubles.scoresLess a b = (Doubles.score a <? Doubles.score b)%float.
Proof. apply difference_positive. Qed.

Lemma scoresLess_leb (a b : Doubles.Hit) :
  PrimFloat.is_nan (Doubles.score a) = false ->
  PrimFloat.is_nan (Doubles.score b) = false ->
  Doubles.scoresLess a b = false -> (Doubles.score b <=? Doubles.score a)%float = true.
Proof.
  intros Ha Hb. rewrite scoresLess_ltb, <- not_true_iff_false.
  rewrite (ltb_keyOf _ _ Ha Hb), (leb_keyOf _ _ Hb Ha). tauto.
Qed.

Lemma scoresLess_asym_on (a b : Doubles.Hit) :
  PrimFloat.is_nan (Doubles.score a) = false ->
  PrimFloat.is_nan (Doubles.score b) = false ->
  Doubles.scoresLess a b = true -> Doubles.scoresLess b a = false.
Proof.
  intros Ha Hb. rewrite <- not_true_iff_false, !scoresLess_ltb.
  rewrite (ltb_keyOf _ _ Ha Hb), (ltb_keyOf _ _ Hb Ha). apply keyBelow_asym.
Qed.

Lemma scoresLess_chain_on (a b c : Doubles.Hit) :
  PrimFloat.is_nan (Doubles.score a) = false ->
  PrimFloat.is_nan (Doubles.score b) = false ->
  PrimFloat.is_nan (Doubles.score c) = false ->
  Doubles.scoresLess a b = false -> Doubles.scoresLess b c = false ->
  Doubles.scoresLess a c = false.
Proof.
  intros Ha Hb Hc. rewrite <- !not_true_iff_false, !scoresLess_ltb.
  rewrite (ltb_keyOf _ _ Ha Hb), (ltb_keyOf _ _ Hb Hc), (ltb_keyOf _ _ Ha Hc).
  apply keyBelow_chain.
Qed.

Lemma scoresLess_equal (a b : Doubles.Hit) (v : float) :
  (Doubles.score a =? v)%float = true -> (Doubles.score b =? v)%float = true ->
  Doubles.scoresLess a b = false.
Proof.
  intros Ha Hb.
  destruct (eqb_not_nan _ _ Ha) as [Na Nv], (eqb_not_nan _ _ Hb) as [Nb _].
  apply (eqb_keyOf _ _ Na Nv) in Ha. apply (eqb_keyOf _ _ Nb Nv) in Hb.
  rewrite <- not_true_iff_false, scoresLess_ltb, (ltb_keyOf _ _ Na Nb), Ha, Hb.
  apply keyBelow_irrefl.
Qed.

(** The loop over the important words adds 0.05 once per word found. *)
Lemma wordBoost_iter (contentLower : string) (ws : list string) :
  Doubles.wordBoost contentLower ws
  = Nat.iter (length (List.filter (JS.includes contentLower) ws))
             (fun phraseBoost => (phraseBoost + 0.05)%float) 0%float.
Proof.
  unfold Doubles.wordBoost. generalize 0%float.
  induction ws as [|w ws IH]; intros acc; [reflexivity|].
  cbn [fold_left List.filter]. rewrite IH.
  destruct (JS.includes contentLower w); [|reflexivity].
  cbn [length]. now rewrite Nat.iter_succ_r.
Qed.

Lemma phraseBoostOf_boostOf (queryKeywords : list string) (chunkContent : string) :
  let contentLower := JS.toLowerCase chunkContent in
  Doubles.phraseBoostOf queryKeywords chunkContent
  = boostOf (length (List.filter (JS.includes contentLower) (firstn 5 queryKeywords)))
            (phraseFound queryKeywords contentLower).
Proof.
  cbv zeta. unfold Doubles.phraseBoostOf, boostOf, phraseFound.
  rewrite wordBoost_iter.
  destruct queryKeywords as [|k1 [|k2 rest]]; reflexivity.
Qed.

(** C1.  Hybrid search scores every indexed chunk, in doubles, as
    vector_score * 0.6 + keyword_score * 0.25 + min(phrase_boost, 0.15),
    the sums and products rounded one by one from left to right, where
    vector_score is the cosine of the query and chunk embeddings,
    keyword_score is the number of query keywords found in the chunk's keyword
    list over max(number of query keywords, 1), and phrase_boost is 0 to which
    0.05 is added for each of the first five query keywords contained in the
    lower-cased content, and then 0.10 when the phrase of the first two
    keywords is contained.  The result is the first k entries of a ranking
    that is a rearrangement of the scored chunks in which chunks of equal
    score keep their insertion order; the ranking is in descending order of
    score whenever no score is [NaN]. *)
Theorem hybridSearch_ranking
  (embedder : string -> list float) (chunks : list Doubles.Chunk)
  (query : string) (topK : nat) :
  let queryEmbedding := Doubles.generateEmbedding embedder query in
  let queryKeywords := extractKeywords query in
  let scored := map (Doubles.scoreChunk queryEmbedding queryKeywords) chunks in
  (forall chunk : Doubles.Chunk,
     let hit := Doubles.scoreChunk queryEmbedding queryKeywords chunk in
     let contentLower := JS.toLowerCase (content (Doubles.raw chunk)) in
     Doubles.vectorScore hit
     = Doubles.cosineSimilarity queryEmbedding (Doubles.embedding chunk)
     /\ Doubles.keywordScore hit
        = (Number.ofNat (length (List.filter (has (Doubles.keywords chunk)) queryKeywords))
           / Number.ofNat (Nat.max (length queryKeywords) 1))%float
     /\ Doubles.phraseBoost hit
        = boostOf (length (List.filter (JS.includes contentLower)
                                       (firstn 5 queryKeywords)))
                  (phraseFound queryKeywords contentLower)
     /\ Doubles.score hit
        = (Doubles.vectorScore hit * 0.6 + Doubles.keywordScore hit * 0.25
           + Number.Math_min (Doubles.phraseBoost hit) 0.15)%float
     /\ id (Doubles.hitChunk hit) = id (Doubles.raw chunk)
     /\ Doubles.hitDocId hit = Doubles.docId chunk)
  /\ exists ranked : list Doubles.Hit,
       Doubles.hybridSearch embedder chunks query topK = firstn topK ranked
       /\ Permutation ranked scored
       /\ (comparable scored ->
           StronglySorted
             (fun a b => (Doubles.score b <=? Doubles.score a)%float = true) ranked)
       /\ forall v : float,
            List.filter (fun h => (Doubles.score h =? v)%float) ranked
            = List.filter (fun h => (Doubles.score h =? v)%float) scored.
Proof.
  intros queryEmbedding queryKeywords scored. split.
  - intros chunk hit contentLower. subst hit.
    cbn [Doubles.scoreChunk Doubles.vectorScore Doubles.keywordScore
         Doubles.phraseBoost Doubles.score Doubles.hitChunk Doubles.hitDocId].
    split; [reflexivity|]. split; [reflexivity|].
    split; [apply phraseBoostOf_boostOf|].
    repeat split; reflexivity.
  - exists (JS.sort Doubles.scoresLess scored).
    split; [|split; [|split]].
    + subst scored queryEmbedding queryKeywords.
      unfold Doubles.hybridSearch, Doubles.scoreAll.
      destruct chunks as [|c cs]; [|reflexivity].
      simpl. now rewrite firstn_nil.
    + apply sort_Permutation.
    + intros Hc.
      assert (Hr : comparable (JS.sort Doubles.scoresLess scored)).
      { eapply Permutation_Forall; [symmetry; apply sort_Permutation | exact Hc]. }
      apply (StronglySorted_weaken_on
               (fun hit => PrimFloat.is_nan (Doubles.score hit) = false)
               (mayPrecede Doubles.scoresLess)); [| exact Hr |].
      * intros a b Ha Hb Hab. now apply scoresLess_leb.
      * apply (sort_sorted_on Doubles.scoresLess
                 (fun hit => PrimFloat.is_nan (Doubles.score hit) = false));
          [apply scoresLess_asym_on | apply scoresLess_chain_on | exact Hc].
    + intros v. apply sort_stable. intros a b. apply scoresLess_equal.
Qed.

Lemma ofNat_nonneg (n : nat) : (0 <= ofNat n)%Q.
Proof.
  unfold ofNat. change 0%Q with (inject_Z 0). rewrite <- Zle_Qle. lia.
Qed.

Lemma ofNat_le (n m : nat) : (n <= m)%nat -> (ofNat n <= ofNat m)%Q.
Proof. intros H. unfold ofNat. rewrite <- Zle_Qle. lia. Qed.

Lemma ofNat_pos (n : nat) : (0 < n)%nat -> (0 < ofNat n)%Q.
Proof.
  intros H. unfold ofNat. change 0%Q with (inject_Z 0). rewrite <- Zlt_Qlt. lia.
Qed.

Lemma In_firstn {A : Type} (n : nat) (x : A) (l : list A) :
  In x (firstn n l) -> In x l.
Proof.
  revert l. induction n as [|n IH]; intros [|y l]; simpl; try tauto.
  intros [H|H]; [now left | right; now apply IH].
Qed.

Lemma filter_length_le {A : Type} (f : A -> bool) (l : list A) :
  (length (List.filter f l) <= length l)%nat.
Proof.
  induction l as [|x l IH]; simpl; [lia|]. destruct (f x); simpl; lia.
Qed.

Lemma keywordMatch_bounds (queryKeywords chunkKeywords : list string) :
  (0 <= keywordMatch queryKeywords chunkKeywords <= 1)%Q.
Proof.
  unfold keywordMatch.
  set (m := length (List.filter _ queryKeywords)).
  set (d := Nat.max (length queryKeywords) 1).
  assert (Hm : (m <= d)%nat).
  { subst m d. etransitivity; [apply filter_length_le|]. lia. }
  assert (Hd : (0 < ofNat d)%Q) by (apply ofNat_pos; subst d; lia).
  split.
  - apply Qle_shift_div_l; [exact Hd|]. rewrite Qmult_0_l. apply ofNat_nonneg.
  - apply Qle_shift_div_r; [exact Hd|]. rewrite Qmult_1_l. now apply ofNat_le.
Qed.

Lemma phraseBonus_bounds (queryKeywords : list string) (contentLower : string) :
  (0 <= phraseBonus queryKeywords contentLower <= 0.1)%Q.
Proof.
  unfold phraseBonus. destruct queryKeywords as [|k1 [|k2 rest]];
    try destruct (JS.includes _ _); split; discriminate.
Qed.

Lemma phraseBoostOf_bounds (queryKeywords : list string) (chunkContent : string) :
  (0 <= phraseBoostOf queryKeywords chunkContent <= 0.35)%Q.
Proof.
  rewrite phraseBoostOf_closed.
  set (n := length (List.filter _ (firstn 5 queryKeywords))).
  assert (Hn : (n <= 5)%nat).
  { subst n. etransitivity; [apply filter_length_le|]. rewrite length_firstn. lia. }
  pose proof (ofNat_nonneg n) as H0.
  pose proof (ofNat_le n 5 Hn) as H5.
  change (ofNat 5) with 5%Q in H5.
  pose proof (phraseBonus_bounds queryKeywords (JS.toLowerCase chunkContent)) as [Hb0 Hb1].
  split; lra.
Qed.

Lemma clamp_bounds (x : Q) : (0 <= x)%Q -> (0 <= Qmin x 0.15 <= 0.15)%Q.
Proof.
  intros Hx. split.
  - apply Q.min_glb; [exact Hx|discriminate].
  - apply Q.le_min_r.
Qed.

(** C4 (amended).  Every scored chunk that hybrid search returns has
    keyword_score in [0, 1]; its phrase_boost field is the boost before
    clamping and lies in [0, 0.35], the part of it that enters the score lies
    in [0, 0.15]; and when its vector_score lies in [-1, 1] its score lies in
    [-0.6, 1]. *)
Theorem hybridSearch_bounds
  (embedder : string -> list Q) (Math_sqrt : Q -> Q)
  (query : string) (topK : nat) (store : VectorStore) (hit : Hit) :
  In hit (hybridSearch embedder Math_sqrt query topK store) ->
  (0 <= keywordScore hit <= 1)%Q
  /\ (0 <= phraseBoost hit <= 0.35)%Q
  /\ (0 <= Qmin (phraseBoost hit) 0.15 <= 0.15)%Q
  /\ ((-1 <= vectorScore hit <= 1)%Q -> (-0.6 <= score hit <= 1)%Q).
Proof.
  intros Hin.
  assert (Hsc : exists chunk,
    hit = scoreChunk Math_sqrt (generateEmbedding embedder query)
                     (extractKeywords query) chunk).
  { unfold hybridSearch, scoreAll in Hin.
    destruct (length (chunks store) =? 0)%nat; [destruct Hin|].
    apply (In_firstn topK) in Hin.
    eapply Permutation_in in Hin; [|apply sort_Permutation].
    apply in_map_iff in Hin as (chunk & Hc & _). exists chunk. now symmetry. }
  destruct Hsc as [chunk ->].
  cbn [scoreChunk vectorScore keywordScore phraseBoost score].
  pose proof (keywordMatch_bounds (extractKeywords query) (keywords chunk)) as Hk.
  pose proof (phraseBoostOf_bounds (extractKeywords query) (content (raw chunk))) as Hp.
  pose proof (clamp_bounds _ (proj1 Hp)) as Hc.
  repeat (split; [tauto|]). intros Hv. split; lra.
Qed.

(** C4 fails as stated: a chunk whose text is the query has vector_score 1,
    keyword_score 1 and phrase_boost 0.2, so its score is 1, above 0.85, and
    its phrase_boost field is above 0.15. *)
Lemma hybridSearch_bounds_counterexample :
  hybridSearch unitEmbedder exactRoot "cats purr" 8 catsStore = [catsHit]
  /\ (vectorScore catsHit == 1)%Q
  /\ (keywordScore catsHit == 1)%Q
  /\ (phraseBoost catsHit == 0.2)%Q
  /\ (score catsHit == 1)%Q
  /\ ~ (score catsHit <= 0.85)%Q
  /\ ~ (phraseBoost catsHit <= 0.15)%Q.
Proof.
  split; [vm_compute; reflexivity|].
  repeat split; try (vm_compute; reflexivity);
    intros H; vm_compute in H; now apply H.
Qed.

Lemma hybridSearch_bounds_witness :
  In catsHit (hybridSearch unitEmbedder exactRoot "cats purr" 8 catsStore)
  /\ (-1 <= vectorScore catsHit <= 1)%Q
  /\ (0 <= keywordScore catsHit <= 1)%Q
  /\ (0 <= phraseBoost catsHit <= 0.35)%Q
  /\ (0 <= Qmin (phraseBoost catsHit) 0.15 <= 0.15)%Q
  /\ (-0.6 <= score catsHit <= 1)%Q.
Proof.
  assert (Hin : In catsHit (hybridSearch unitEmbedder exactRoot "cats purr" 8 catsStore)).
  { vm_compute. left. reflexivity. }
  assert (Hv : (-1 <= vectorScore catsHit <= 1)%Q).
  { split; vm_compute; discriminate. }
  destruct (hybridSearch_bounds unitEmbedder exactRoot "cats purr" 8 catsStore
              catsHit Hin) as (Hk & Hp & Hc & Hs).
  repeat (split; [assumption|]). exact (Hs Hv).
Defined.

(** ** The index and the registry *)

Section StoreFacts.
Variable embedder : string -> list Q.

Lemma zip_with_embeddings (d : string) (batch : list RawChunk) :
  zip_with (processChunk d) batch
    (generateEmbeddingsBatch embedder (map content batch))
  = map (embedChunk embedder d) batch.
Proof.
  unfold generateEmbeddingsBatch.
  induction batch as [|c batch IH]; simpl; [reflexivity|]. now rewrite IH.
Qed.

(** The batched loop processes every chunk once, in order. *)
Lemma processBatches_map (d : string) (input : list RawChunk) :
  forall (turns i : nat) (processed : list Chunk),
    (length input - i <= turns)%nat ->
    processBatches embedder turns d input i processed
    = (processed ++ map (embedChunk embedder d) (skipn i input))%list.
Proof.
  induction turns as [|turns IH]; intros i processed Hturns; simpl.
  - rewrite skipn_all2 by lia. simpl. now rewrite app_nil_r.
  - destruct (i <? length input)%nat eqn:Hi.
    + apply Nat.ltb_lt in Hi.
      rewrite IH by (unfold batchSize; lia).
      rewrite zip_with_embeddings, <- app_assoc, <- map_app.
      do 2 f_equal.
      rewrite <- (firstn_skipn batchSize (skipn i input)) at 2.
      f_equal. rewrite skipn_skipn. f_equal. lia.
    + apply Nat.ltb_ge in Hi. rewrite skipn_all2 by lia.
      simpl. now rewrite app_nil_r.
Qed.

Lemma addDocument_chunks d nm input now this :
  chunks (addDocument embedder d nm input now this)
  = (chunks this ++ map (embedChunk embedder d) input)%list.
Proof.
  unfold addDocument. cbn [chunks].
  now rewrite processBatches_map by lia.
Qed.

Lemma addDocument_documents d nm input now this :
  documents (addDocument embedder d nm input now this)
  = <[ d := {| doc_id := d; name := nm; chunkCount := length input;
               addedAt := now |} ]> (documents this).
Proof.
  unfold addDocument. cbn [documents].
  rewrite processBatches_map by lia. simpl. now rewrite length_map.
Qed.

Lemma ownedBy_embedChunk d d' chunk :
  ownedBy d' (embedChunk embedder d chunk) = String.eqb d d'.
Proof. reflexivity. Qed.

Lemma filter_ownedBy_added d d' input :
  List.filter (ownedBy d') (map (embedChunk embedder d) input)
  = if String.eqb d d' then map (embedChunk embedder d) input else [].
Proof.
  induction input as [|c input IH]; simpl.
  - now destruct (String.eqb d d').
  - rewrite ownedBy_embedChunk, IH. now destruct (String.eqb d d').
Qed.

Lemma filter_filter_other d d' (l : list Chunk) :
  d <> d' ->
  List.filter (ownedBy d')
    (List.filter (fun chunk => negb (String.eqb (docId chunk) d)) l)
  = List.filter (ownedBy d') l.
Proof.
  intros Hne. induction l as [|c l IH]; simpl; [reflexivity|].
  unfold ownedBy at 2. 
  destruct (String.eqb (docId c) d) eqn:E1; simpl.
  - apply String.eqb_eq in E1.
    destruct (String.eqb (docId c) d') eqn:E2; [|exact IH].
    apply String.eqb_eq in E2. congruence.
  - unfold ownedBy at 1. now rewrite IH.
Qed.

Lemma consistent_new : consistent newVectorStore.
Proof.
  split.
  - intros chunk [].
  - intros d info H. unfold newVectorStore in H. simpl in H.
    rewrite lookup_empty in H. discriminate.
Qed.

Lemma consistent_serve (this : VectorStore) (r : request) :
  consistent this -> consistent (serve embedder this r).
Proof.
  intros [Hc Hd]. destruct r as [d nm input now | d | ]; simpl.
  - split.
    + intros chunk. rewrite addDocument_chunks, addDocument_documents, in_app_iff.
      intros [Hin | Hin].
      * destruct (decide (d = docId chunk)) as [->|Hne].
        -- rewrite lookup_insert_eq. eauto.
        -- rewrite lookup_insert_ne by exact Hne. now apply Hc.
      * apply in_map_iff in Hin as (c & <- & _). simpl.
        rewrite lookup_insert_eq. eauto.
    + intros d' info. rewrite addDocument_chunks, addDocument_documents.
      rewrite List.filter_app, length_app, filter_ownedBy_added.
      destruct (decide (d = d')) as [->|Hne].
      * rewrite lookup_insert_eq. intros [= <-]. simpl.
        rewrite String.eqb_refl, length_map. lia.
      * rewrite lookup_insert_ne by exact Hne. intros Hl.
        specialize (Hd d' info Hl). lia.
  - unfold removeDocument. destruct (documents this !! d) eqn:E; simpl.
    + unfold consistent. cbn [documents chunks]. split.
      * intros chunk Hin. apply filter_In in Hin as [Hin Hne].
        apply negb_true_iff, String.eqb_neq in Hne.
        rewrite lookup_delete_ne by congruence. now apply Hc.
      * intros d' info Hl.
        destruct (decide (d = d')) as [->|Hne].
        -- rewrite lookup_delete_eq in Hl. discriminate.
        -- rewrite lookup_delete_ne in Hl by exact Hne.
           rewrite filter_filter_other by exact Hne. now apply Hd.
    + now split.
  - apply consistent_new.
Qed.

Lemma consistent_serveAll (rs : list request) : consistent (serveAll embedder rs).
Proof.
  unfold serveAll. generalize consistent_new. generalize newVectorStore.
  induction rs as [|r rs IH]; intros this H; simpl; [exact H|].
  apply IH. now apply consistent_serve.
Qed.
End StoreFacts.

(** C7.  [remove(doc_id)] throws the unknown-document error exactly when
    [doc_id] is not in the registry, and then leaves the index and the
    registry as they were; otherwise no chunk of that document remains, the
    document is gone from the registry and the document count has gone down
    by exactly one. *)
Theorem removeDocument_spec (d : string) (this : VectorStore) :
  ((exists message, fst (removeDocument d this) = Threw message)
   <-> documents this !! d = None)
  /\ (documents this !! d = None ->
      removeDocument d this = (Threw "Document not found", this))
  /\ (is_Some (documents this !! d) ->
      let after := snd (removeDocument d this) in
      fst (removeDocument d this) = Returned
      /\ (forall chunk, In chunk (chunks after) -> docId chunk <> d)
      /\ documents after !! d = None
      /\ S (getDocumentCount after) = getDocumentCount this).
Proof.
  unfold removeDocument, getDocumentCount.
  destruct (documents this !! d) as [info|] eqn:E; cbn [fst snd].
  - split; [|split].
    + split; [intros [message H]; discriminate | discriminate].
    + discriminate.
    + intros _. cbn [chunks documents]. split; [reflexivity|]. split; [|split].
      * intros chunk Hin Heq. apply filter_In in Hin as [_ Hne].
        rewrite Heq, String.eqb_refl in Hne. discriminate.
      * apply lookup_delete_eq.
      * rewrite (map_size_delete_Some d (documents this)) by eauto.
        assert (size (documents this) <> 0)%nat; [|lia].
        apply map_size_non_empty_iff. intros Hempty.
        rewrite Hempty, lookup_empty in E. discriminate.
  - split; [|split].
    + split; [reflexivity | eauto].
    + reflexivity.
    + intros [x Hx]. discriminate.
Qed.

(** C8 (amended).  In every state reached by add, remove and clear requests,
    every chunk of the index has its owning document in the registry, and
    every registered document owns at least as many chunks as its entry
    counts, hence at least one unless it was added with an empty chunk
    list. *)
Theorem registry_index_consistent
  (embedder : string -> list Q) (rs : list request) :
  let this := serveAll embedder rs in
  (forall chunk, In chunk (chunks this) -> is_Some (documents this !! docId chunk))
  /\ (forall d info, documents this !! d = Some info ->
        (chunkCount info <= length (List.filter (ownedBy d) (chunks this)))%nat)
  /\ (forall d info, documents this !! d = Some info ->
        (0 < chunkCount info)%nat ->
        exists chunk, In chunk (chunks this) /\ docId chunk = d).
Proof.
  intros this. destruct (consistent_serveAll embedder rs) as [Hc Hd].
  fold this in Hc, Hd. split; [exact Hc|]. split; [exact Hd|].
  intros d info Hl Hpos. specialize (Hd d info Hl).
  destruct (List.filter (ownedBy d) (chunks this)) as [|chunk rest] eqn:E.
  - simpl in Hd. lia.
  - assert (Hin : In chunk (List.filter (ownedBy d) (chunks this))).
    { rewrite E. now left. }
    apply filter_In in Hin as [Hin Hown].
    exists chunk. split; [exact Hin|]. now apply String.eqb_eq.
Qed.

(** C8 fails as stated: after the upload of an empty file the registry holds
    the document and the index holds no chunk of it. *)
Lemma registry_index_counterexample :
  let this := serveAll unitEmbedder emptyUpload in
  is_Some (documents this !! "doc-1")
  /\ ~ exists chunk, In chunk (chunks this) /\ docId chunk = "doc-1".
Proof.
  change (createChunks defaultProcessor emptyFile "") with (@nil RawChunk).
  cbv zeta. unfold serveAll, emptyUpload. simpl fold_left.
  split.
  - rewrite addDocument_documents, lookup_insert_eq. eauto.
  - rewrite addDocument_chunks. simpl. intros (chunk & [] & _).
Qed.

(** C10.  [hasDocuments()] is true exactly when the chunk count is positive.
    After [addDocument] with an empty chunk list the registry holds the
    document with [chunkCount] 0 and the document count is positive, while
    [hasDocuments()] is what it was; on a store that was empty it is false,
    so the router sends an [auto] query to general handling and refuses a
    [rag] query. *)
Theorem hasDocuments_counts_chunks
  (embedder : string -> list Q) (Math_sqrt : Q -> Q)
  (provider : string -> option string -> list Message -> string) :
  (forall this, hasDocuments this = true <-> (0 < getChunkCount this)%nat)
  /\ (forall d nm now this,
        let after := addDocument embedder d nm [] now this in
        documents after !! d
          = Some {| doc_id := d; name := nm; chunkCount := 0; addedAt := now |}
        /\ (0 < getDocumentCount after)%nat
        /\ chunks after = chunks this
        /\ hasDocuments after = hasDocuments this)
  /\ (forall d nm now query h,
        let after := addDocument embedder d nm [] now newVectorStore in
        getDocumentCount after = 1%nat
        /\ hasDocuments after = false
        /\ route embedder Math_sqrt provider query "auto" h after
           = handleGeneralQuery provider query h
        /\ route embedder Math_sqrt provider query "rag" h after
           = ret {| answer := refusalAnswer; mode := "error"; sources := [];
                    retrievedCount := None; noRelevantResults := None |}).
Proof.
  split; [|split].
  - intros this. unfold hasDocuments, getChunkCount. apply Nat.ltb_lt.
  - intros d nm now this after. subst after.
    assert (Hch : chunks (addDocument embedder d nm [] now this) = chunks this).
    { rewrite addDocument_chunks. simpl. apply app_nil_r. }
    split; [|split; [|split]].
    + rewrite addDocument_documents. simpl. apply lookup_insert_eq.
    + unfold getDocumentCount. rewrite addDocument_documents.
      assert (size (<[d:={| doc_id := d; name := nm; chunkCount := length (@nil RawChunk);
                            addedAt := now |}]> (documents this)) <> 0)%nat; [|lia].
      apply map_size_non_empty_iff. apply insert_non_empty.
    + exact Hch.
    + unfold hasDocuments. now rewrite Hch.
  - intros d nm now query h after. subst after.
    split; [|split; [|split]]; try reflexivity.
    unfold getDocumentCount. rewrite addDocument_documents.
    simpl. rewrite map_size_insert_None by apply lookup_empty.
    now rewrite map_size_empty.
Qed.

(** ** The chat router *)

Lemma reaches_le (threshold : Q) (chunk : Hit) :
  reaches threshold chunk = true <-> (threshold <= score chunk)%Q.
Proof. apply Qle_bool_iff. Qed.

Section RouterFacts.
Variable embedder : string -> list Q.
Variable Math_sqrt : Q -> Q.
Variable provider : string -> option string -> list Message -> string.

Lemma autoDetectMode_cases (query : string) (store : VectorStore) :
  let resolved := autoDetectMode embedder Math_sqrt query (hasDocuments store) store in
  (resolved = "rag" \/ resolved = "general")
  /\ (resolved = "rag" <->
      hasDocuments store = true
      /\ (hasHint query
          \/ exists top rest, hybridSearch embedder Math_sqrt query 1 store = top :: rest
                              /\ (relevanceThreshold < score top)%Q)).
Proof.
  unfold autoDetectMode, hasHint.
  destruct (hasDocuments store); cbn [negb].
  2:{ split; [now right|]. split; [discriminate | intros [? _]; discriminate]. }
  destruct (existsb _ documentKeywords) eqn:Hhint.
  { apply existsb_exists in Hhint. split; [now left|]. split; eauto. }
  assert (Hno : ~ exists kw, In kw documentKeywords
                   /\ JS.includes (JS.toLowerCase query) kw = true).
  { intros H. apply existsb_exists in H. congruence. }
  destruct (hybridSearch embedder Math_sqrt query 1 store) as [|top rest].
  { split; [now right|]. split; [discriminate|].
    intros [_ [H | (t & r & H & _)]]; [tauto | discriminate]. }
  destruct (Qle_bool (score top) relevanceThreshold) eqn:Hle; cbn [negb].
  - apply Qle_bool_iff in Hle. split; [now right|]. split; [discriminate|].
    intros [_ [H | (t & r & [= <- <-] & Hlt)]]; [tauto|].
    exfalso. eapply Qlt_not_le; eauto.
  - split; [now left|]. split; [|reflexivity]. intros _. split; [reflexivity|].
    right. exists top, rest. split; [reflexivity|].
    apply Qnot_le_lt. intros H. apply Qle_bool_iff in H. congruence.
Qed.

End RouterFacts.

Section GroundedFacts.
Variable embedder : string -> list Q.
Variable Math_sqrt : Q -> Q.
Variable provider : string -> option string -> list Message -> string.

Lemma sourcesOf_length (retrievedChunks : list Hit) :
  length (sourcesOf retrievedChunks) = length retrievedChunks.
Proof. unfold sourcesOf. apply length_imap. Qed.

Lemma generateRAGResponse_nonempty (query : string) (hits : list Hit)
      (h : list Message) :
  hits <> [] ->
  generateRAGResponse provider query hits h
  = ((provider query (Some (contextOf hits)) h, sourcesOf hits),
     [{| prompt := query; context := Some (contextOf hits); history := h |}]).
Proof.
  intros Hne. unfold generateRAGResponse.
  destruct hits as [|hit hits]; [congruence|]. reflexivity.
Qed.


End GroundedFacts.

(** ** The chunker: identifiers *)

Lemma length_append (a b : string) :
  String.length (a ++ b) = (String.length a + String.length b)%nat.
Proof. induction a as [|c a IH]; simpl; [reflexivity|]. now rewrite IH. Qed.

Lemma append_assoc (a b c : string) : (a ++ b) ++ c = a ++ b ++ c.
Proof.
  induction a as [|x a IH]; [reflexivity|].
  change (String x ((a ++ b) ++ c) = String x (a ++ b ++ c)). now f_equal.
Qed.

Lemma append_empty_r (a : string) : a ++ "" = a.
Proof.
  induction a as [|x a IH]; [reflexivity|].
  change (String x (a ++ "") = String x a). now f_equal.
Qed.

Lemma append_inj_l (s a b : string) : s ++ a = s ++ b -> a = b.
Proof.
  induction s as [|c s IH]; simpl; intros H; [exact H|].
  injection H as H. now apply IH.
Qed.

Lemma decimal_inj (n m : nat) : decimal n = decimal m -> n = m.
Proof.
  unfold decimal. intros H.
  apply DecimalNat.Unsigned.to_uint_inj.
  assert (Some (Nat.to_uint n) = Some (Nat.to_uint m)) as [= E]; [|exact E].
  rewrite <- !NilEmpty.usu. now rewrite H.
Qed.

Section ChunkerIds.
Variable this : DocumentProcessor.
Variable md : SourceMeta.

Lemma numbered_snoc (l : list RawChunk) (buffer : string) :
  numbered md l -> numbered md (l ++ [makeChunk this md buffer (length l)]).
Proof.
  intros Hl i chunk Hi.
  destruct (Nat.lt_ge_cases i (length l)) as [Hlt|Hge].
  - rewrite nth_error_app1 in Hi by exact Hlt. now apply Hl.
  - rewrite nth_error_app2 in Hi by exact Hge.
    destruct (i - length l)%nat as [|k] eqn:E; simpl in Hi.
    + injection Hi as <-. assert (i = length l) as -> by lia. now split.
    + destruct k; discriminate.
Qed.

Lemma counted_step (st : chunkerState) (sentence : string) :
  counted md st -> counted md (chunkStep this md st sentence).
Proof.
  intros [Hn Hlen]. unfold chunkStep.
  destruct (_ && _); split; cbn [chunks_acc nextIndex]; try assumption.
  - rewrite Hlen. now apply numbered_snoc.
  - rewrite length_app. simpl. lia.
Qed.

Lemma counted_fold (sentences : list string) (st : chunkerState) :
  counted md st -> counted md (fold_left (chunkStep this md) sentences st).
Proof.
  revert st. induction sentences as [|s ss IH]; intros st H; simpl; [exact H|].
  apply IH. now apply counted_step.
Qed.

Lemma chunkSentences_numbered (sentences : list string) :
  numbered md (chunkSentences this md sentences).
Proof.
  unfold chunkSentences, finish.
  destruct (counted_fold sentences chunkerStart) as [Hn Hlen].
  { split; [|reflexivity]. intros [|i] chunk H; discriminate. }
  destruct (nonEmpty _); [|exact Hn].
  rewrite Hlen. now apply numbered_snoc.
Qed.

Lemma numbered_NoDup (l : list RawChunk) : numbered md l -> List.NoDup (map id l).
Proof.
  intros Hl. apply List.NoDup_nth_error. intros i j Hi Hij.
  rewrite length_map in Hi.
  destruct (nth_error l i) as [ci|] eqn:Ei.
  2:{ apply nth_error_None in Ei. lia. }
  rewrite !nth_error_map, Ei in Hij. simpl in Hij.
  destruct (nth_error l j) as [cj|] eqn:Ej; [|discriminate].
  injection Hij as Hij.
  destruct (Hl i ci Ei) as [Hidi _], (Hl j cj Ej) as [Hidj _].
  rewrite Hidi, Hidj in Hij.
  now apply append_inj_l, append_inj_l, decimal_inj in Hij.
Qed.
End ChunkerIds.

Lemma append_inj_r (a b t : string) : a ++ t = b ++ t -> a = b.
Proof.
  revert b. induction a as [|c a IH]; intros [|c' b] H.
  - reflexivity.
  - exfalso. apply (f_equal String.length) in H.
    rewrite !length_append in H. simpl in H. lia.
  - exfalso. apply (f_equal String.length) in H.
    rewrite !length_append in H. simpl in H. lia.
  - change (String c (a ++ t) = String c' (b ++ t)) in H.
    injection H as -> H. f_equal. now apply IH.
Qed.

Lemma allDigits_decimal (n : nat) : JS.allDigits (decimal n) = true.
Proof.
  unfold decimal. generalize (Nat.to_uint n). intros d.
  induction d; simpl; auto.
Qed.

Lemma digitSuffix_digits (s : string) : JS.allDigits s = true -> digitSuffix s = s.
Proof. destruct s as [|c s]; [reflexivity|]. cbn [digitSuffix]. now intros ->. Qed.

Lemma digitSuffix_after_dash (a digits : string) :
  JS.allDigits digits = true -> digitSuffix (a ++ "-" ++ digits) = digits.
Proof.
  intros Hd. induction a as [|c a IH].
  - change ("" ++ "-" ++ digits) with (String "-" digits).
    cbn [digitSuffix JS.allDigits]. change (JS.isDigit "-") with false.
    cbn [andb]. now apply digitSuffix_digits.
  - change (String c a ++ "-" ++ digits) with (String c (a ++ "-" ++ digits)).
    cbn [digitSuffix].
    assert (Hno : JS.allDigits (String c (a ++ "-" ++ digits)) = false).
    { cbn [JS.allDigits]. apply andb_false_intro2.
      clear IH. induction a as [|c' a IH]; [reflexivity|].
      change (String c' a ++ "-" ++ digits) with (String c' (a ++ "-" ++ digits)).
      cbn [JS.allDigits]. now rewrite IH, andb_false_r. }
    now rewrite Hno.
Qed.

(** A chunk id determines the source name and the chunk number. *)
Lemma chunk_id_inj (l1 l2 : string) (i j : nat) :
  l1 ++ "-chunk-" ++ decimal i = l2 ++ "-chunk-" ++ decimal j ->
  l1 = l2 /\ i = j.
Proof.
  intros H.
  assert (Hd : decimal i = decimal j).
  { pose proof (digitSuffix_after_dash (l1 ++ "-chunk") (decimal i)
                  (allDigits_decimal i)) as Hi.
    pose proof (digitSuffix_after_dash (l2 ++ "-chunk") (decimal j)
                  (allDigits_decimal j)) as Hj.
    rewrite append_assoc in Hi, Hj.
    change ("-chunk" ++ "-" ++ decimal i) with ("-chunk-" ++ decimal i) in Hi.
    change ("-chunk" ++ "-" ++ decimal j) with ("-chunk-" ++ decimal j) in Hj.
    rewrite H, Hj in Hi. now symmetry. }
  split; [|now apply decimal_inj].
  rewrite Hd, <- !append_assoc in H. now apply append_inj_r, append_inj_r in H.
Qed.

Lemma NoDup_map_filter {A B : Type} (f : A -> B) (p : A -> bool) (l : list A) :
  List.NoDup (map f l) -> List.NoDup (map f (List.filter p l)).
Proof.
  induction l as [|x l IH]; simpl; [auto|].
  intros H. inversion H as [|? ? Hx Hl]; subst.
  destruct (p x); simpl; [|now apply IH].
  constructor; [|now apply IH].
  intros Hin. apply Hx. apply in_map_iff in Hin as (y & Hy & Hin).
  apply filter_In in Hin as [Hin _]. apply in_map_iff. eauto.
Qed.

Section IndexIds.
Variable embedder : string -> list Q.
Variable this : DocumentProcessor.

Lemma chunkIds_added d nm input now store :
  chunkIds (addDocument embedder d nm input now store)
  = (chunkIds store ++ map id input)%list.
Proof.
  unfold chunkIds. rewrite addDocument_chunks, map_app, map_map. reflexivity.
Qed.

Lemma createChunks_id_form (md : SourceMeta) (text x : string) :
  In x (map id (createChunks this md text)) ->
  exists i, x = sourceLabel md ++ "-chunk-" ++ decimal i.
Proof.
  intros Hin. apply in_map_iff in Hin as (chunk & <- & Hin).
  apply In_nth_error in Hin as [i Hi]. exists i.
  now apply (chunkSentences_numbered this md (splitIntoSentences text)) in Hi.
Qed.

Lemma labelled_serve (seen : list string) (store : VectorStore) (a : action) :
  List.NoDup (seen ++ labels [a]) ->
  labelled seen store ->
  labelled (seen ++ labels [a]) (serve embedder store (requestOf this a)).
Proof.
  intros Hseen [Hnd Hform].
  destruct a as [d md text now | d | ]; simpl in *.
  - split.
    + rewrite chunkIds_added. apply List.NoDup_app; [exact Hnd | |].
      * apply (numbered_NoDup md), chunkSentences_numbered.
      * intros x Hx Hnew. apply Hform in Hx as (l & i & Hl & ->).
        apply createChunks_id_form in Hnew as [j Hj].
        apply chunk_id_inj in Hj as [-> _].
        apply List.NoDup_remove_2 in Hseen. rewrite app_nil_r in Hseen. tauto.
    + intros x. rewrite chunkIds_added, in_app_iff. intros [Hx|Hx].
      * apply Hform in Hx as (l & i & Hl & ->). exists l, i.
        split; [|reflexivity]. apply in_app_iff. now left.
      * apply createChunks_id_form in Hx as [j ->]. exists (sourceLabel md), j.
        split; [|reflexivity]. apply in_app_iff. right. now left.
  - rewrite app_nil_r. unfold removeDocument.
    destruct (documents store !! d); simpl; [|now split].
    split.
    + now apply NoDup_map_filter.
    + intros x Hx. apply Hform. unfold chunkIds in *. cbn [chunks] in Hx.
      apply in_map_iff in Hx as (chunk & <- & Hin).
      apply filter_In in Hin as [Hin _]. apply in_map_iff. eauto.
  - rewrite app_nil_r. split; [constructor | intros x []].
Qed.

Lemma labelled_serveAll (acts : list action) :
  List.NoDup (labels acts) ->
  labelled (labels acts) (serveAll embedder (map (requestOf this) acts)).
Proof.
  induction acts as [|a acts IH] using rev_ind; intros Hnd.
  - split; [constructor | intros x []].
  - unfold labels in *. rewrite flat_map_app in *.
    unfold serveAll in *. rewrite map_app, fold_left_app. simpl fold_left.
    apply labelled_serve; [exact Hnd|].
    apply IH. now apply List.NoDup_app_remove_r in Hnd.
Qed.
End IndexIds.

Lemma NoDup_map_second {A B C : Type} (g : A -> B) (f : A -> C) (l : list A) :
  (forall x y, In x l -> In y l -> f x = f y -> g x = g y) ->
  List.NoDup (map (fun x => (g x, f x)) l) -> List.NoDup (map f l).
Proof.
  induction l as [|x l IH]; intros Hfg Hnd; [constructor|].
  cbn [map] in *. inversion Hnd as [|? ? Hx Hl]; subst. constructor.
  - intros Hin. apply in_map_iff in Hin as (y & Hy & Hin). apply Hx.
    apply in_map_iff. exists y. split; [|exact Hin].
    f_equal; [|exact Hy]. apply Hfg; [now right | now left | exact Hy].
  - apply IH; [|exact Hl]. intros a b Ha Hb. apply Hfg; now right.
Qed.

Section FreshIds.
Variable embedder : string -> list Q.
Variable this : DocumentProcessor.

Lemma registered_serve (ids : list string) (store : VectorStore) (a : action) :
  List.NoDup (ids ++ drawn [a]) ->
  registered ids store ->
  registered (ids ++ drawn [a]) (serve embedder store (requestOf this a)).
Proof.
  intros Hids (Hkeys & Hform & Hnd).
  destruct a as [d md text now | d | ]; cbn [drawn flat_map requestOf serve app] in *;
    rewrite ?app_nil_r in *.
  - assert (Hfresh : ~ In d ids).
    { apply List.NoDup_remove_2 in Hids. now rewrite app_nil_r in Hids. }
    assert (Hold : forall chunk, In chunk (chunks store) -> docId chunk <> d).
    { intros chunk Hin E. apply Hfresh, Hkeys.
      destruct (Hform chunk Hin) as (info & i & Hinfo & _). rewrite <- E. eauto. }
    split; [|split].
    + intros d'. rewrite addDocument_documents, in_app_iff.
      destruct (decide (d = d')) as [->|Hne]; [intros _; right; now left|].
      rewrite lookup_insert_ne by exact Hne. intros H. left. now apply Hkeys.
    + intros chunk. rewrite addDocument_chunks, addDocument_documents, in_app_iff.
      intros [Hin | Hin].
      * destruct (Hform chunk Hin) as (info & i & Hinfo & Hid).
        exists info, i. split; [|exact Hid].
        rewrite lookup_insert_ne; [exact Hinfo|].
        intros E. now apply (Hold chunk Hin).
      * apply in_map_iff in Hin as (rawChunk & <- & Hin).
        cbn [embedChunk processChunk docId raw]. rewrite lookup_insert_eq.
        destruct (createChunks_id_form this md text (id rawChunk)) as [i Hi].
        { now apply in_map. }
        eexists _, i. split; [reflexivity|]. exact Hi.
    + rewrite addDocument_chunks, map_app. apply List.NoDup_app; [exact Hnd | |].
      * rewrite map_map. cbn [embedChunk processChunk docId raw].
        assert (Hin : List.NoDup (map id (createChunks this md text))).
        { apply (numbered_NoDup md), chunkSentences_numbered. }
        revert Hin. generalize (createChunks this md text). intros l Hl.
        induction l as [|x l IH]; [constructor|].
        cbn [map] in *. inversion Hl as [|? ? Hx Hl']; subst.
        constructor; [|now apply IH].
        intros Hin. apply Hx. apply in_map_iff in Hin as (y & Hy & Hin).
        injection Hy as Hy. apply in_map_iff. eauto.
      * intros [d' x] Hin Hnew.
        apply in_map_iff in Hin as (chunk & Hc & Hin).
        apply in_map_iff in Hnew as (chunk' & Hc' & Hnew).
        apply in_map_iff in Hnew as (rawChunk & <- & _).
        cbn [embedChunk processChunk docId raw] in Hc'.
        injection Hc as Hd _. injection Hc' as Hd' _.
        apply (Hold chunk Hin). congruence.
  - unfold removeDocument.
    destruct (documents store !! d) eqn:Hd; cbn [snd]; [|now repeat split].
    split; [|split]; cbn [documents chunks].
    + intros d' H. apply Hkeys.
      destruct (decide (d = d')) as [->|Hne];
        [rewrite lookup_delete_eq in H; now destruct H|].
      now rewrite lookup_delete_ne in H.
    + intros chunk Hin. apply filter_In in Hin as [Hin Hne].
      destruct (Hform chunk Hin) as (info & i & Hinfo & Hid).
      exists info, i. split; [|exact Hid].
      rewrite lookup_delete_ne; [exact Hinfo|].
      intros E. rewrite E, String.eqb_refl in Hne. discriminate.
    + now apply NoDup_map_filter.
  - split; [|split]; cbn [clear documents chunks].
    + intros d H. rewrite lookup_empty in H. now destruct H.
    + intros chunk [].
    + constructor.
Qed.

Lemma registered_serveAll (acts : list action) :
  List.NoDup (drawn acts) ->
  registered (drawn acts) (serveAll embedder (map (requestOf this) acts)).
Proof.
  induction acts as [|a acts IH] using rev_ind; intros Hnd.
  - split; [|split]; cbn.
    + intros d H. rewrite lookup_empty in H. now destruct H.
    + intros chunk [].
    + constructor.
  - unfold drawn in *. rewrite flat_map_app in *.
    unfold serveAll in *. rewrite map_app, fold_left_app. cbn [fold_left map].
    apply registered_serve; [exact Hnd|].
    apply IH. now apply List.NoDup_app_remove_r in Hnd.
Qed.

Lemma registered_NoDup (ids : list string) (store : VectorStore) :
  registered ids store -> distinctNames store -> List.NoDup (chunkIds store).
Proof.
  intros (_ & Hform & Hnd) Hnames. unfold chunkIds.
  apply (NoDup_map_second docId (fun chunk => id (raw chunk))); [|exact Hnd].
  intros x y Hx Hy E.
  destruct (Hform x Hx) as (info1 & i & H1 & E1).
  destruct (Hform y Hy) as (info2 & j & H2 & E2).
  rewrite E1, E2 in E. apply chunk_id_inj in E as [E _].
  exact (Hnames _ _ _ _ H1 H2 E).
Qed.
End FreshIds.

(** C5 (amended).  The chunks that the chunker makes of one source are
    numbered 0, 1, 2, ... in order and chunk [i] has the id
    [<source-name>-chunk-<i>], so the ids of one document are pairwise
    distinct.  In every state reached by ingesting sources, each under a
    document id that was not drawn before, deleting documents and clearing,
    any two chunks of the index have distinct ids provided that the
    documents registered at that moment have pairwise distinct names: a name
    may be used again once its document is deleted.  Whatever the document
    ids, the same holds when no two of the ingested sources have the same
    name. *)
Theorem createChunks_ids
  (embedder : string -> list Q) (this : DocumentProcessor) :
  (forall md text,
     (forall i chunk, nth_error (createChunks this md text) i = Some chunk ->
        id chunk = sourceLabel md ++ "-chunk-" ++ decimal i
        /\ chunkIndex (metadata chunk) = i)
     /\ List.NoDup (map id (createChunks this md text)))
  /\ (forall acts,
        List.NoDup (drawn acts) ->
        distinctNames (serveAll embedder (map (requestOf this) acts)) ->
        List.NoDup (chunkIds (serveAll embedder (map (requestOf this) acts))))
  /\ (forall acts,
        List.NoDup (labels acts) ->
        List.NoDup (chunkIds (serveAll embedder (map (requestOf this) acts)))).
Proof.
  split; [|split].
  - intros md text.
    pose proof (chunkSentences_numbered this md (splitIntoSentences text)) as Hn.
    fold (createChunks this md text) in Hn.
    split; [exact Hn | now apply (numbered_NoDup md)].
  - intros acts Hnd Hnames.
    apply (registered_NoDup (drawn acts)); [|exact Hnames].
    now apply registered_serveAll.
  - intros acts Hnd. now apply (labelled_serveAll embedder this acts).
Qed.

(** [cats.txt] uploaded, deleted and uploaded again: the two uploads have
    one name, and the ids of the index are distinct. *)
Lemma createChunks_ids_witness :
  ~ List.NoDup (labels uploadedAgain)
  /\ List.NoDup (chunkIds (serveAll unitEmbedder
                             (map (requestOf defaultProcessor) uploadedAgain)))
  /\ chunkIds (serveAll unitEmbedder (map (requestOf defaultProcessor) uploadedAgain))
     = ["cats.txt-chunk-0"].
Proof.
  split; [|split].
  - intros H. vm_compute in H. inversion H as [|x l Hx Hl]; subst. apply Hx. now left.
  - apply (proj1 (proj2 (createChunks_ids unitEmbedder defaultProcessor)) uploadedAgain).
    + vm_compute. repeat constructor; simpl; intuition discriminate.
    + intros d1 d2 info1 info2 H1 H2 _.
      assert (E : exists info,
        documents (serveAll unitEmbedder
                     (map (requestOf defaultProcessor) uploadedAgain))
        = {[ "doc-2" := info ]}).
      { eexists. vm_compute. reflexivity. }
      destruct E as [info E]. rewrite E in H1, H2.
      apply lookup_singleton_Some in H1 as [<- _].
      apply lookup_singleton_Some in H2 as [<- _]. reflexivity.
  - vm_compute. reflexivity.
Defined.

(** C5 fails as stated: two uploads under one file name leave two chunks in
    the index, of different documents, with the same id. *)
Lemma chunk_ids_counterexample :
  exists c1 c2 : Chunk,
    chunks catsTwice = [c1; c2]
    /\ c1 <> c2
    /\ docId c1 = "doc-1" /\ docId c2 = "doc-2"
    /\ id (raw c1) = "cats.txt-chunk-0"
    /\ id (raw c2) = "cats.txt-chunk-0"
    /\ ~ List.NoDup (chunkIds catsTwice).
Proof.
  do 2 eexists. split; [vm_compute; reflexivity|].
  repeat split; try discriminate.
  intros H. inversion H as [|x l Hx Hl]; subst. apply Hx. now left.
Qed.

(** ** The chunker: content *)

Lemma allSpaces_app (a b : string) :
  JS.allSpaces (a ++ b) = JS.allSpaces a && JS.allSpaces b.
Proof.
  induction a as [|c a IH]; simpl; [reflexivity|].
  now rewrite IH, andb_assoc.
Qed.

Lemma allSpaces_dropSpaces (s : string) :
  JS.allSpaces (JS.dropSpaces s) = JS.allSpaces s.
Proof.
  induction s as [|c s IH]; [reflexivity|].
  simpl. destruct (JS.isSpace c) eqn:E; simpl; [exact IH | now rewrite E].
Qed.

Lemma allSpaces_dropSpacesEnd (s : string) :
  JS.allSpaces (JS.dropSpacesEnd s) = JS.allSpaces s.
Proof.
  induction s as [|c s IH]; [reflexivity|].
  cbn [JS.dropSpacesEnd]. destruct (JS.allSpaces (String c s)) eqn:E; [reflexivity|].
  simpl in *. now rewrite IH.
Qed.

Lemma dropSpacesEnd_nonEmpty (s : string) :
  nonEmpty (JS.dropSpacesEnd s) = negb (JS.allSpaces s).
Proof.
  destruct s as [|c s]; [reflexivity|].
  cbn [JS.dropSpacesEnd]. now destruct (JS.allSpaces (String c s)).
Qed.

Lemma trim_nonEmpty (s : string) : nonEmpty (JS.trim s) = negb (JS.allSpaces s).
Proof. unfold JS.trim. now rewrite dropSpacesEnd_nonEmpty, allSpaces_dropSpaces. Qed.

Lemma allSpaces_trim (s : string) : JS.allSpaces (JS.trim s) = JS.allSpaces s.
Proof. unfold JS.trim. now rewrite allSpaces_dropSpacesEnd, allSpaces_dropSpaces. Qed.

Lemma startsWithSpace_dropSpaces (s : string) :
  JS.startsWithSpace (JS.dropSpaces s) = false.
Proof.
  induction s as [|c s IH]; [reflexivity|].
  simpl. destruct (JS.isSpace c) eqn:E; [exact IH | exact E].
Qed.

Lemma dropSpaces_fixed (s : string) :
  JS.startsWithSpace s = false -> JS.dropSpaces s = s.
Proof. destruct s as [|c s]; simpl; [reflexivity|]. now intros ->. Qed.

Lemma startsWithSpace_dropSpacesEnd (s : string) :
  JS.startsWithSpace s = false -> JS.startsWithSpace (JS.dropSpacesEnd s) = false.
Proof.
  destruct s as [|c s]; [reflexivity|].
  cbn [JS.dropSpacesEnd]. now destruct (JS.allSpaces (String c s)).
Qed.

Lemma dropSpacesEnd_idem (s : string) :
  JS.dropSpacesEnd (JS.dropSpacesEnd s) = JS.dropSpacesEnd s.
Proof.
  induction s as [|c s IH]; [reflexivity|].
  cbn [JS.dropSpacesEnd]. destruct (JS.allSpaces (String c s)) eqn:E; [reflexivity|].
  cbn [JS.dropSpacesEnd].
  assert (E' : JS.allSpaces (String c (JS.dropSpacesEnd s)) = false).
  { simpl in *. now rewrite allSpaces_dropSpacesEnd. }
  now rewrite E', IH.
Qed.

Lemma lastIsSpace_dropSpacesEnd (s : string) :
  lastIsSpace (JS.dropSpacesEnd s) = false.
Proof.
  induction s as [|c s IH]; [reflexivity|].
  cbn [JS.dropSpacesEnd]. destruct (JS.allSpaces (String c s)) eqn:E; [reflexivity|].
  cbn [lastIsSpace]. destruct (JS.dropSpacesEnd s) eqn:Ed; [|exact IH].
  pose proof (dropSpacesEnd_nonEmpty s) as Hn. rewrite Ed in Hn. simpl in Hn.
  simpl in E. destruct (JS.allSpaces s); [|discriminate].
  now rewrite andb_true_r in E.
Qed.

Lemma trim_trimmed (s : string) : trimmed (JS.trim s).
Proof.
  assert (Hs : JS.startsWithSpace (JS.trim s) = false).
  { apply startsWithSpace_dropSpacesEnd, startsWithSpace_dropSpaces. }
  split; [|split].
  - unfold JS.trim at 1. rewrite dropSpaces_fixed by exact Hs.
    apply dropSpacesEnd_idem.
  - exact Hs.
  - apply lastIsSpace_dropSpacesEnd.
Qed.

Lemma length_dropSpaces (s : string) :
  (String.length (JS.dropSpaces s) <= String.length s)%nat.
Proof.
  induction s as [|c s IH]; simpl; [lia|]. destruct (JS.isSpace c); simpl; lia.
Qed.

Lemma length_dropSpacesEnd (s : string) :
  (String.length (JS.dropSpacesEnd s) <= String.length s)%nat.
Proof.
  induction s as [|c s IH]; [simpl; lia|].
  cbn [JS.dropSpacesEnd]. destruct (JS.allSpaces (String c s)); simpl; lia.
Qed.

Lemma length_trim (s : string) : (String.length (JS.trim s) <= String.length s)%nat.
Proof.
  unfold JS.trim. etransitivity; [apply length_dropSpacesEnd | apply length_dropSpaces].
Qed.

Lemma dropSpacesEnd_space (s : string) :
  JS.dropSpacesEnd (s ++ " ") = JS.dropSpacesEnd s.
Proof.
  induction s as [|c s IH]; [reflexivity|].
  change (String c s ++ " ") with (String c (s ++ " ")).
  cbn [JS.dropSpacesEnd].
  replace (JS.allSpaces (String c (s ++ " "))) with (JS.allSpaces (String c s)).
  - now rewrite IH.
  - simpl. rewrite allSpaces_app. simpl. now rewrite andb_true_r.
Qed.

Lemma dropSpaces_space (s : string) :
  JS.allSpaces s = false -> JS.dropSpaces (s ++ " ") = JS.dropSpaces s ++ " ".
Proof.
  induction s as [|c s IH]; [discriminate|].
  simpl. destruct (JS.isSpace c); simpl; [exact IH | reflexivity].
Qed.

(** The space that follows every sentence in the buffer is trimmed away. *)
Lemma trim_space (s : string) :
  JS.allSpaces s = false -> JS.trim (s ++ " ") = JS.trim s.
Proof.
  intros H. unfold JS.trim. rewrite dropSpaces_space by exact H.
  apply dropSpacesEnd_space.
Qed.

Lemma splitIntoSentences_solid (text : string) :
  Forall (fun sentence => JS.allSpaces sentence = false) (splitIntoSentences text).
Proof.
  unfold splitIntoSentences. apply List.Forall_forall. intros s Hs.
  apply filter_In in Hs as [Hin Hne].
  apply in_map_iff in Hin as (x & <- & _).
  rewrite trim_nonEmpty in Hne. rewrite allSpaces_trim.
  now destruct (JS.allSpaces x).
Qed.

Lemma spaced_join (sentences : list string) :
  sentences <> [] -> spaced sentences = JS.join " " sentences ++ " ".
Proof.
  induction sentences as [|s ss IH]; [congruence|]. intros _.
  destruct ss as [|s' ss]; [reflexivity|].
  change (spaced (s :: s' :: ss)) with (s ++ " " ++ spaced (s' :: ss)).
  rewrite IH by discriminate.
  change (JS.join " " (s :: s' :: ss)) with (s ++ " " ++ JS.join " " (s' :: ss)).
  now rewrite !append_assoc.
Qed.

Section ChunkerContent.
Variable this : DocumentProcessor.
Variable md : SourceMeta.

Lemma makeChunk_wellFormed (buffer : string) (index : nat) :
  JS.allSpaces buffer = false -> wellFormed (makeChunk this md buffer index).
Proof.
  intros H. split; simpl; [apply trim_trimmed|].
  intros E. pose proof (trim_nonEmpty buffer) as Hn.
  rewrite E, H in Hn. discriminate.
Qed.

Lemma solid_step (st : chunkerState) (sentence : string) :
  JS.allSpaces sentence = false -> solid st -> solid (chunkStep this md st sentence).
Proof.
  intros Hs [Hacc Hbuf]. unfold chunkStep. split.
  - destruct (_ <? _)%nat; cbn [andb]; [|exact Hacc].
    destruct (nonEmpty (currentChunk st)) eqn:E; cbn [chunks_acc]; [|exact Hacc].
    apply Forall_app. split; [exact Hacc|].
    constructor; [|constructor]. apply makeChunk_wellFormed. now apply Hbuf.
  - intros _. cbn [currentChunk]. rewrite !allSpaces_app, Hs.
    now rewrite andb_false_r.
Qed.

Lemma solid_fold (sentences : list string) (st : chunkerState) :
  Forall (fun sentence => JS.allSpaces sentence = false) sentences ->
  solid st -> solid (fold_left (chunkStep this md) sentences st).
Proof.
  intros Hss. revert st. induction Hss as [|s ss Hs Hss IH]; intros st H; simpl.
  - exact H.
  - apply IH. now apply solid_step.
Qed.

Lemma chunkSentences_wellFormed (sentences : list string) :
  Forall (fun sentence => JS.allSpaces sentence = false) sentences ->
  Forall wellFormed (chunkSentences this md sentences).
Proof.
  intros Hss. unfold chunkSentences, finish.
  destruct (solid_fold sentences chunkerStart Hss) as [Hacc _].
  { split; [constructor | discriminate]. }
  destruct (nonEmpty (JS.trim _)) eqn:E; [|exact Hacc].
  apply Forall_app. split; [exact Hacc|]. constructor; [|constructor].
  apply makeChunk_wellFormed. rewrite trim_nonEmpty in E.
  now destruct (JS.allSpaces _).
Qed.

(** While everything fits, the loop only appends. *)
Lemma fold_fits (rest : list string) (buffer : string) :
  nonEmpty buffer = true ->
  (String.length buffer + String.length (spaced rest) <= chunkSize this + 1)%nat ->
  fold_left (chunkStep this md) rest
    {| chunks_acc := []; currentChunk := buffer;
       currentLength := String.length buffer; nextIndex := 0 |}
  = {| chunks_acc := []; currentChunk := buffer ++ spaced rest;
       currentLength := String.length (buffer ++ spaced rest); nextIndex := 0 |}.
Proof.
  revert buffer. induction rest as [|s rest IH]; intros buffer Hne Hfit.
  - simpl. now rewrite append_empty_r.
  - change (spaced (s :: rest)) with (s ++ " " ++ spaced rest) in *.
    rewrite !length_append in Hfit. simpl in Hfit.
    cbn [fold_left]. unfold chunkStep at 2. cbn [currentLength currentChunk].
    assert (Hguard : (chunkSize this <? String.length buffer + String.length s)%nat = false).
    { apply Nat.ltb_ge. lia. }
    rewrite Hguard. cbn [andb chunks_acc currentChunk currentLength nextIndex].
    replace (String.length buffer + String.length s + 1)%nat
      with (String.length (buffer ++ s ++ " ")).
    2:{ rewrite !length_append. simpl. lia. }
    rewrite IH.
    + now rewrite !append_assoc.
    + destruct buffer; [discriminate | reflexivity].
    + rewrite !length_append. simpl. lia.
Qed.

Lemma chunkSentences_fits (sentences : list string) :
  sentences <> [] ->
  Forall (fun sentence => JS.allSpaces sentence = false) sentences ->
  (String.length (JS.join " " sentences) <= chunkSize this)%nat ->
  chunkSentences this md sentences
  = [makeChunk this md (JS.join " " sentences ++ " ") 0]
  /\ (String.length (JS.trim (JS.join " " sentences ++ " ")) <= chunkSize this)%nat.
Proof.
  intros Hne Hss Hfit.
  destruct sentences as [|s rest]; [congruence|].
  assert (Hs : JS.allSpaces s = false) by now inversion Hss.
  assert (Hsp : spaced (s :: rest) = JS.join " " (s :: rest) ++ " ").
  { now apply spaced_join. }
  assert (Hfold : fold_left (chunkStep this md) (s :: rest) chunkerStart
    = {| chunks_acc := []; currentChunk := spaced (s :: rest);
         currentLength := String.length (spaced (s :: rest)); nextIndex := 0 |}).
  { cbn [fold_left]. unfold chunkStep at 2, chunkerStart.
    cbn [currentChunk nonEmpty]. rewrite andb_false_r.
    cbn [chunks_acc currentChunk currentLength nextIndex].
    replace (0 + String.length s + 1)%nat with (String.length ("" ++ s ++ " ")).
    2:{ rewrite !length_append. simpl. lia. }
    rewrite fold_fits.
    - change ("" ++ s ++ " ") with (s ++ " "). now rewrite append_assoc.
    - simpl. destruct s; [discriminate | reflexivity].
    - assert (H : String.length (spaced (s :: rest))
                  = (String.length (JS.join " " (s :: rest)) + 1)%nat).
      { rewrite Hsp, length_append. reflexivity. }
      change (spaced (s :: rest)) with (s ++ " " ++ spaced rest) in H.
      rewrite !length_append in H. rewrite !length_append. simpl in *. lia. }
  assert (Hsolid : JS.allSpaces (JS.join " " (s :: rest)) = false).
  { destruct rest as [|s' rest]; [exact Hs|].
    change (JS.join " " (s :: s' :: rest)) with (s ++ " " ++ JS.join " " (s' :: rest)).
    now rewrite allSpaces_app, Hs. }
  split.
  - unfold chunkSentences, finish. rewrite Hfold. cbn [currentChunk chunks_acc nextIndex].
    rewrite Hsp, trim_nonEmpty, allSpaces_app, Hsolid. reflexivity.
  - rewrite trim_space by exact Hsolid.
    etransitivity; [apply length_trim | exact Hfit].
Qed.
End ChunkerContent.

Lemma length_trim_space (s : string) :
  (String.length (JS.trim (s ++ " ")) <= String.length s)%nat.
Proof.
  destruct (JS.allSpaces s) eqn:E.
  - pose proof (trim_nonEmpty (s ++ " ")) as H.
    rewrite allSpaces_app, E in H. cbn in H.
    destruct (JS.trim (s ++ " ")); [simpl; lia | discriminate].
  - rewrite trim_space by exact E. apply length_trim.
Qed.

Section ChunkerSize.
Variable this : DocumentProcessor.
Variable md : SourceMeta.
Variable sentences : list string.
Hypothesis sentences_trimmed :
  forall sentence, In sentence sentences ->
    JS.trim sentence = sentence /\ JS.allSpaces sentence = false.

Lemma sized_snoc (l : list RawChunk) (chunk : RawChunk) :
  sized this sentences l ->
  ((String.length (content chunk) <= chunkSize this)%nat
   \/ carriesOne this sentences (previousOf (l ++ [chunk]) (length l)) chunk) ->
  sized this sentences (l ++ [chunk]).
Proof.
  intros Hl Hc i x Hi.
  destruct (Nat.lt_ge_cases i (length l)) as [Hlt|Hge].
  - rewrite nth_error_app1 in Hi by exact Hlt.
    destruct (Hl i x Hi) as [H|H]; [now left|]. right.
    destruct i as [|j]; [exact H|]. cbn [previousOf] in *.
    rewrite nth_error_app1 by lia. exact H.
  - rewrite nth_error_app2 in Hi by exact Hge.
    destruct (i - length l)%nat as [|k] eqn:E; [|destruct k; discriminate Hi].
    injection Hi as <-. replace i with (length l) by lia. exact Hc.
Qed.

(** The chunk that a buffer becomes. *)
Lemma flush_sized (st : chunkerState) :
  measured this sentences st -> nonEmpty (currentChunk st) = true ->
  sized this sentences
    (chunks_acc st ++ [makeChunk this md (currentChunk st) (nextIndex st)]).
Proof.
  intros (_ & Hsized & Hbuf) Hne. apply sized_snoc; [exact Hsized|].
  cbn [makeChunk content].
  destruct Hbuf as [[E _] | [(body & E & Hfit) | (sentence & Hin & Hs)]].
  - rewrite E in Hne. discriminate.
  - left. rewrite E. etransitivity; [apply length_trim_space | exact Hfit].
  - right. exists sentence. split; [exact Hin|].
    destruct (sentences_trimmed sentence Hin) as [Ht Hsolid].
    destruct Hs as [[Hacc E] | (front & before & buffer & Hacc & Hb & E)].
    + rewrite Hacc, E. cbn [app length previousOf makeChunk content].
      now rewrite trim_space.
    + rewrite Hacc, E. rewrite length_app. cbn [length].
      replace (length front + 1)%nat with (S (length front)) by lia.
      cbn [previousOf]. rewrite <- app_assoc.
      rewrite nth_error_app2 by lia. rewrite Nat.sub_diag.
      cbn [app nth_error makeChunk content].
      exists buffer. split; [exact Hb | reflexivity].
Qed.

Lemma measured_step (st : chunkerState) (sentence : string) :
  In sentence sentences ->
  measured this sentences st -> measured this sentences (chunkStep this md st sentence).
Proof.
  intros Hin Hst. pose proof Hst as (Hlen & Hsized & Hbuf).
  unfold chunkStep.
  destruct (nonEmpty (currentChunk st)) eqn:Hne.
  - destruct (chunkSize this <? currentLength st + String.length sentence)%nat eqn:Hguard;
      unfold measured; cbn [andb chunks_acc currentChunk currentLength nextIndex].
    + split; [|split].
      * rewrite !length_append. simpl. lia.
      * now apply flush_sized.
      * right. right. exists sentence. split; [exact Hin|]. right.
        exists (chunks_acc st), (makeChunk this md (currentChunk st) (nextIndex st)),
               (currentChunk st).
        repeat split.
    + apply Nat.ltb_ge in Hguard. split; [|split].
      * rewrite !length_append. simpl. lia.
      * exact Hsized.
      * right. left. exists (currentChunk st ++ sentence).
        split; [now rewrite append_assoc|]. rewrite length_append. lia.
  - rewrite andb_false_r. unfold measured.
    cbn [chunks_acc currentChunk currentLength nextIndex].
    assert (E : currentChunk st = "") by (destruct (currentChunk st); [reflexivity|discriminate]).
    assert (Hacc : chunks_acc st = []).
    { destruct Hbuf as [[_ H] | [(body & H & _) | (s & _ & [[_ H] | (f & b & bf & _ & _ & H)])]];
        [exact H | | |]; rewrite E in H; exfalso.
      - destruct body; discriminate H.
      - destruct s; discriminate H.
      - unfold overlapSeed in H. rewrite <- append_assoc in H.
        destruct (JS.join " " _); discriminate H. }
    split; [|split].
    + rewrite E, !length_append. simpl. rewrite Hlen, E. simpl. lia.
    + exact Hsized.
    + right. right. exists sentence. split; [exact Hin|]. left.
      split; [exact Hacc | now rewrite E].
Qed.

Lemma measured_fold (rest : list string) (st : chunkerState) :
  (forall sentence, In sentence rest -> In sentence sentences) ->
  measured this sentences st ->
  measured this sentences (fold_left (chunkStep this md) rest st).
Proof.
  revert st. induction rest as [|s rest IH]; intros st Hin Hst; [exact Hst|].
  cbn [fold_left]. apply IH.
  - intros x Hx. apply Hin. now right.
  - apply measured_step; [apply Hin; now left | exact Hst].
Qed.

Lemma chunkSentences_sized :
  sized this sentences (chunkSentences this md sentences).
Proof.
  unfold chunkSentences, finish.
  assert (Hst : measured this sentences
                  (fold_left (chunkStep this md) sentences chunkerStart)).
  { apply measured_fold; [auto|]. split; [reflexivity|]. split.
    - intros [|i] chunk H; discriminate H.
    - left. split; reflexivity. }
  destruct (nonEmpty (JS.trim _)) eqn:E; [|apply Hst].
  apply flush_sized; [exact Hst|].
  destruct (currentChunk _); [discriminate E | reflexivity].
Qed.
End ChunkerSize.

Lemma sentence_trimmed (text sentence : string) :
  In sentence (splitIntoSentences text) ->
  JS.trim sentence = sentence /\ JS.allSpaces sentence = false.
Proof.
  intros Hin. split.
  - apply filter_In in Hin as [Hin _].
    apply in_map_iff in Hin as (x & <- & _). apply trim_trimmed.
  - pose proof (splitIntoSentences_solid text) as H.
    rewrite List.Forall_forall in H. now apply H.
Qed.

(** C9 (amended).  Every chunk the chunker produces has content that is
    trimmed and not empty.  Its length is within [chunk_size] unless it is
    made of a single sentence and of what was carried over: the first chunk
    is then that sentence, and a later chunk is the trimmed text of the
    words carried over from the chunk before it, a space and that sentence.
    In particular the length is within [chunk_size] when the sentences of
    the text, joined by single spaces, fit in [chunk_size]: the text then
    becomes one chunk.  A text that is one sentence becomes one chunk
    holding that sentence, however long it is. *)
Theorem createChunks_content
  (this : DocumentProcessor) (md : SourceMeta) (text : string) :
  let sentences := splitIntoSentences text in
  Forall (fun chunk => trimmed (content chunk) /\ content chunk <> "")
         (createChunks this md text)
  /\ (forall i chunk,
        nth_error (createChunks this md text) i = Some chunk ->
        (String.length (content chunk) <= chunkSize this)%nat
        \/ carriesOne this sentences (previousOf (createChunks this md text) i) chunk)
  /\ (sentences <> [] ->
      (String.length (JS.join " " sentences) <= chunkSize this)%nat ->
      exists chunk, createChunks this md text = [chunk]
                    /\ (String.length (content chunk) <= chunkSize this)%nat)
  /\ (forall sentence, sentences = [sentence] ->
      exists chunk, createChunks this md text = [chunk]
                    /\ content chunk = sentence).
Proof.
  intros sentences.
  pose proof (splitIntoSentences_solid text) as Hsolid. fold sentences in Hsolid.
  split; [|split; [|split]].
  - now apply chunkSentences_wellFormed.
  - apply (chunkSentences_sized this md sentences).
    intros sentence Hin. now apply (sentence_trimmed text).
  - intros Hne Hfit.
    destruct (chunkSentences_fits this md sentences Hne Hsolid Hfit) as [Heq Hlen].
    eexists. split; [exact Heq | exact Hlen].
  - intros sentence Hone.
    assert (Hs : JS.allSpaces sentence = false).
    { rewrite Hone in Hsolid. now inversion Hsolid. }
    assert (Htrim : JS.trim sentence = sentence).
    { assert (In sentence sentences) as Hin by (rewrite Hone; now left).
      apply filter_In in Hin as [Hin _].
      apply in_map_iff in Hin as (x & <- & _). apply trim_trimmed. }
    unfold createChunks. fold sentences. rewrite Hone.
    unfold chunkSentences, finish. cbn [fold_left].
    unfold chunkStep, chunkerStart. cbn [currentChunk nonEmpty].
    rewrite andb_false_r. cbn [chunks_acc currentChunk nextIndex].
    change ("" ++ sentence ++ " ") with (sentence ++ " ").
    rewrite trim_nonEmpty, allSpaces_app, Hs. cbn [andb negb app].
    eexists. split; [reflexivity|]. cbn [content makeChunk].
    now rewrite trim_space.
Qed.

(** C9 fails as stated: a sentence longer than [chunk_size] is not split, so
    with the default size of 800 a sentence of 801 letters becomes a chunk of
    801 characters. *)
Lemma createChunks_length_counterexample :
  exists chunk,
    createChunks defaultProcessor catsFile longSentence = [chunk]
    /\ chunkSize defaultProcessor = 800%nat
    /\ String.length (content chunk) = 801%nat
    /\ ~ (String.length (content chunk) <= chunkSize defaultProcessor)%nat.
Proof.
  eexists. split; [vm_compute; reflexivity|].
  split; [reflexivity|]. split; [vm_compute; reflexivity|].
  vm_compute. lia.
Qed.

(** The overlap carried into the next buffer is not counted against the size
    either: here no sentence is longer than the chunk size of 20 and the
    second chunk has 34 characters. *)
Example overlap_overflow :
  map content
    (createChunks (newDocumentProcessor (Some 20) (Some 5)) catsFile
       "a b c dddddddddddd. eeeeeeeeeeeeeeeeee.")%nat
  = ["a b c dddddddddddd."; "dddddddddddd.  eeeeeeeeeeeeeeeeee."].
Proof. vm_compute. reflexivity. Qed.

(** ** Keyword extraction *)

Lemma insert_map {A B : Type} (f : A -> B) (afterA : A -> A -> bool)
      (afterB : B -> B -> bool) (x : A) (l : list A) :
  (forall a b, afterB (f a) (f b) = afterA a b) ->
  JS.insert afterB (f x) (map f l) = map f (JS.insert afterA x l).
Proof.
  intros H. induction l as [|y l IH]; simpl; [reflexivity|].
  rewrite H. destruct (afterA x y); simpl; [now rewrite IH | reflexivity].
Qed.

Lemma sort_map {A B : Type} (f : A -> B) (afterA : A -> A -> bool)
      (afterB : B -> B -> bool) (l : list A) :
  (forall a b, afterB (f a) (f b) = afterA a b) ->
  JS.sort afterB (map f l) = map f (JS.sort afterA l).
Proof.
  intros H. induction l as [|x l IH]; simpl; [reflexivity|].
  rewrite IH. now apply insert_map.
Qed.

Lemma filter_map_swap {A B : Type} (f : A -> B) (p : B -> bool) (l : list A) :
  List.filter p (map f l) = map f (List.filter (fun a => p (f a)) l).
Proof.
  induction l as [|x l IH]; simpl; [reflexivity|].
  rewrite IH. now destruct (p (f x)).
Qed.

Lemma existsb_eqb_In (w : string) (l : list string) :
  existsb (String.eqb w) l = true <-> In w l.
Proof.
  rewrite existsb_exists. split.
  - intros (x & Hin & Heq). apply String.eqb_eq in Heq. now subst.
  - intros Hin. exists w. split; [exact Hin | apply String.eqb_refl].
Qed.

Lemma In_firstOccurrences (w : string) (ws : list string) :
  In w (firstOccurrences ws) <-> In w ws.
Proof.
  induction ws as [|x ws IH]; simpl; [tauto|].
  rewrite filter_In, IH, negb_true_iff, String.eqb_neq.
  destruct (string_dec x w) as [->|Hne]; [tauto|].
  split; [tauto|]. intros [H|H]; [tauto|]. right. split; [exact H | congruence].
Qed.

Lemma NoDup_filter {A : Type} (p : A -> bool) (l : list A) :
  List.NoDup l -> List.NoDup (List.filter p l).
Proof.
  induction 1 as [|x l Hx Hl IH]; simpl; [constructor|].
  destruct (p x); [|exact IH]. constructor; [|exact IH].
  rewrite filter_In. tauto.
Qed.

Lemma NoDup_firstOccurrences (ws : list string) :
  List.NoDup (firstOccurrences ws).
Proof.
  induction ws as [|x ws IH]; simpl; constructor.
  - rewrite filter_In, String.eqb_refl. simpl. intros [_ H]. discriminate.
  - now apply NoDup_filter.
Qed.

Lemma firstOccurrences_snoc (ws : list string) (w : string) :
  firstOccurrences (ws ++ [w])
  = (firstOccurrences ws ++ if existsb (String.eqb w) ws then [] else [w])%list.
Proof.
  induction ws as [|x ws IH]; [reflexivity|].
  cbn [app firstOccurrences existsb]. rewrite IH, List.filter_app. f_equal. f_equal.
  destruct (existsb (String.eqb w) ws); [now rewrite orb_true_r|].
  rewrite orb_false_r. simpl. now destruct (String.eqb w x).
Qed.

Lemma occurrences_snoc (k w : string) (ws : list string) :
  occurrences k (ws ++ [w])
  = (occurrences k ws + if String.eqb k w then 1 else 0)%nat.
Proof.
  unfold occurrences. rewrite List.filter_app, length_app. simpl.
  now destruct (String.eqb k w).
Qed.

Lemma occurrences_absent (w : string) (ws : list string) :
  existsb (String.eqb w) ws = false -> occurrences w ws = 0%nat.
Proof.
  unfold occurrences. induction ws as [|x ws IH]; simpl; [reflexivity|].
  destruct (String.eqb w x); simpl; [discriminate | exact IH].
Qed.

Lemma occurrences_present (w : string) (ws : list string) :
  In w ws -> (0 < occurrences w ws)%nat.
Proof.
  unfold occurrences. induction ws as [|x ws IH]; simpl; [tauto|].
  intros [->|H].
  - rewrite String.eqb_refl. simpl. lia.
  - destruct (String.eqb w x); simpl; [lia | now apply IH].
Qed.

Section Keyed.
Variable g : string -> freq.

Lemma getOwn_keyed (l : list string) (w : string) :
  getOwn (map (fun k => (k, g k)) l) w
  = if existsb (String.eqb w) l then Some (g w) else None.
Proof.
  induction l as [|k l IH]; simpl; [reflexivity|].
  destruct (String.eqb w k) eqn:E; simpl; [|exact IH].
  apply String.eqb_eq in E. now subst.
Qed.

Lemma setOwn_absent (l : list string) (w : string) (v : freq) :
  existsb (String.eqb w) l = false ->
  setOwn (map (fun k => (k, g k)) l) w v
  = (map (fun k => (k, g k)) l ++ [(w, v)])%list.
Proof.
  induction l as [|k l IH]; simpl; [reflexivity|].
  destruct (String.eqb w k); simpl; [discriminate|].
  intros H. now rewrite IH.
Qed.

Lemma setOwn_present (l : list string) (w : string) (v : freq) :
  List.NoDup l -> In w l ->
  setOwn (map (fun k => (k, g k)) l) w v
  = map (fun k => (k, if String.eqb k w then v else g k)) l.
Proof.
  induction 1 as [|k l Hk Hl IH]; simpl; [tauto|].
  destruct (String.eqb w k) eqn:E.
  - intros _. apply String.eqb_eq in E. subst k. rewrite String.eqb_refl.
    f_equal. apply map_ext_in. intros k Hin.
    destruct (String.eqb k w) eqn:E'; [|reflexivity].
    apply String.eqb_eq in E'. now subst.
  - intros [->|Hin]; [now rewrite String.eqb_refl in E|].
    rewrite String.eqb_sym, E. now rewrite IH.
Qed.
End Keyed.

Lemma countWord_tally (ws : list string) (w : string) :
  inheritedName w = false -> countWord (tally ws) w = tally (ws ++ [w]).
Proof.
  unfold inheritedName. intros Hplain. apply orb_false_elim in Hplain as [Hc Hp].
  unfold countWord, tally. rewrite Hp, getOwn_keyed, firstOccurrences_snoc, map_app.
  destruct (existsb (String.eqb w) (firstOccurrences ws)) eqn:E.
  - assert (Hin : In w ws).
    { now apply In_firstOccurrences, existsb_eqb_In. }
    apply existsb_eqb_In in Hin as Hex. rewrite Hex. simpl map at 3.
    rewrite app_nil_r, setOwn_present.
    + apply map_ext. intros k. rewrite occurrences_snoc.
      destruct (String.eqb k w) eqn:Ek; [|now rewrite Nat.add_0_r].
      apply String.eqb_eq in Ek. now subst.
    + apply NoDup_firstOccurrences.
    + now apply In_firstOccurrences.
  - assert (Hex : existsb (String.eqb w) ws = false).
    { apply not_true_iff_false. rewrite existsb_eqb_In, <- In_firstOccurrences,
        <- existsb_eqb_In. congruence. }
    rewrite Hex, Hc, setOwn_absent by exact E. f_equal.
    + apply map_ext_in. intros k Hin. rewrite occurrences_snoc.
      destruct (String.eqb k w) eqn:Ek; [|now rewrite Nat.add_0_r].
      apply String.eqb_eq in Ek. subst k.
      apply existsb_eqb_In in Hin. congruence.
    + simpl. rewrite occurrences_snoc, String.eqb_refl.
      now rewrite occurrences_absent.
Qed.

Lemma fold_countWord_tally (ws : list string) :
  forallb (fun w => negb (inheritedName w)) ws = true ->
  fold_left countWord ws [] = tally ws.
Proof.
  induction ws as [|w ws IH] using rev_ind; [reflexivity|].
  rewrite forallb_app. intros H. apply andb_prop in H as [Hws Hw].
  simpl in Hw. rewrite andb_true_r in Hw. apply negb_true_iff in Hw.
  rewrite fold_left_app. simpl. rewrite IH by exact Hws.
  now apply countWord_tally.
Qed.

(** On plain words the code computes the keyed ranking. *)
Lemma extractKeywords_keyed (text : string) :
  plainWords text = true -> extractKeywords text = extract_keywords_keyed text.
Proof.
  intros Hplain. unfold extractKeywords, extract_keywords_keyed.
  rewrite fold_countWord_tally by exact Hplain.
  set (ws := words text). unfold tally, JS.ownEntries.
  set (f := fun k => (k, Count (occurrences k ws))).
  rewrite !filter_map_swap.
  rewrite (sort_map f (fun a b => (JS.digitsValue 0 b <? JS.digitsValue 0 a)%N))
    by reflexivity.
  rewrite <- map_app.
  rewrite (sort_map f (fewer ws)) by reflexivity.
  rewrite <- firstn_map, map_map. simpl. now rewrite map_id.
Qed.

Lemma filter_partition_Permutation {A : Type} (p : A -> bool) (l : list A) :
  Permutation (List.filter p l ++ List.filter (fun a => negb (p a)) l) l.
Proof.
  induction l as [|x l IH]; simpl; [constructor|].
  destruct (p x); simpl.
  - now constructor.
  - rewrite <- Permutation_middle. now constructor.
Qed.

Lemma keyOrder_Permutation (l : list string) : Permutation (keyOrder l) l.
Proof.
  unfold keyOrder. rewrite sort_Permutation. apply filter_partition_Permutation.
Qed.

Lemma keyOrder_plain (l : list string) :
  (forall k, In k l -> JS.isArrayIndex k = false) -> keyOrder l = l.
Proof.
  intros H. unfold keyOrder.
  assert (Hnone : List.filter JS.isArrayIndex l = []
                  /\ List.filter (fun k => negb (JS.isArrayIndex k)) l = l).
  { induction l as [|k l IH]; [now split|].
    simpl. rewrite (H k) by now left. simpl.
    destruct IH as [IH1 IH2]; [intros k' Hk'; apply H; now right|].
    now rewrite IH1, IH2. }
  destruct Hnone as [-> ->]. reflexivity.
Qed.

Lemma fewer_asym (ws : list string) (a b : string) :
  fewer ws a b = true -> fewer ws b a = false.
Proof. unfold fewer. rewrite Nat.ltb_lt, Nat.ltb_ge. lia. Qed.

Lemma fewer_chain (ws : list string) (a b c : string) :
  fewer ws a b = false -> fewer ws b c = false -> fewer ws a c = false.
Proof. unfold fewer. rewrite !Nat.ltb_ge. lia. Qed.

Lemma NoDup_firstn {A : Type} (n : nat) (l : list A) :
  List.NoDup l -> List.NoDup (firstn n l).
Proof.
  intros H. revert n. induction H as [|x l Hx Hl IH]; intros [|n]; simpl;
    try constructor.
  - intros Hin. apply Hx. now apply In_firstn in Hin.
  - apply IH.
Qed.

Lemma lowerChar_not_upper (c : ascii) : JS.isUpper (JS.lowerChar c) = false.
Proof. destruct c as [[] [] [] [] [] [] [] []]; reflexivity. Qed.

Lemma splitSpaces_pieces (p : ascii -> bool) (s : string) :
  allChars (fun c => JS.isSpace c || p c) s = true ->
  Forall (fun piece => allChars p piece = true) (JS.splitSpaces s).
Proof.
  induction s as [|c s IH]; simpl.
  - intros _. repeat constructor.
  - intros H. apply andb_prop in H as [Hc Hs]. specialize (IH Hs).
    destruct (JS.isSpace c) eqn:E.
    + destruct (JS.startsWithSpace s); [exact IH | now constructor].
    + simpl in Hc. destruct (JS.splitSpaces s) as [|piece pieces]; simpl.
      * repeat constructor. simpl. now rewrite Hc.
      * inversion IH as [|? ? Hpiece Hpieces]; subst.
        constructor; [|exact Hpieces]. simpl. now rewrite Hc, Hpiece.
Qed.

Lemma replaced_chars (text : string) :
  allChars (fun c => JS.isSpace c || lowerWordChar c)
    (JS.mapChars (fun c => if JS.isWord c || JS.isSpace c then c else " "%char)
                 (JS.toLowerCase text)) = true.
Proof.
  unfold JS.toLowerCase.
  induction text as [|c text IH]; [reflexivity|].
  simpl. rewrite IH, andb_true_r. unfold lowerWordChar.
  destruct (JS.isWord (JS.lowerChar c)) eqn:Ew; simpl.
  - now rewrite Ew, lowerChar_not_upper, orb_true_r.
  - destruct (JS.isSpace (JS.lowerChar c)) eqn:Es; [now rewrite Es | reflexivity].
Qed.

Lemma words_lower (text : string) :
  Forall (fun w => allChars lowerWordChar w = true
                   /\ (2 < String.length w)%nat
                   /\ has stopWords w = false)
         (words text).
Proof.
  pose proof (splitSpaces_pieces lowerWordChar _ (replaced_chars text)) as Hpieces.
  rewrite List.Forall_forall in Hpieces.
  unfold words. apply List.Forall_forall. intros w Hw.
  apply filter_In in Hw as [Hin Hkeep].
  apply andb_prop in Hkeep as [Hlen Hstop].
  apply Nat.ltb_lt in Hlen. apply negb_true_iff in Hstop.
  split; [now apply Hpieces | now split].
Qed.

(** C6 (amended).  For every text without the tokens [constructor] and
    [__proto__], [extractKeywords] returns the first 20 entries of a ranking
    of the distinct tokens of the text (the lower-case words of more than two
    characters that are not stop words): most frequent first, and equally
    frequent tokens in the key order of the frequency table, which lists
    tokens that are array indices first, in ascending numeric order, and the
    other tokens by first appearance.  When no token is an array index this
    is the order of first appearance. *)
Theorem extractKeywords_spec (text : string) :
  plainWords text = true ->
  let ws := words text in
  let ranking := JS.sort (fewer ws) (keyOrder (firstOccurrences ws)) in
  extractKeywords text = firstn 20 ranking
  /\ Forall (fun w => allChars lowerWordChar w = true
                      /\ (2 < String.length w)%nat
                      /\ has stopWords w = false) ws
  /\ Permutation ranking (firstOccurrences ws)
  /\ (forall w, In w ranking <-> In w ws)
  /\ List.NoDup (extractKeywords text)
  /\ (length (extractKeywords text) <= 20)%nat
  /\ StronglySorted (fun a b => (occurrences b ws <= occurrences a ws)%nat) ranking
  /\ (forall n,
        List.filter (fun w => (occurrences w ws =? n)%nat) ranking
        = List.filter (fun w => (occurrences w ws =? n)%nat)
                      (keyOrder (firstOccurrences ws)))
  /\ ((forall w, In w ws -> JS.isArrayIndex w = false) ->
      extractKeywords text = extract_keywords_spec text).
Proof.
  intros Hplain ws ranking.
  assert (Heq : extractKeywords text = firstn 20 ranking).
  { now apply extractKeywords_keyed. }
  assert (Hperm : Permutation ranking (firstOccurrences ws)).
  { subst ranking. rewrite sort_Permutation. apply keyOrder_Permutation. }
  assert (Hnodup : List.NoDup ranking).
  { eapply Permutation_NoDup; [symmetry; exact Hperm|].
    apply NoDup_firstOccurrences. }
  split; [exact Heq|]. split; [apply words_lower|]. split; [exact Hperm|].
  split; [|split; [|split; [|split; [|split]]]].
  - intros w. split; intros H.
    + apply In_firstOccurrences. eapply Permutation_in; [exact Hperm | exact H].
    + apply In_firstOccurrences in H.
      eapply Permutation_in; [symmetry; exact Hperm | exact H].
  - rewrite Heq. now apply NoDup_firstn.
  - rewrite Heq, length_firstn. lia.
  - eapply StronglySorted_weaken; [|apply (sort_sorted (fewer ws))].
    + intros a b Hab. unfold mayPrecede, fewer in Hab. now apply Nat.ltb_ge in Hab.
    + apply fewer_asym.
    + apply fewer_chain.
  - intros n. apply sort_stable. intros a b Ha Hb.
    apply Nat.eqb_eq in Ha, Hb. unfold fewer. apply Nat.ltb_ge. lia.
  - intros Hno. rewrite Heq. subst ranking. unfold extract_keywords_spec.
    fold ws. rewrite keyOrder_plain; [reflexivity|].
    intros k Hk. apply Hno. now apply In_firstOccurrences.
Qed.

Lemma extractKeywords_spec_witness :
  plainWords sampleText = true
  /\ extractKeywords sampleText
     = firstn 20 (JS.sort (fewer (words sampleText))
                          (keyOrder (firstOccurrences (words sampleText))))
  /\ extractKeywords sampleText = ["hello"; "world"; "100"; "2024"; "007"].
Proof.
  assert (Hplain : plainWords sampleText = true) by (vm_compute; reflexivity).
  split; [exact Hplain|]. split.
  - exact (proj1 (extractKeywords_spec sampleText Hplain)).
  - vm_compute. reflexivity.
Defined.

(** C6 fails as stated: [hello] appears before [2024] and both occur once,
    but [2024] is an array index, so the frequency table lists it first and
    the stable sort keeps it there. *)
Lemma extractKeywords_counterexample :
  words "hello 2024" = ["hello"; "2024"]
  /\ occurrences "hello" (words "hello 2024") = occurrences "2024" (words "hello 2024")
  /\ extract_keywords_spec "hello 2024" = ["hello"; "2024"]
  /\ extractKeywords "hello 2024" = ["2024"; "hello"]
  /\ extractKeywords "hello 2024" <> extract_keywords_spec "hello 2024".
Proof.
  repeat split; try (vm_compute; reflexivity).
  vm_compute. discriminate.
Qed.

(** The two inherited names, for the record: [__proto__] never becomes a key
    of the table, and the count of [constructor] is not a number. *)
Example inherited_names :
  extractKeywords "__proto__ pollution" = ["pollution"]
  /\ fold_left countWord (words "constructor constructor") []
     = [("constructor", NotANumber)].
Proof. split; vm_compute; reflexivity. Qed.

(** ** The cosine *)

Lemma square_nonneg (q : Q) : (0 <= q * q)%Q.
Proof. nra. Qed.

Lemma cosineLoop_inequality (a b : list Q) :
  forall d x y : Q,
    (0 <= x)%Q -> (0 <= y)%Q -> (d * d <= x * y)%Q ->
    let '(d', x', y') := cosineLoop a b (d, x, y) in
    (0 <= x')%Q /\ (0 <= y')%Q /\ (d' * d' <= x' * y')%Q.
Proof.
  revert b. induction a as [|ai a IH]; intros b d x y Hx Hy Hd.
  - simpl. auto.
  - cbn [cosineLoop]. set (bi := List.hd 0%Q b).
    assert (Ha2 : (0 <= ai * ai)%Q) by apply square_nonneg.
    assert (Hb2 : (0 <= bi * bi)%Q) by apply square_nonneg.
    assert (Hxb : (0 <= x * (bi * bi))%Q) by now apply Qmult_le_0_compat.
    assert (Hya : (0 <= y * (ai * ai))%Q) by now apply Qmult_le_0_compat.
    apply IH; [lra | lra |].
    set (u := (x * (bi * bi) + y * (ai * ai))%Q).
    set (v := (2 * d * ai * bi)%Q).
    assert (Hu : (0 <= u)%Q) by (subst u; lra).
    assert (Hgap : (0 <= (ai * bi) * (ai * bi) * (x * y - d * d))%Q).
    { apply Qmult_le_0_compat; [apply square_nonneg | lra]. }
    assert (Hsq : (0 <= (x * (bi * bi) - y * (ai * ai))
                        * (x * (bi * bi) - y * (ai * ai)))%Q)
      by apply square_nonneg.
    assert (Huv : (v * v <= u * u)%Q) by (subst u v; lra).
    assert (Hle : (v <= u)%Q).
    { destruct (Qlt_le_dec u v) as [Hlt|Hge]; [|exact Hge].
      exfalso. assert ((u * u < v * v)%Q) by nra. lra. }
    subst u v. lra.
Qed.

(** With a square root that is exact and positive on the two norms, the
    cosine lies between -1 and 1 (Cauchy-Schwarz). *)
Lemma cosineSimilarity_bounds (Math_sqrt : Q -> Q) (a b : list Q) :
  let '(_, normA, normB) := cosineLoop a b (0, 0, 0)%Q in
  (0 < Math_sqrt normA)%Q -> (0 < Math_sqrt normB)%Q ->
  (Math_sqrt normA * Math_sqrt normA == normA)%Q ->
  (Math_sqrt normB * Math_sqrt normB == normB)%Q ->
  (-1 <= cosineSimilarity Math_sqrt a b <= 1)%Q.
Proof.
  unfold cosineSimilarity.
  pose proof (cosineLoop_inequality a b 0 0 0) as H.
  destruct (cosineLoop a b (0, 0, 0)%Q) as [[d x] y].
  destruct H as (Hx & Hy & Hd); try nra.
  intros HA HB HAA HBB.
  set (sa := Math_sqrt x) in *. set (sb := Math_sqrt y) in *.
  assert (Hpos : (0 < sa * sb)%Q) by nra.
  assert (Hsq : (d * d <= (sa * sb) * (sa * sb))%Q).
  { rewrite <- HAA, <- HBB in Hd. nra. }
  split.
  - apply Qle_shift_div_l; [exact Hpos|]. nra.
  - apply Qle_shift_div_r; [exact Hpos|]. nra.
Qed.

(** ** The router on samples *)




(** ** The store and the chunker on samples *)

(** Removal of an unknown and of a known document from [catsStore]. *)
Lemma removeDocument_spec_witness :
  removeDocument "doc-9" catsStore = (Threw "Document not found", catsStore)
  /\ fst (removeDocument "doc-1" catsStore) = Returned
  /\ (forall chunk, In chunk (chunks (snd (removeDocument "doc-1" catsStore))) ->
        docId chunk <> "doc-1")
  /\ S (getDocumentCount (snd (removeDocument "doc-1" catsStore)))
     = getDocumentCount catsStore.
Proof.
  destruct (removeDocument_spec "doc-9" catsStore) as (_ & Hfail & _).
  destruct (removeDocument_spec "doc-1" catsStore) as (_ & _ & Hok).
  split.
  - apply Hfail. vm_compute. reflexivity.
  - destruct Hok as (H1 & H2 & _ & H4).
    + exists {| doc_id := "doc-1"; name := "cats.txt"; chunkCount := 1;
                addedAt := "2024-01-01T00:00:00.000Z" |}.
      vm_compute. reflexivity.
    + repeat split; assumption.
Defined.

(** After [sampleActions] the registry holds two documents, each with the one
    chunk it counts. *)
Lemma registry_index_consistent_witness :
  let this := serveAll unitEmbedder (map (requestOf defaultProcessor) sampleActions) in
  getDocumentCount this = 2%nat
  /\ (exists chunk, In chunk (chunks this) /\ docId chunk = "doc-2")
  /\ (exists chunk, In chunk (chunks this) /\ docId chunk = "doc-3")
  /\ (forall chunk, In chunk (chunks this) -> is_Some (documents this !! docId chunk)).
Proof.
  intros this.
  destruct (registry_index_consistent unitEmbedder
              (map (requestOf defaultProcessor) sampleActions)) as (Hc & _ & Hd).
  fold this in Hc, Hd.
  split; [vm_compute; reflexivity|]. split; [|split; [|exact Hc]].
  - apply (Hd "doc-2" {| doc_id := "doc-2"; name := "policy.txt"; chunkCount := 1;
                         addedAt := "2024-01-02T00:00:00.000Z" |}).
    + vm_compute. reflexivity.
    + simpl. lia.
  - apply (Hd "doc-3" {| doc_id := "doc-3"; name := "notes.txt"; chunkCount := 1;
                         addedAt := "2024-01-03T00:00:00.000Z" |}).
    + vm_compute. reflexivity.
    + simpl. lia.
Defined.

(** A text that fits becomes one chunk within the size; a text that is one
    long sentence becomes one chunk that holds it whole; and with a chunk
    size of 20 and an overlap of 5 the second chunk of the sample has 34
    characters: the last word of the first chunk and one sentence. *)
Lemma createChunks_content_witness :
  (exists chunk,
     createChunks defaultProcessor catsFile "Cats purr. Dogs bark." = [chunk]
     /\ (String.length (content chunk) <= chunkSize defaultProcessor)%nat)
  /\ (exists chunk,
        createChunks defaultProcessor catsFile longSentence = [chunk]
        /\ content chunk = longSentence)
  /\ (let this := newDocumentProcessor (Some 20) (Some 5) in
      let text := "a b c dddddddddddd. eeeeeeeeeeeeeeeeee." in
      exists first second,
        createChunks this catsFile text = [first; second]
        /\ String.length (content second) = 34%nat
        /\ carriesOne this (splitIntoSentences text) (Some first) second).
Proof.
  split; [|split].
  - destruct (createChunks_content defaultProcessor catsFile "Cats purr. Dogs bark.")
      as (_ & _ & Hfit & _).
    apply Hfit; [vm_compute; discriminate | vm_compute; lia].
  - destruct (createChunks_content defaultProcessor catsFile longSentence)
      as (_ & _ & _ & Hone).
    apply Hone. vm_compute. reflexivity.
  - cbv zeta.
    destruct (createChunks_content (newDocumentProcessor (Some 20) (Some 5)) catsFile
                "a b c dddddddddddd. eeeeeeeeeeeeeeeeee.") as (_ & Hsized & _).
    assert (E : exists first second,
      createChunks (newDocumentProcessor (Some 20) (Some 5)) catsFile
        "a b c dddddddddddd. eeeeeeeeeeeeeeeeee." = [first; second]
      /\ String.length (content second) = 34%nat).
    { do 2 eexists. split; vm_compute; reflexivity. }
    destruct E as (first & second & E & Hlen).
    exists first, second. split; [exact E|]. split; [exact Hlen|].
    rewrite E in Hsized. destruct (Hsized 1%nat second eq_refl) as [Hle | Hc].
    + rewrite Hlen in Hle. vm_compute in Hle. lia.
    + exact Hc.
Defined.

(** Two chunks whose scores are both 0.15 as real numbers: the sums of the
    first, 0.05 + 0.05 + 0.05, exceed 0.15 and are clamped; the sum of the
    second, 0.2 * 0.25 + 0.1, is rounded up.  The second chunk is ranked
    first. *)
Example greek_scores :
  map (fun hit => (Doubles.hitDocId hit, Doubles.vectorScore hit, Doubles.keywordScore hit,
                   Doubles.phraseBoost hit, Doubles.score hit))
      (Doubles.hybridSearch greekEmbedder greekIndex "alpha beta gamma delta epsilon" 8)
  = [ ("doc-2", 0, 0.2, 0.1, 0.15000000000000002);
      ("doc-1", 0, 0, 0.15000000000000002, 0.15) ]%float.
Proof. vm_compute. reflexivity. Qed.

(** The ranking of these two chunks, cut to one. *)
Lemma hybridSearch_ranking_witness :
  map Doubles.hitDocId
      (Doubles.hybridSearch greekEmbedder greekIndex "alpha beta gamma delta epsilon" 1)
  = ["doc-2"]
  /\ exists ranked : list Doubles.Hit,
       Doubles.hybridSearch greekEmbedder greekIndex "alpha beta gamma delta epsilon" 1
       = firstn 1 ranked
       /\ StronglySorted
            (fun a b => (Doubles.score b <=? Doubles.score a)%float = true) ranked.
Proof.
  split; [vm_compute; reflexivity|].
  destruct (hybridSearch_ranking greekEmbedder greekIndex
              "alpha beta gamma delta epsilon" 1)
    as (_ & ranked & Hfirst & _ & Hsorted & _).
  exists ranked. split; [exact Hfirst|]. apply Hsorted.
  vm_compute. repeat constructor.
Defined.

(** * Further properties of the code *)

(** ** The chunker: where the characters of a chunk come from *)

Lemma allChars_allSpaces (s : string) : allChars JS.isSpace s = JS.allSpaces s.
Proof. induction s as [|c s IH]; simpl; [reflexivity|]. now rewrite IH. Qed.

Lemma allChars_app (p : ascii -> bool) (a b : string) :
  allChars p (a ++ b) = allChars p a && allChars p b.
Proof.
  induction a as [|c a IH]; [reflexivity|].
  change (String c a ++ b) with (String c (a ++ b)).
  cbn [allChars]. now rewrite IH, andb_assoc.
Qed.

Section Characters.
Variable p : ascii -> bool.

Lemma normalizeLineEnds_chars (s : string) :
  allChars p s = true -> allChars p (normalizeLineEnds s) = true.
Proof.
  induction s as [|c s IH]; [reflexivity|].
  intros H. cbn [allChars] in H. apply andb_prop in H as [Hc Hs].
  cbn [normalizeLineEnds]. destruct s as [|c' s'].
  - simpl. now rewrite Hc.
  - destruct (Ascii.eqb c cr && Ascii.eqb c' nl); [now apply IH|].
    cbn [allChars]. rewrite Hc. now apply IH.
Qed.

Lemma collapseNewlines_chars (s : string) (run : nat) :
  allChars p s = true -> allChars p (collapseNewlines run s) = true.
Proof.
  revert run. induction s as [|c s IH]; intros run H; [reflexivity|].
  cbn [allChars] in H. apply andb_prop in H as [Hc Hs].
  cbn [collapseNewlines].
  destruct (Ascii.eqb c nl); [destruct (run <? 2)%nat|];
    cbn [allChars]; rewrite ?Hc; now apply IH.
Qed.

Lemma consHead_chars (c : ascii) (pieces : list string) :
  p c = true ->
  Forall (fun piece => allChars p piece = true) pieces ->
  Forall (fun piece => allChars p piece = true) (JS.consHead c pieces).
Proof.
  intros Hc Hp. destruct Hp as [|piece pieces Hpiece Hpieces]; simpl.
  - repeat constructor. simpl. now rewrite Hc.
  - constructor; [|exact Hpieces]. simpl. now rewrite Hc.
Qed.

Lemma splitSentenceEnds_chars (s : string) :
  forall mode prev,
    allChars p s = true ->
    Forall (fun piece => allChars p piece = true)
           (splitSentenceEnds mode prev s).
Proof.
  induction s as [|c s IH]; intros mode prev H.
  - repeat constructor.
  - cbn [allChars] in H. apply andb_prop in H as [Hc Hs].
    assert (Hscan : Forall (fun piece => allChars p piece = true)
      (if match prev with Some q => isTerminal q | None => false end
          && JS.isSpace c
       then "" :: splitSentenceEnds InSpaces (Some c) s
       else if Ascii.eqb c nl && startsWithNewline s
       then "" :: splitSentenceEnds InNewlines (Some c) s
       else JS.consHead c (splitSentenceEnds Scanning (Some c) s))).
    { destruct (_ && JS.isSpace c); [constructor; [reflexivity | now apply IH]|].
      destruct (Ascii.eqb c nl && startsWithNewline s).
      - constructor; [reflexivity | now apply IH].
      - apply consHead_chars; [exact Hc | now apply IH]. }
    cbn [splitSentenceEnds]. destruct mode.
    + exact Hscan.
    + destruct (JS.isSpace c); [now apply IH | exact Hscan].
    + destruct (Ascii.eqb c nl); [now apply IH | exact Hscan].
Qed.

Lemma dropSpaces_chars (s : string) :
  allChars p s = true -> allChars p (JS.dropSpaces s) = true.
Proof.
  induction s as [|c s IH]; [reflexivity|]. intros H.
  cbn [JS.dropSpaces]. destruct (JS.isSpace c); [|exact H].
  cbn [allChars] in H. apply andb_prop in H as [_ Hs]. now apply IH.
Qed.

Lemma dropSpacesEnd_chars (s : string) :
  allChars p s = true -> allChars p (JS.dropSpacesEnd s) = true.
Proof.
  induction s as [|c s IH]; [reflexivity|]. intros H.
  cbn [JS.dropSpacesEnd]. destruct (JS.allSpaces (String c s)); [reflexivity|].
  cbn [allChars] in *. apply andb_prop in H as [Hc Hs]. rewrite Hc. now apply IH.
Qed.

Lemma trim_chars (s : string) :
  allChars p s = true -> allChars p (JS.trim s) = true.
Proof. intros H. now apply dropSpacesEnd_chars, dropSpaces_chars. Qed.

Lemma splitIntoSentences_chars (text : string) :
  allChars p text = true ->
  Forall (fun sentence => allChars p sentence = true) (splitIntoSentences text).
Proof.
  intros H. unfold splitIntoSentences. apply List.Forall_forall.
  intros s Hs. apply filter_In in Hs as [Hs _].
  apply in_map_iff in Hs as (piece & <- & Hpiece). apply trim_chars.
  pose proof (splitSentenceEnds_chars
                (collapseNewlines 0 (normalizeLineEnds text)) Scanning None) as Hall.
  rewrite List.Forall_forall in Hall. apply Hall; [|exact Hpiece].
  now apply collapseNewlines_chars, normalizeLineEnds_chars.
Qed.

Lemma splitChar_chars (sep : ascii) (s : string) :
  allChars p s = true ->
  Forall (fun piece => allChars p piece = true) (JS.splitChar sep s).
Proof.
  induction s as [|c s IH]; intros H; [repeat constructor|].
  cbn [allChars] in H. apply andb_prop in H as [Hc Hs].
  cbn [JS.splitChar]. destruct (Ascii.eqb c sep).
  - constructor; [reflexivity | now apply IH].
  - apply consHead_chars; [exact Hc | now apply IH].
Qed.

Lemma join_chars (xs : list string) :
  p " "%char = true ->
  Forall (fun piece => allChars p piece = true) xs ->
  allChars p (JS.join " " xs) = true.
Proof.
  intros Hsp. induction 1 as [|x xs Hx Hxs IH]; [reflexivity|].
  destruct xs as [|y ys]; [exact Hx|].
  change (JS.join " " (x :: y :: ys)) with (x ++ " " ++ JS.join " " (y :: ys)).
  rewrite !allChars_app, Hx, IH. simpl. now rewrite Hsp.
Qed.

Lemma sliceLast_Forall {A : Type} (q : A -> Prop) (k : nat) (xs : list A) :
  Forall q xs -> Forall q (JS.sliceLast k xs).
Proof.
  intros H. unfold JS.sliceLast. destruct (k =? 0)%nat; [exact H|].
  rewrite List.Forall_forall in *. intros x Hx. apply H.
  rewrite <- (firstn_skipn (length xs - k) xs). apply in_app_iff. now right.
Qed.

Lemma overlapSeed_chars (this : DocumentProcessor) (buffer : string) :
  p " "%char = true ->
  allChars p buffer = true -> allChars p (overlapSeed this buffer) = true.
Proof.
  intros Hsp H. unfold overlapSeed. rewrite allChars_app.
  rewrite join_chars; [simpl; now rewrite Hsp | exact Hsp |].
  now apply sliceLast_Forall, splitChar_chars.
Qed.

Lemma chunkSentences_chars (this : DocumentProcessor) (md : SourceMeta)
      (sentences : list string) :
  p " "%char = true ->
  Forall (fun sentence => allChars p sentence = true) sentences ->
  Forall (fun chunk => allChars p (content chunk) = true)
         (chunkSentences this md sentences).
Proof.
  intros Hsp Hss. unfold chunkSentences, finish.
  assert (Hinv : forall st,
    Forall (fun chunk => allChars p (content chunk) = true) (chunks_acc st)
    /\ allChars p (currentChunk st) = true ->
    let st' := fold_left (chunkStep this md) sentences st in
    Forall (fun chunk => allChars p (content chunk) = true) (chunks_acc st')
    /\ allChars p (currentChunk st') = true).
  { induction Hss as [|s ss Hs Hss IH]; intros st Hst; [exact Hst|].
    cbn [fold_left]. apply IH. destruct Hst as [Hacc Hcur].
    unfold chunkStep.
    destruct (_ && nonEmpty (currentChunk st));
      cbn [chunks_acc currentChunk]; split.
    - apply Forall_app. split; [exact Hacc|]. constructor; [|constructor].
      simpl. now apply trim_chars.
    - rewrite !allChars_app, Hs, overlapSeed_chars by assumption.
      simpl. now rewrite Hsp.
    - exact Hacc.
    - rewrite !allChars_app, Hs, Hcur. simpl. now rewrite Hsp. }
  destruct (Hinv chunkerStart) as [Hacc Hcur]; [split; [constructor | reflexivity]|].
  destruct (nonEmpty _); [|exact Hacc].
  apply Forall_app. split; [exact Hacc|]. constructor; [|constructor].
  simpl. now apply trim_chars.
Qed.
End Characters.

(** X1.  Every character of every chunk is a character of the text or the
    space the chunker puts between sentences: whatever holds of all
    characters of the text, and of the space, holds of all characters of
    every chunk. *)
Theorem createChunks_characters
  (p : ascii -> bool) (this : DocumentProcessor) (md : SourceMeta) (text : string) :
  p " "%char = true ->
  allChars p text = true ->
  Forall (fun chunk => allChars p (content chunk) = true)
         (createChunks this md text).
Proof.
  intros Hsp Htext. unfold createChunks.
  apply chunkSentences_chars; [exact Hsp|].
  now apply splitIntoSentences_chars.
Qed.

Lemma createChunks_characters_witness :
  Forall (fun chunk => allChars (fun c => negb (JS.isUpper c)) (content chunk) = true)
         (createChunks (newDocumentProcessor (Some 20) (Some 5)) catsFile
            "a b c dddddddddddd. eeeeeeeeeeeeeeeeee.").
Proof.
  apply createChunks_characters; reflexivity.
Defined.

Lemma splitIntoSentences_blank (text : string) :
  JS.allSpaces text = true -> splitIntoSentences text = [].
Proof.
  intros H. rewrite <- allChars_allSpaces in H.
  pose proof (splitIntoSentences_chars JS.isSpace text H) as Hsp.
  pose proof (splitIntoSentences_solid text) as Hsolid.
  destruct (splitIntoSentences text) as [|s ss]; [reflexivity|].
  inversion Hsp as [|? ? Hs _]; inversion Hsolid as [|? ? Hs' _]; subst.
  rewrite allChars_allSpaces in Hs. congruence.
Qed.

(** X2.  A text of white space only, the empty text included, has no
    sentence and yields no chunk. *)
Theorem createChunks_blank
  (this : DocumentProcessor) (md : SourceMeta) (text : string) :
  JS.allSpaces text = true ->
  splitIntoSentences text = [] /\ createChunks this md text = [].
Proof.
  intros H. pose proof (splitIntoSentences_blank text H) as Hnone.
  split; [exact Hnone|]. unfold createChunks. now rewrite Hnone.
Qed.

Lemma createChunks_blank_witness :
  createChunks defaultProcessor catsFile "" = []
  /\ createChunks defaultProcessor catsFile (String nl (String cr "   ")) = [].
Proof.
  split.
  - apply (createChunks_blank defaultProcessor catsFile ""). reflexivity.
  - apply (createChunks_blank defaultProcessor catsFile (String nl (String cr "   "))).
    reflexivity.
Defined.

(** ** The chunker: how many chunks, and what they hold *)

Section ChunkCount.
Variable this : DocumentProcessor.
Variable md : SourceMeta.

Lemma chunkStep_count (st : chunkerState) (sentence : string) (n : nat) :
  JS.allSpaces sentence = false ->
  (currentChunk st = "" /\ chunks_acc st = [] \/
   JS.allSpaces (currentChunk st) = false /\ (length (chunks_acc st) < n)%nat) ->
  let st' := chunkStep this md st sentence in
  JS.allSpaces (currentChunk st') = false
  /\ (length (chunks_acc st') < S n)%nat.
Proof.
  intros Hs Hst. unfold chunkStep. split.
  - cbn [currentChunk]. rewrite !allSpaces_app, Hs. now rewrite andb_false_r.
  - destruct Hst as [[Hcur Hacc] | [Hcur Hlen]].
    + rewrite Hcur. cbn [nonEmpty]. rewrite andb_false_r.
      cbn [chunks_acc]. rewrite Hacc. simpl. lia.
    + destruct (_ && nonEmpty (currentChunk st)); cbn [chunks_acc].
      * rewrite length_app. simpl. lia.
      * lia.
Qed.

Lemma fold_count (sentences : list string) :
  Forall (fun sentence => JS.allSpaces sentence = false) sentences ->
  forall (st : chunkerState) (n : nat),
    (currentChunk st = "" /\ chunks_acc st = [] \/
     JS.allSpaces (currentChunk st) = false /\ (length (chunks_acc st) < n)%nat) ->
    sentences <> [] ->
    let st' := fold_left (chunkStep this md) sentences st in
    JS.allSpaces (currentChunk st') = false
    /\ (length (chunks_acc st') < n + length sentences)%nat.
Proof.
  induction 1 as [|s ss Hs Hss IH]; intros st n Hst Hne; [congruence|].
  cbn [fold_left].
  pose proof (chunkStep_count st s n Hs Hst) as Hstep. cbv zeta in Hstep.
  destruct ss as [|s' ss'].
  - cbn [fold_left length]. destruct Hstep as [H1 H2]. split; [exact H1|]. lia.
  - destruct (IH (chunkStep this md st s) (S n)) as [H1 H2].
    + now right.
    + discriminate.
    + split; [exact H1|]. cbn [length] in *. lia.
Qed.

Lemma chunkSentences_count (sentences : list string) :
  Forall (fun sentence => JS.allSpaces sentence = false) sentences ->
  (length (chunkSentences this md sentences) <= length sentences)%nat
  /\ (sentences <> [] -> chunkSentences this md sentences <> []).
Proof.
  intros Hss. destruct sentences as [|s ss]; [split; [simpl; lia | congruence]|].
  destruct (fold_count (s :: ss) Hss chunkerStart 0) as [Hcur Hlen];
    [left; now split | discriminate |].
  unfold chunkSentences, finish.
  rewrite trim_nonEmpty, Hcur. cbn [negb]. split.
  - rewrite length_app. simpl in *. lia.
  - intros _ H. apply (f_equal (@length RawChunk)) in H.
    rewrite length_app in H. simpl in H. lia.
Qed.
End ChunkCount.

(** X3.  The chunker makes at most one chunk per sentence, and at least one
    chunk as soon as the text has a sentence: it yields no chunk exactly when
    the text has no sentence. *)
Theorem createChunks_count
  (this : DocumentProcessor) (md : SourceMeta) (text : string) :
  (length (createChunks this md text) <= length (splitIntoSentences text))%nat
  /\ (createChunks this md text = [] <-> splitIntoSentences text = []).
Proof.
  destruct (chunkSentences_count this md (splitIntoSentences text)
              (splitIntoSentences_solid text)) as [Hle Hne].
  fold (createChunks this md text) in Hle, Hne.
  split; [exact Hle|]. split.
  - intros Hnil. destruct (splitIntoSentences text) as [|s ss] eqn:E; [reflexivity|].
    exfalso. apply Hne; [discriminate | exact Hnil].
  - intros Hnil. unfold createChunks. now rewrite Hnil.
Qed.

Lemma substring_prefix_app (t post : string) :
  String.substring 0 (String.length t) (t ++ post) = t.
Proof.
  induction t as [|c t IH]; [now destruct post|].
  change (String c t ++ post) with (String c (t ++ post)).
  simpl. now rewrite IH.
Qed.

Lemma prefix_app (t post : string) : String.prefix t (t ++ post) = true.
Proof. apply String.prefix_correct, substring_prefix_app. Qed.

Lemma includes_unfold (s t : string) :
  JS.includes s t
  = String.prefix t s
    || match s with
       | EmptyString => false
       | String _ s' => JS.includes s' t
       end.
Proof. now destruct s. Qed.

Lemma appearsIn_includes (s buffer : string) :
  appearsIn s buffer -> JS.includes buffer s = true.
Proof.
  intros (pre & post & ->). induction pre as [|c pre IH].
  - rewrite includes_unfold. change ("" ++ s ++ post) with (s ++ post).
    now rewrite prefix_app.
  - change (String c pre ++ s ++ post) with (String c (pre ++ s ++ post)).
    rewrite includes_unfold, IH. apply orb_true_r.
Qed.

Lemma lastIsSpace_solid (s : string) :
  lastIsSpace s = false -> s <> "" -> JS.allSpaces s = false.
Proof.
  induction s as [|c s IH]; [congruence|]. intros Hlast _.
  destruct s as [|c' s'].
  - simpl in *. now rewrite Hlast.
  - change (JS.isSpace c && JS.allSpaces (String c' s') = false).
    rewrite IH; [apply andb_false_r | exact Hlast | discriminate].
Qed.

Lemma dropSpaces_keeps (s pre post : string) :
  JS.startsWithSpace s = false -> s <> "" ->
  exists pre', JS.dropSpaces (pre ++ s ++ post) = pre' ++ s ++ post.
Proof.
  intros Hstart Hne. induction pre as [|c pre IH].
  - exists "". change ("" ++ s ++ post) with (s ++ post).
    apply dropSpaces_fixed. destruct s as [|c s]; [congruence | exact Hstart].
  - change (String c pre ++ s ++ post) with (String c (pre ++ s ++ post)).
    cbn [JS.dropSpaces]. destruct (JS.isSpace c); [exact IH|].
    now exists (String c pre).
Qed.

Lemma dropSpacesEnd_app_solid (a b : string) :
  JS.allSpaces b = false -> JS.dropSpacesEnd (a ++ b) = a ++ JS.dropSpacesEnd b.
Proof.
  intros Hb. induction a as [|c a IH]; [reflexivity|].
  change (String c a ++ b) with (String c (a ++ b)).
  cbn [JS.dropSpacesEnd].
  assert (H : JS.allSpaces (String c (a ++ b)) = false).
  { cbn [JS.allSpaces]. rewrite allSpaces_app, Hb. now rewrite !andb_false_r. }
  rewrite H, IH. reflexivity.
Qed.

Lemma dropSpacesEnd_keeps (s post : string) :
  lastIsSpace s = false -> s <> "" ->
  exists post', JS.dropSpacesEnd (s ++ post) = s ++ post'.
Proof.
  induction s as [|c s IH]; [congruence|]. intros Hlast _.
  change (String c s ++ post) with (String c (s ++ post)).
  cbn [JS.dropSpacesEnd].
  assert (H : JS.allSpaces (String c (s ++ post)) = false).
  { change (String c (s ++ post)) with (String c s ++ post).
    rewrite allSpaces_app, (lastIsSpace_solid (String c s)); [reflexivity | exact Hlast | discriminate]. }
  rewrite H. destruct s as [|c' s'].
  - exists (JS.dropSpacesEnd post). reflexivity.
  - destruct IH as [post' Hpost']; [exact Hlast | discriminate |].
    exists post'. now rewrite Hpost'.
Qed.

(** Trimming a buffer keeps every trimmed sentence it holds. *)
Lemma trim_keeps (s buffer : string) :
  trimmed s -> s <> "" -> appearsIn s buffer -> appearsIn s (JS.trim buffer).
Proof.
  intros (_ & Hstart & Hlast) Hne (pre & post & ->). unfold JS.trim.
  destruct (dropSpaces_keeps s pre post Hstart Hne) as [pre' ->].
  rewrite dropSpacesEnd_app_solid.
  - destruct (dropSpacesEnd_keeps s post Hlast Hne) as [post' ->].
    now exists pre', post'.
  - rewrite allSpaces_app, (lastIsSpace_solid s Hlast Hne). reflexivity.
Qed.

Lemma appearsIn_solid (s buffer : string) :
  JS.allSpaces s = false -> appearsIn s buffer -> JS.allSpaces buffer = false.
Proof.
  intros Hs (pre & post & ->). rewrite !allSpaces_app, Hs.
  now rewrite andb_false_r.
Qed.

Lemma splitIntoSentences_trimmed (text : string) :
  Forall (fun sentence => trimmed sentence /\ sentence <> "")
         (splitIntoSentences text).
Proof.
  unfold splitIntoSentences. apply List.Forall_forall. intros s Hs.
  apply filter_In in Hs as [Hin Hne].
  apply in_map_iff in Hin as (x & <- & _).
  split; [apply trim_trimmed|]. intros E. rewrite E in Hne. discriminate.
Qed.

Section Coverage.
Variable this : DocumentProcessor.
Variable md : SourceMeta.

Lemma kept_step (st : chunkerState) (sentence s : string) :
  trimmed s -> s <> "" ->
  kept (chunks_acc st) (currentChunk st) s \/ s = sentence ->
  let st' := chunkStep this md st sentence in
  kept (chunks_acc st') (currentChunk st') s.
Proof.
  intros Htrim Hne Hs. unfold chunkStep.
  destruct Hs as [[(chunk & Hin & Happ) | Hbuf] | ->].
  - left. exists chunk. split; [|exact Happ].
    destruct (_ && nonEmpty (currentChunk st)); cbn [chunks_acc]; [|exact Hin].
    apply in_app_iff. now left.
  - destruct (_ && nonEmpty (currentChunk st)); cbn [chunks_acc currentChunk].
    + left. exists (makeChunk this md (currentChunk st) (nextIndex st)).
      split; [apply in_app_iff; right; now left|].
      simpl. now apply trim_keeps.
    + right. destruct Hbuf as (pre & post & ->).
      exists pre, (post ++ sentence ++ " "). now rewrite !append_assoc.
  - right. cbn [currentChunk]. eexists _, " ". reflexivity.
Qed.

Lemma kept_fold (sentences : list string) (s : string) :
  trimmed s -> s <> "" ->
  forall st,
    kept (chunks_acc st) (currentChunk st) s \/ In s sentences ->
    let st' := fold_left (chunkStep this md) sentences st in
    kept (chunks_acc st') (currentChunk st') s.
Proof.
  intros Htrim Hne. induction sentences as [|x xs IH]; intros st Hs.
  - simpl. destruct Hs as [Hs | []]. exact Hs.
  - cbn [fold_left]. apply IH.
    destruct Hs as [Hs | [-> | Hs]].
    + left. apply kept_step; auto.
    + left. apply kept_step; auto.
    + now right.
Qed.

Lemma chunkSentences_covers (sentences : list string) (s : string) :
  trimmed s -> s <> "" -> In s sentences ->
  exists chunk, In chunk (chunkSentences this md sentences)
                /\ JS.includes (content chunk) s = true.
Proof.
  intros Htrim Hne Hin.
  pose proof (kept_fold sentences s Htrim Hne chunkerStart (or_intror Hin)) as Hk.
  cbv zeta in Hk. unfold chunkSentences, finish.
  set (st := fold_left (chunkStep this md) sentences chunkerStart) in *.
  assert (Hsolid : JS.allSpaces s = false).
  { destruct Htrim as (_ & _ & Hlast). now apply lastIsSpace_solid. }
  destruct Hk as [(chunk & Hc & Happ) | Hbuf].
  - exists chunk. split; [|now apply appearsIn_includes].
    destruct (nonEmpty _); [apply in_app_iff; now left | exact Hc].
  - rewrite trim_nonEmpty, (appearsIn_solid s _ Hsolid Hbuf). cbn [negb].
    exists (makeChunk this md (currentChunk st) (nextIndex st)).
    split; [apply in_app_iff; right; now left|].
    apply appearsIn_includes. simpl. now apply trim_keeps.
Qed.
End Coverage.

(** X4.  No sentence is lost: every sentence of the text occurs, whole, in
    the content of at least one chunk. *)
Theorem createChunks_covers
  (this : DocumentProcessor) (md : SourceMeta) (text : string) :
  Forall (fun sentence =>
            exists chunk, In chunk (createChunks this md text)
                          /\ JS.includes (content chunk) sentence = true)
         (splitIntoSentences text).
Proof.
  apply List.Forall_forall. intros s Hs.
  pose proof (splitIntoSentences_trimmed text) as Htrim.
  rewrite List.Forall_forall in Htrim. destruct (Htrim s Hs) as [Ht Hne].
  now apply chunkSentences_covers.
Qed.

(** ** The index: adding, removing, searching *)

Lemma skipn_app_exact {A : Type} (l k : list A) : skipn (length l) (l ++ k) = k.
Proof. induction l as [|x l IH]; simpl; [reflexivity | exact IH]. Qed.

(** X5.  [addDocument] appends the given chunks to the index in their order,
    each stamped with the document id, so the chunk count grows by exactly
    their number.  The document count grows by one when the id is new and
    stays when it is not (the entry is replaced and the chunks added before
    under that id stay in the index); other entries are untouched. *)
Theorem addDocument_effect
  (embedder : string -> list Q) (d nm : string) (input : list RawChunk)
  (now : string) (this : VectorStore) :
  let after := addDocument embedder d nm input now this in
  getChunkCount after = (getChunkCount this + length input)%nat
  /\ firstn (length (chunks this)) (chunks after) = chunks this
  /\ map raw (skipn (length (chunks this)) (chunks after)) = input
  /\ Forall (fun chunk => docId chunk = d)
            (skipn (length (chunks this)) (chunks after))
  /\ (documents this !! d = None ->
      getDocumentCount after = S (getDocumentCount this))
  /\ (is_Some (documents this !! d) ->
      getDocumentCount after = getDocumentCount this)
  /\ (forall d', d' <> d -> documents after !! d' = documents this !! d').
Proof.
  intros after. subst after. unfold getChunkCount, getDocumentCount.
  rewrite addDocument_chunks, addDocument_documents.
  split; [now rewrite length_app, length_map|].
  split; [now rewrite firstn_app, Nat.sub_diag, firstn_all, app_nil_r|].
  rewrite skipn_app_exact.
  split; [rewrite map_map; simpl; apply map_id|].
  split; [apply List.Forall_forall; intros c Hc;
          apply in_map_iff in Hc as (x & <- & _); reflexivity|].
  split; [intros Hnone; now apply map_size_insert_None|].
  split; [intros Hsome; now apply map_size_insert_Some|].
  intros d' Hne. apply lookup_insert_ne. congruence.
Qed.

Lemma filter_none {A : Type} (f : A -> bool) (l : list A) :
  (forall x, In x l -> f x = false) -> List.filter f l = [].
Proof.
  induction l as [|x l IH]; intros H; simpl; [reflexivity|].
  rewrite (H x) by now left. apply IH. intros y Hy. apply H. now right.
Qed.

Lemma filter_all {A : Type} (f : A -> bool) (l : list A) :
  (forall x, In x l -> f x = true) -> List.filter f l = l.
Proof.
  induction l as [|x l IH]; intros H; simpl; [reflexivity|].
  rewrite (H x) by now left. f_equal. apply IH. intros y Hy. apply H. now right.
Qed.

Lemma remove_after_add (embedder : string -> list Q) (d nm : string)
      (input : list RawChunk) (now : string) (this : VectorStore) :
  consistent this ->
  documents this !! d = None ->
  removeDocument d (addDocument embedder d nm input now this) = (Returned, this).
Proof.
  intros [Hc _] Hnone. unfold removeDocument.
  rewrite addDocument_documents, lookup_insert_eq, addDocument_chunks.
  rewrite delete_insert_id by exact Hnone.
  rewrite List.filter_app, (filter_all _ (chunks this)), filter_none, app_nil_r.
  - now destruct this.
  - intros c Hin. apply in_map_iff in Hin as (x & <- & _).
    simpl. now rewrite String.eqb_refl.
  - intros c Hin. apply negb_true_iff, String.eqb_neq. intros Heq.
    destruct (Hc c Hin) as [info Hinfo]. rewrite Heq in Hinfo. congruence.
Qed.

(** X6.  In every reachable state, adding a document under an id that is not
    registered and then removing that id gives back the store as it was:
    the chunks, their order and the registry. *)
Theorem add_then_remove
  (embedder : string -> list Q) (rs : list request) (d nm : string)
  (input : list RawChunk) (now : string) :
  let this := serveAll embedder rs in
  documents this !! d = None ->
  removeDocument d (addDocument embedder d nm input now this) = (Returned, this).
Proof.
  intros this Hnone. apply remove_after_add; [|exact Hnone].
  apply consistent_serveAll.
Qed.

Lemma add_then_remove_witness :
  documents catsStore !! "doc-2" = None
  /\ removeDocument "doc-2"
       (addDocument unitEmbedder "doc-2" "policy.txt"
          (createChunks defaultProcessor policyFile "Limits apply. Ask first.")
          "2024-01-02T00:00:00.000Z" catsStore)
     = (Returned, catsStore).
Proof.
  assert (H : documents catsStore !! "doc-2" = None) by (vm_compute; reflexivity).
  split; [exact H|].
  exact (add_then_remove unitEmbedder
           [Add "doc-1" "cats.txt" (createChunks defaultProcessor catsFile "cats purr")
                "2024-01-01T00:00:00.000Z"]
           "doc-2" "policy.txt"
           (createChunks defaultProcessor policyFile "Limits apply. Ask first.")
           "2024-01-02T00:00:00.000Z" H).
Defined.

(** X7.  Hybrid search returns exactly [min(k, number of chunks)] hits: it
    never returns more than [k], and it returns fewer only when the index
    holds fewer chunks. *)
Theorem hybridSearch_length
  (embedder : string -> list Q) (Math_sqrt : Q -> Q)
  (query : string) (topK : nat) (this : VectorStore) :
  length (hybridSearch embedder Math_sqrt query topK this)
  = Nat.min topK (getChunkCount this).
Proof.
  unfold hybridSearch, getChunkCount, scoreAll.
  destruct (chunks this) as [|c cs] eqn:E.
  - simpl. lia.
  - cbn [length Nat.eqb].
    rewrite length_firstn, (Permutation_length (sort_Permutation scoresLess _)).
    now rewrite length_map.
Qed.

Section SortFilter.
Context {A : Type} (after : A -> A -> bool).
Hypothesis after_asym : forall x y, after x y = true -> after y x = false.
Hypothesis after_chain :
  forall x y z, after x y = false -> after y z = false -> after x z = false.

Lemma insert_front (x : A) (l : list A) :
  Forall (fun z => after x z = false) l -> JS.insert after x l = x :: l.
Proof. intros H. destruct H as [|z l Hz Hl]; simpl; [reflexivity | now rewrite Hz]. Qed.

Lemma filter_insert (P : A -> bool) (x : A) (l : list A) :
  StronglySorted (mayPrecede after) l ->
  List.filter P (JS.insert after x l)
  = if P x then JS.insert after x (List.filter P l) else List.filter P l.
Proof.
  induction 1 as [|y l Hl IH Hy]; simpl.
  - now destruct (P x).
  - destruct (after x y) eqn:Hxy.
    + simpl. rewrite IH. destruct (P x), (P y); simpl; try reflexivity.
      now rewrite Hxy.
    + simpl. destruct (P x); [|reflexivity]. f_equal.
      symmetry.
      change (if P y then y :: List.filter P l else List.filter P l)
        with (List.filter P (y :: l)).
      apply insert_front. apply List.Forall_forall. intros z Hz.
      apply filter_In in Hz as [[<- | Hz] _]; [exact Hxy|].
      rewrite List.Forall_forall in Hy.
      apply (after_chain x y z Hxy). now apply Hy.
Qed.

(** Sorting and then dropping elements is dropping them and then sorting. *)
Lemma sort_filter (P : A -> bool) (l : list A) :
  List.filter P (JS.sort after l) = JS.sort after (List.filter P l).
Proof.
  induction l as [|x l IH]; [reflexivity|].
  simpl. rewrite filter_insert by now apply sort_sorted.
  rewrite IH. now destruct (P x).
Qed.
End SortFilter.

Lemma hybridSearch_after_removal
      (embedder : string -> list Q) (Math_sqrt : Q -> Q)
      (query : string) (topK : nat) (this : VectorStore) (d : string) :
  is_Some (documents this !! d) ->
  hybridSearch embedder Math_sqrt query topK (snd (removeDocument d this))
  = firstn topK
      (List.filter (fun hit => negb (String.eqb (hitDocId hit) d))
         (JS.sort scoresLess (scoreAll embedder Math_sqrt query this))).
Proof.
  intros [info Hinfo]. unfold removeDocument. rewrite Hinfo. cbn [snd].
  rewrite (sort_filter scoresLess scoresLess_asym scoresLess_chain).
  unfold hybridSearch, scoreAll. cbn [chunks].
  rewrite (filter_map_swap
             (scoreChunk Math_sqrt (generateEmbedding embedder query)
                         (extractKeywords query))
             (fun hit => negb (String.eqb (hitDocId hit) d))).
  cbn [scoreChunk hitDocId].
  destruct (List.filter _ (chunks this)) as [|c cs]; [|reflexivity].
  simpl. now rewrite firstn_nil.
Qed.

(** X8.  Deleting a document removes its chunks from every later search and
    leaves the rest of the ranking alone: the hits after the removal are the
    first [k] of the old ranking with the hits of that document struck out,
    so the other chunks keep their scores and their relative order. *)
Theorem removeDocument_isolation
  (embedder : string -> list Q) (Math_sqrt : Q -> Q)
  (query : string) (topK : nat) (this : VectorStore) (d : string) :
  is_Some (documents this !! d) ->
  let hits := hybridSearch embedder Math_sqrt query topK
                (snd (removeDocument d this)) in
  hits = firstn topK
           (List.filter (fun hit => negb (String.eqb (hitDocId hit) d))
              (JS.sort scoresLess (scoreAll embedder Math_sqrt query this)))
  /\ Forall (fun hit => hitDocId hit <> d) hits.
Proof.
  intros Hd hits. subst hits.
  rewrite hybridSearch_after_removal by exact Hd.
  split; [reflexivity|]. apply List.Forall_forall. intros hit Hin.
  apply In_firstn, filter_In in Hin as [_ Hne].
  now apply negb_true_iff, String.eqb_neq in Hne.
Qed.

Lemma removeDocument_isolation_witness :
  is_Some (documents catsTwice !! "doc-1")
  /\ map hitDocId (hybridSearch unitEmbedder exactRoot "cats purr" 8 catsTwice)
     = ["doc-1"; "doc-2"]
  /\ map hitDocId
       (hybridSearch unitEmbedder exactRoot "cats purr" 8
          (snd (removeDocument "doc-1" catsTwice)))
     = ["doc-2"]
  /\ Forall (fun hit => hitDocId hit <> "doc-1")
       (hybridSearch unitEmbedder exactRoot "cats purr" 8
          (snd (removeDocument "doc-1" catsTwice))).
Proof.
  assert (H : is_Some (documents catsTwice !! "doc-1")).
  { eexists. vm_compute. reflexivity. }
  split; [exact H|]. split; [vm_compute; reflexivity|].
  split; [vm_compute; reflexivity|].
  exact (proj2 (removeDocument_isolation unitEmbedder exactRoot "cats purr" 8
                  catsTwice "doc-1" H)).
Defined.

(** ** The search by vectors *)






(** ** Queries without keywords *)

Lemma scoreChunk_no_keywords (queryEmbedding : list float) (chunk : Doubles.Chunk) :
  let hit := Doubles.scoreChunk queryEmbedding [] chunk in
  Doubles.keywordScore hit = 0%float
  /\ Doubles.phraseBoost hit = 0%float
  /\ Doubles.score hit = (Doubles.vectorScore hit * 0.6 + 0 + 0)%float.
Proof. cbv zeta. repeat split. Qed.

(** X10.  For a query without keywords (only stop words, short words or
    punctuation) every hit of hybrid search has keyword score 0 and phrase
    boost 0, its vector score is the cosine of the query embedding and the
    embedding of its chunk, and its score is that cosine times 0.6, rounded,
    plus 0 twice.  The rounding can merge two cosines, so the order need not
    be the order of [vectorSearch]: with the cosines 0.8944271909999157 and
    0.8944271909999159, stored in this order, both scores are
    0.5366563145999494 and hybrid search keeps the order of insertion, where
    [vectorSearch] puts the second chunk first. *)
Theorem hybridSearch_without_keywords :
  (forall (embedder : string -> list float) (chunks : list Doubles.Chunk)
          (query : string) (topK : nat) (hit : Doubles.Hit),
     extractKeywords query = [] ->
     In hit (Doubles.hybridSearch embedder chunks query topK) ->
     Doubles.keywordScore hit = 0%float
     /\ Doubles.phraseBoost hit = 0%float
     /\ Doubles.score hit = (Doubles.vectorScore hit * 0.6 + 0 + 0)%float
     /\ exists chunk, In chunk chunks
          /\ Doubles.hitChunk hit = Doubles.raw chunk
          /\ Doubles.vectorScore hit
             = Doubles.cosineSimilarity (Doubles.generateEmbedding embedder query)
                                        (Doubles.embedding chunk))
  /\ (extractKeywords "is it" = []
      /\ map (fun hit => (Doubles.hitDocId hit, Doubles.vectorScore hit, Doubles.score hit))
             (Doubles.hybridSearch nearEmbedder nearIndex "is it" 8)
         = [ ("doc-1", 0.8944271909999157, 0.5366563145999494);
             ("doc-2", 0.8944271909999159, 0.5366563145999494) ]%float
      /\ map (fun s => (Doubles.docId (Doubles.similarChunk s), Doubles.similarity s))
             (Doubles.vectorSearch nearEmbedder nearIndex "is it" 8)
         = [ ("doc-2", 0.8944271909999159); ("doc-1", 0.8944271909999157) ]%float).
Proof.
  split.
  - intros embedder chunks query topK hit Hq Hin.
    unfold Doubles.hybridSearch, Doubles.scoreAll in Hin.
    destruct (length chunks =? 0)%nat; [destruct Hin|].
    apply (In_firstn topK) in Hin.
    eapply Permutation_in in Hin; [|apply sort_Permutation].
    apply in_map_iff in Hin as (chunk & <- & Hc). rewrite Hq.
    destruct (scoreChunk_no_keywords (Doubles.generateEmbedding embedder query) chunk)
      as (H1 & H2 & H3).
    repeat (split; [assumption|]). exists chunk. repeat split. exact Hc.
  - repeat split; vm_compute; reflexivity.
Qed.

(** The two chunks of the sample, searched with a query of stop words. *)
Lemma hybridSearch_without_keywords_witness :
  extractKeywords "is it" = []
  /\ Forall (fun hit =>
               Doubles.keywordScore hit = 0%float
               /\ Doubles.phraseBoost hit = 0%float
               /\ Doubles.score hit = (Doubles.vectorScore hit * 0.6 + 0 + 0)%float)
            (Doubles.hybridSearch nearEmbedder nearIndex "is it" 8).
Proof.
  split; [reflexivity|].
  apply List.Forall_forall. intros hit Hin.
  destruct (proj1 hybridSearch_without_keywords nearEmbedder nearIndex "is it" 8 hit
              eq_refl Hin) as (H1 & H2 & H3 & _).
  repeat split; assumption.
Defined.

(** ** Keywords of any text *)

Lemma setOwn_keys (props : list (string * freq)) (k : string) (v : freq) :
  map fst (setOwn props k v)
  = if existsb (String.eqb k) (map fst props) then map fst props
    else (map fst props ++ [k])%list.
Proof.
  induction props as [|[k' v'] props IH]; [reflexivity|].
  simpl. destruct (String.eqb k k'); simpl; [reflexivity|].
  rewrite IH. now destruct (existsb (String.eqb k) (map fst props)).
Qed.

Lemma getOwn_keys (props : list (string * freq)) (k : string) :
  getOwn props k = None <-> existsb (String.eqb k) (map fst props) = false.
Proof.
  induction props as [|[k' v'] props IH]; simpl; [tauto|].
  destruct (String.eqb k k'); simpl; [split; discriminate | exact IH].
Qed.

Lemma countWord_keys (t : list (string * freq)) (w : string) :
  map fst (countWord t w) = map fst t
  \/ (~ In w (map fst t) /\ map fst (countWord t w) = (map fst t ++ [w])%list).
Proof.
  unfold countWord. destruct (String.eqb w "__proto__"); [now left|].
  destruct (getOwn t w) as [[n|]|] eqn:E.
  - left. rewrite setOwn_keys.
    destruct (existsb (String.eqb w) (map fst t)) eqn:Ex; [reflexivity|].
    apply getOwn_keys in Ex. congruence.
  - now left.
  - apply getOwn_keys in E. right. split.
    + rewrite <- existsb_eqb_In. congruence.
    + destruct (String.eqb w "constructor"); now rewrite setOwn_keys, E.
Qed.

Lemma fold_countWord_keys (ws : list string) :
  forall t : list (string * freq),
    List.NoDup (map fst t) ->
    let t' := fold_left countWord ws t in
    List.NoDup (map fst t')
    /\ forall k, In k (map fst t') -> In k (map fst t) \/ In k ws.
Proof.
  induction ws as [|w ws IH]; intros t Hnd; [simpl; auto|].
  cbn [fold_left].
  assert (Hnd' : List.NoDup (map fst (countWord t w))).
  { destruct (countWord_keys t w) as [-> | [Hnew ->]]; [exact Hnd|].
    apply List.NoDup_app; [exact Hnd | repeat constructor; intros [] |].
    intros a Ha [<- | []]. contradiction. }
  destruct (IH (countWord t w) Hnd') as [H1 H2]. split; [exact H1|].
  intros k Hk. destruct (H2 k Hk) as [Hin | Hin]; [|right; now right].
  destruct (countWord_keys t w) as [E | [_ E]]; rewrite E in Hin.
  - now left.
  - apply in_app_iff in Hin as [Hin | [<- | []]]; [now left | right; now left].
Qed.

Lemma ownEntries_Permutation {V : Type} (props : list (string * V)) :
  Permutation (JS.ownEntries props) props.
Proof.
  unfold JS.ownEntries. rewrite sort_Permutation.
  apply (filter_partition_Permutation (fun p => JS.isArrayIndex (fst p))).
Qed.

Lemma extractKeywords_keys (text : string) :
  List.NoDup (extractKeywords text)
  /\ forall w, In w (extractKeywords text) -> In w (words text).
Proof.
  unfold extractKeywords.
  destruct (fold_countWord_keys (words text) []) as [Hnd Hin]; [constructor|].
  cbv zeta in Hnd, Hin. set (t := fold_left countWord (words text) []) in *.
  assert (Hperm : Permutation (map fst (JS.sort lessFrequent (JS.ownEntries t)))
                              (map fst t)).
  { apply Permutation_map. rewrite sort_Permutation. apply ownEntries_Permutation. }
  rewrite <- firstn_map. split.
  - apply NoDup_firstn. eapply Permutation_NoDup; [symmetry; exact Hperm | exact Hnd].
  - intros w Hw. apply In_firstn in Hw.
    eapply Permutation_in in Hw; [|exact Hperm].
    destruct (Hin w Hw) as [[] | H]. exact H.
Qed.

Lemma extractKeywords_keywordList (text : string) :
  keywordList (extractKeywords text).
Proof.
  destruct (extractKeywords_keys text) as [Hnd Hin].
  split; [|split; [exact Hnd|]].
  - unfold extractKeywords. rewrite length_map, length_firstn. lia.
  - apply List.Forall_forall. intros w Hw.
    pose proof (words_lower text) as Hlow. rewrite List.Forall_forall in Hlow.
    apply Hlow. now apply Hin.
Qed.

(** X11.  For every text, the tokens [constructor] and [__proto__] included,
    [extractKeywords] returns at most 20 keywords, no keyword twice, and each
    one a token of the text: lower-case word characters only, more than two
    of them, and not a stop word. *)
Theorem extractKeywords_always (text : string) :
  (length (extractKeywords text) <= 20)%nat
  /\ List.NoDup (extractKeywords text)
  /\ Forall (fun w => In w (words text)
                      /\ allChars lowerWordChar w = true
                      /\ (2 < String.length w)%nat
                      /\ has stopWords w = false)
            (extractKeywords text).
Proof.
  destruct (extractKeywords_keywordList text) as (Hlen & Hnd & Hall).
  split; [exact Hlen|]. split; [exact Hnd|].
  destruct (extractKeywords_keys text) as [_ Hin].
  rewrite List.Forall_forall in *. intros w Hw. split; [now apply Hin|].
  now apply Hall.
Qed.

Lemma derived_serve (embedder : string -> list Q) (this : VectorStore) (r : request) :
  Forall (derived embedder) (chunks this) ->
  Forall (derived embedder) (chunks (serve embedder this r)).
Proof.
  intros H. destruct r as [d nm input now | d | ]; cbn [serve].
  - rewrite addDocument_chunks. apply Forall_app. split; [exact H|].
    apply List.Forall_forall. intros c Hc.
    apply in_map_iff in Hc as (x & <- & _). now split.
  - unfold removeDocument. destruct (documents this !! d); [|exact H].
    cbn [snd chunks]. rewrite List.Forall_forall in *.
    intros c Hc. apply filter_In in Hc as [Hc _]. now apply H.
  - constructor.
Qed.

Lemma derived_serveAll (embedder : string -> list Q) (rs : list request) :
  Forall (derived embedder) (chunks (serveAll embedder rs)).
Proof.
  unfold serveAll.
  assert (H : Forall (derived embedder) (chunks newVectorStore)) by constructor.
  revert H. generalize newVectorStore.
  induction rs as [|r rs IH]; intros this H; [exact H|].
  cbn [fold_left]. apply IH. now apply derived_serve.
Qed.

(** X12.  In every reachable state every chunk of the index still carries
    what [addDocument] derived from its content when it was added: the
    embedding of the first 512 characters of the content, and the keywords of
    the content, which are at most 20, pairwise distinct, longer than two
    characters and free of stop words. *)
Theorem index_chunks_derived
  (embedder : string -> list Q) (rs : list request) :
  Forall (fun chunk =>
            keywords chunk = extractKeywords (content (raw chunk))
            /\ embedding chunk
               = generateEmbedding embedder (content (raw chunk))
            /\ keywordList (keywords chunk))
         (chunks (serveAll embedder rs)).
Proof.
  pose proof (derived_serveAll embedder rs) as H.
  rewrite List.Forall_forall in *. intros chunk Hc.
  destruct (H chunk Hc) as [Hk He]. split; [exact Hk|]. split; [exact He|].
  rewrite Hk. apply extractKeywords_keywordList.
Qed.

(** ** Keyword score *)

Lemma ofNat_zero_iff (n : nat) : (ofNat n == 0)%Q <-> n = 0%nat.
Proof.
  unfold ofNat, Qeq. simpl. split; intros H; lia.
Qed.

Lemma filter_length_all {A : Type} (f : A -> bool) (l : list A) :
  length (List.filter f l) = length l <-> forallb f l = true.
Proof.
  induction l as [|x l IH]; simpl; [tauto|].
  pose proof (filter_length_le f l) as Hle.
  destruct (f x); simpl.
  - rewrite <- IH. split; intros H; lia.
  - split; [intros H; lia | discriminate].
Qed.

Lemma filter_length_none {A : Type} (f : A -> bool) (l : list A) :
  length (List.filter f l) = 0%nat <-> existsb f l = false.
Proof.
  induction l as [|x l IH]; simpl; [tauto|].
  destruct (f x); simpl; [split; discriminate | exact IH].
Qed.

Lemma share_zero (m d : nat) :
  d <> 0%nat -> ((ofNat m / ofNat d == 0)%Q <-> m = 0%nat).
Proof.
  intros Hd.
  assert (Hd' : ~ (ofNat d == 0)%Q) by now rewrite ofNat_zero_iff.
  split.
  - intros H. apply ofNat_zero_iff.
    rewrite <- (Qmult_div_r (ofNat m) (ofNat d)) by exact Hd'.
    rewrite H. apply Qmult_0_r.
  - intros ->. reflexivity.
Qed.

Lemma share_one (m d : nat) :
  d <> 0%nat -> ((ofNat m / ofNat d == 1)%Q <-> m = d).
Proof.
  intros Hd.
  assert (Hd' : ~ (ofNat d == 0)%Q) by now rewrite ofNat_zero_iff.
  split.
  - intros H.
    assert (E : (ofNat m == ofNat d)%Q).
    { rewrite <- (Qmult_div_r (ofNat m) (ofNat d)) by exact Hd'.
      rewrite H. apply Qmult_1_r. }
    unfold ofNat, Qeq in E. simpl in E. lia.
  - intros ->. now apply Qmult_inv_r.
Qed.

(** X13.  The keyword score is the matched share of the query keywords: it
    is 0 exactly when no query keyword is a keyword of the chunk, in
    particular for a query without keywords, and 1 exactly when the query has
    a keyword and all of them are keywords of the chunk. *)
Theorem keywordMatch_extremes (queryKeywords chunkKeywords : list string) :
  ((keywordMatch queryKeywords chunkKeywords == 0)%Q
   <-> existsb (has chunkKeywords) queryKeywords = false)
  /\ ((keywordMatch queryKeywords chunkKeywords == 1)%Q
      <-> queryKeywords <> [] /\ forallb (has chunkKeywords) queryKeywords = true)
  /\ (keywordMatch [] chunkKeywords == 0)%Q.
Proof.
  split; [|split; [|reflexivity]].
  - unfold keywordMatch. rewrite share_zero by lia. apply filter_length_none.
  - unfold keywordMatch. rewrite share_one by lia.
    pose proof (filter_length_le (fun kw => has chunkKeywords kw) queryKeywords) as Hle.
    pose proof (filter_length_all (fun kw => has chunkKeywords kw) queryKeywords) as Hall.
    destruct queryKeywords as [|k ks].
    + simpl. split; [intros H; lia | intros [H _]; contradiction].
    + split.
      * intros H. split; [discriminate|]. apply Hall. cbn [length] in *. lia.
      * intros [_ H]. apply Hall in H. cbn [length] in *. lia.
Qed.

(** ** The cosine of two embeddings *)

Lemma mul_commutes (x y : float) : (x * y = y * x)%float.
Proof.
  apply Prim2SF_inj. rewrite !mul_spec. unfold SF64mul, SFmul.
  destruct (Prim2SF x) as [sx|sx| |sx mx ex], (Prim2SF y) as [sy|sy| |sy my ey];
    try reflexivity; rewrite (xorb_comm sx sy); try reflexivity.
  now rewrite (Pos.mul_comm mx my), (Z.add_comm ex ey).
Qed.

Lemma add_nan (x : float) : (x + nan = nan)%float.
Proof.
  apply Prim2SF_inj. rewrite add_spec. change (Prim2SF nan) with S754_nan.
  unfold SF64add, SFadd. now destruct (Prim2SF x) as [[]|[]| |].
Qed.

Lemma nan_add (x : float) : (nan + x = nan)%float.
Proof.
  apply Prim2SF_inj. rewrite add_spec. change (Prim2SF nan) with S754_nan.
  unfold SF64add, SFadd. now destruct (Prim2SF x) as [[]|[]| |].
Qed.

Lemma mul_nan (x : float) : (x * nan = nan)%float.
Proof.
  apply Prim2SF_inj. rewrite mul_spec. change (Prim2SF nan) with S754_nan.
  unfold SF64mul, SFmul. now destruct (Prim2SF x).
Qed.

Lemma div_nan (x : float) : (x / nan = nan)%float.
Proof.
  apply Prim2SF_inj. rewrite div_spec. change (Prim2SF nan) with S754_nan.
  unfold SF64div, SFdiv. now destruct (Prim2SF x).
Qed.

Lemma cosineLoop_swap (a b : list float) :
  length a = length b ->
  forall dotProduct normA normB d na nb,
    Doubles.cosineLoop a b (dotProduct, normA, normB) = (d, na, nb) ->
    Doubles.cosineLoop b a (dotProduct, normB, normA) = (d, nb, na).
Proof.
  revert b. induction a as [|ai a IH]; intros [|bi b] Hlen; try discriminate Hlen.
  - intros ? ? ? ? ? ? H. injection H as <- <- <-. reflexivity.
  - injection Hlen as Hlen. intros dotProduct normA normB d na nb H.
    cbn [Doubles.cosineLoop Doubles.at0 List.tl] in *.
    rewrite (mul_commutes bi ai). now apply IH.
Qed.

Lemma cosineLoop_nan (a b : list float) :
  forall dotProduct normA,
    snd (Doubles.cosineLoop a b (dotProduct, normA, nan)) = nan.
Proof.
  revert b. induction a as [|ai a IH]; intros b dotProduct normA; [reflexivity|].
  cbn [Doubles.cosineLoop]. rewrite nan_add. apply IH.
Qed.

Lemma cosineLoop_short (a b : list float) :
  (length b < length a)%nat ->
  forall acc, snd (Doubles.cosineLoop a b acc) = nan.
Proof.
  revert b. induction a as [|ai a IH]; intros b Hlen [[dotProduct normA] normB];
    [cbn [length] in Hlen; lia|].
  destruct b as [|bi b].
  - cbn [Doubles.cosineLoop Doubles.at0]. rewrite !mul_nan, !add_nan.
    apply cosineLoop_nan.
  - cbn [Doubles.cosineLoop Doubles.at0 List.tl]. apply IH.
    cbn [length] in Hlen. lia.
Qed.

(** X14.  The cosine as the code computes it, in doubles: for two vectors
    of one length it does not depend on the order of its arguments; it is
    [NaN] when the second vector is shorter than the first, and for an empty
    first vector; and it can exceed 1: the cosine of (0.2, 0.4, 0.4, 0.8)
    and itself is 1.0000000000000002. *)
Theorem cosineSimilarity_geometry :
  (forall a b : list float,
     length a = length b ->
     Doubles.cosineSimilarity a b = Doubles.cosineSimilarity b a)
  /\ (forall a b : list float,
        (length b < length a)%nat -> Doubles.cosineSimilarity a b = nan)
  /\ (forall b : list float, Doubles.cosineSimilarity [] b = nan)
  /\ (let a := [0.2; 0.4; 0.4; 0.8]%float in
      Doubles.cosineSimilarity a a = 1.0000000000000002%float
      /\ (1 <? Doubles.cosineSimilarity a a)%float = true).
Proof.
  split; [|split; [|split]].
  - intros a b Hlen. unfold Doubles.cosineSimilarity.
    destruct (Doubles.cosineLoop a b (0, 0, 0)%float) as [[d na] nb] eqn:E.
    rewrite (cosineLoop_swap a b Hlen _ _ _ _ _ _ E).
    now rewrite mul_commutes.
  - intros a b Hlen. unfold Doubles.cosineSimilarity.
    pose proof (cosineLoop_short a b Hlen (0, 0, 0)%float) as H.
    destruct (Doubles.cosineLoop a b (0, 0, 0)%float) as [[d na] nb].
    cbn [snd] in H. subst nb.
    change (PrimFloat.sqrt nan) with nan. now rewrite mul_nan, div_nan.
  - intros b. vm_compute. reflexivity.
  - cbv zeta. split; vm_compute; reflexivity.
Qed.

Lemma cosineSimilarity_geometry_witness :
  Doubles.cosineSimilarity [1; 0]%float [0.6; 0.8]%float
  = Doubles.cosineSimilarity [0.6; 0.8]%float [1; 0]%float
  /\ Doubles.cosineSimilarity [1; 0]%float [0.6]%float = nan.
Proof.
  destruct cosineSimilarity_geometry as (Hsym & Hshort & _).
  split; [apply Hsym; reflexivity | apply Hshort; cbn; lia].
Defined.

(** ** The chat router: what a routed query asks and cites *)

Lemma hybridSearch_from_index (embedder : string -> list Q) (Math_sqrt : Q -> Q)
      (query : string) (topK : nat) (store : VectorStore) (hit : Hit) :
  In hit (hybridSearch embedder Math_sqrt query topK store) ->
  exists chunk, In chunk (chunks store)
    /\ hit = scoreChunk Math_sqrt (generateEmbedding embedder query)
                        (extractKeywords query) chunk.
Proof.
  unfold hybridSearch, scoreAll. intros Hin.
  destruct (length (chunks store) =? 0)%nat; [destruct Hin|].
  apply (In_firstn topK) in Hin.
  eapply Permutation_in in Hin; [|apply sort_Permutation].
  apply in_map_iff in Hin as (chunk & Hc & Hin). exists chunk. split; [exact Hin|].
  now symmetry.
Qed.

Lemma hybridSearch_at_most (embedder : string -> list Q) (Math_sqrt : Q -> Q)
      (query : string) (topK : nat) (store : VectorStore) :
  (length (hybridSearch embedder Math_sqrt query topK store) <= topK)%nat.
Proof.
  unfold hybridSearch.
  destruct (length (chunks store) =? 0)%nat; [simpl; lia|].
  rewrite length_firstn. lia.
Qed.

Lemma sourcesOf_ids (hits : list Hit) :
  map sourceId (sourcesOf hits) = seq 1 (length hits).
Proof.
  unfold sourcesOf. apply list_eq. intros i.
  change (map sourceId ?l) with (sourceId <$> l).
  rewrite list_lookup_fmap, list_lookup_imap.
  destruct (hits !! i) as [hit|] eqn:E; simpl.
  - apply lookup_lt_Some in E. symmetry. apply lookup_seq. split; lia.
  - apply lookup_ge_None in E. symmetry. apply lookup_ge_None.
    rewrite length_seq. exact E.
Qed.

Lemma sourcesOf_In (hits : list Hit) (s : Source) :
  In s (sourcesOf hits) ->
  exists hit, In hit hits
    /\ sourceContent s = content (hitChunk hit)
    /\ sourceChunkIndex s = chunkIndex (metadata (hitChunk hit))
    /\ sourceScore s = toFixed1 (score hit * 100)%Q ++ "%".
Proof.
  unfold sourcesOf. intros Hin.
  apply list_elem_of_In, list_elem_of_lookup in Hin as [i Hi].
  rewrite list_lookup_imap in Hi.
  destruct (hits !! i) as [hit|] eqn:E; [|discriminate].
  injection Hi as <-. exists hit. split; [|now cbn].
  apply list_elem_of_In. eapply list_elem_of_lookup_2. exact E.
Qed.

Section RouterRequests.
Variable embedder : string -> list Q.
Variable Math_sqrt : Q -> Q.
Variable provider : string -> option string -> list Message -> string.

(** The three ways a query leaves the router. *)
Lemma route_cases (query requestedMode : string) (h : list Message)
      (store : VectorStore) :
  (route embedder Math_sqrt provider query requestedMode h store
   = ({| answer := refusalAnswer; mode := "error"; sources := [];
         retrievedCount := None; noRelevantResults := None |}, [])
   /\ requestedMode = "rag" /\ hasDocuments store = false)
  \/ (route embedder Math_sqrt provider query requestedMode h store
      = handleRAGQuery embedder Math_sqrt provider query h store
      /\ hasDocuments store = true)
  \/ route embedder Math_sqrt provider query requestedMode h store
     = handleGeneralQuery provider query h.
Proof.
  unfold route, dispatch.
  destruct (String.eqb requestedMode "auto").
  - destruct (autoDetectMode_cases embedder Math_sqrt provider query store)
      as [[H|H] Hrag].
    + right. left. rewrite H. split; [reflexivity|]. now apply Hrag in H.
    + right. right. now rewrite H.
  - destruct (String.eqb requestedMode "rag") eqn:E; cbn [andb].
    + apply String.eqb_eq in E. destruct (hasDocuments store); cbn [negb].
      * right. left. now split.
      * left. now split.
    + right. right. reflexivity.
Qed.

(** The two ways grounded handling ends: an answer from the model over the
    hits it kept, or the fixed text without a request. *)
Lemma handleRAGQuery_cases (query : string) (h : list Message)
      (store : VectorStore) :
  (exists (kept : list Hit) (total : nat),
      kept <> []
      /\ (forall hit, In hit kept ->
            In hit (hybridSearch embedder Math_sqrt query 8 store)
            /\ (0.1 <= score hit)%Q)
      /\ (length kept <= total)%nat
      /\ (total <= length (hybridSearch embedder Math_sqrt query 8 store))%nat
      /\ handleRAGQuery embedder Math_sqrt provider query h store
         = ({| answer := provider query (Some (contextOf kept)) h;
               mode := "rag";
               sources := sourcesOf kept;
               retrievedCount := Some total;
               noRelevantResults := None |},
            [{| prompt := query; context := Some (contextOf kept);
                history := h |}]))
  \/ handleRAGQuery embedder Math_sqrt provider query h store
     = ({| answer := noResultsAnswer; mode := "rag"; sources := [];
           retrievedCount := None; noRelevantResults := Some true |}, []).
Proof.
  unfold handleRAGQuery.
  set (hits := hybridSearch embedder Math_sqrt query 8 store).
  set (relevant := List.filter (reaches relevanceThreshold) hits).
  set (fallback := List.filter (reaches 0.1) hits).
  destruct relevant as [|r relevant'] eqn:Erel; cbn [length Nat.eqb].
  - destruct fallback as [|f fallback'] eqn:Efb; cbn [length Nat.ltb Nat.leb].
    + now right.
    + left. exists (firstn 5 (f :: fallback')), (length (f :: fallback')).
      split; [discriminate|]. split; [|split; [|split]].
      * intros hit Hin. apply In_firstn in Hin. rewrite <- Efb in Hin.
        apply filter_In in Hin as [Hin Hs]. split; [exact Hin|].
        now apply reaches_le in Hs.
      * rewrite length_firstn. lia.
      * rewrite <- Efb. apply filter_length_le.
      * rewrite generateRAGResponse_nonempty by discriminate. reflexivity.
  - left. exists (r :: relevant'), (length (r :: relevant')).
    split; [discriminate|]. split; [|split; [|split]].
    + intros hit Hin. rewrite <- Erel in Hin.
      apply filter_In in Hin as [Hin Hs]. split; [exact Hin|].
      apply reaches_le in Hs. unfold relevanceThreshold in Hs. lra.
    + lia.
    + rewrite <- Erel. apply filter_length_le.
    + rewrite generateRAGResponse_nonempty by discriminate. reflexivity.
Qed.

(** X15.  Whatever the query, the requested mode, the history and the index,
    [route] asks the language model at most once, with the query as prompt
    and the history it was given.  The result has mode [rag], [general] or
    [error]: a [general] result is the model's answer to the query without
    context and has no sources; an [error] result is the fixed refusal,
    comes only from requested mode [rag] on an empty index, and asks
    nothing; a [rag] result is either the fixed no-results text, with no
    request and no sources, or the model's answer to the query with a
    context, with at least one source, and is only given on a non-empty
    index. *)
Theorem route_requests (query requestedMode : string) (h : list Message)
        (store : VectorStore) :
  let result := fst (route embedder Math_sqrt provider query requestedMode h store) in
  let calls := snd (route embedder Math_sqrt provider query requestedMode h store) in
  (length calls <= 1)%nat
  /\ Forall (fun call => prompt call = query /\ history call = h) calls
  /\ (mode result = "rag" \/ mode result = "general" \/ mode result = "error")
  /\ (mode result = "general" ->
      calls = [{| prompt := query; context := None; history := h |}]
      /\ answer result = provider query None h
      /\ sources result = [])
  /\ (mode result = "error" ->
      calls = [] /\ answer result = refusalAnswer /\ sources result = []
      /\ requestedMode = "rag" /\ hasDocuments store = false)
  /\ (mode result = "rag" ->
      hasDocuments store = true
      /\ ((calls = [] /\ answer result = noResultsAnswer /\ sources result = [])
          \/ exists ctx,
               calls = [{| prompt := query; context := Some ctx; history := h |}]
               /\ answer result = provider query (Some ctx) h
               /\ sources result <> [])).
Proof.
  intros result calls. subst result calls.
  destruct (route_cases query requestedMode h store)
    as [(-> & Hm & Hd) | [(-> & Hd) | ->]].
  - cbn. split; [lia|]. split; [constructor|]. split; [auto|].
    split; [discriminate|]. split; [auto|]. discriminate.
  - destruct (handleRAGQuery_cases query h store)
      as [(kept & total & Hne & _ & _ & _ & ->) | ->]; cbn.
    + split; [lia|]. split; [repeat constructor|]. split; [auto|].
      split; [discriminate|]. split; [discriminate|]. intros _.
      split; [exact Hd|]. right. exists (contextOf kept).
      split; [reflexivity|]. split; [reflexivity|].
      intros E. apply Hne. apply (f_equal (@length Source)) in E.
      rewrite sourcesOf_length in E. now destruct kept.
    + split; [lia|]. split; [constructor|]. split; [auto|].
      split; [discriminate|]. split; [discriminate|]. intros _.
      split; [exact Hd|]. now left.
  - cbn. split; [lia|]. split; [repeat constructor|]. split; [auto|].
    split; [auto|]. split; discriminate.
Qed.

(** X16.  The sources of a routed answer cite the index: there are at most
    eight, numbered 1, 2, ... in order, and each one carries the content and
    the chunk number of a chunk that is in the index and that scored at least
    0.1 for the query; the count of retrieved chunks, when reported, is at
    least the number of sources and at most eight. *)
Theorem route_sources (query requestedMode : string) (h : list Message)
        (store : VectorStore) :
  let result := fst (route embedder Math_sqrt provider query requestedMode h store) in
  (length (sources result) <= 8)%nat
  /\ map sourceId (sources result) = seq 1 (length (sources result))
  /\ Forall (fun s =>
       exists chunk,
         In chunk (chunks store)
         /\ sourceContent s = content (raw chunk)
         /\ sourceChunkIndex s = chunkIndex (metadata (raw chunk))
         /\ (0.1 <= score (scoreChunk Math_sqrt (generateEmbedding embedder query)
                                      (extractKeywords query) chunk))%Q)
       (sources result)
  /\ match retrievedCount result with
     | Some total => (length (sources result) <= total <= 8)%nat
     | None => sources result = []
     end.
Proof.
  intros result. subst result.
  destruct (route_cases query requestedMode h store)
    as [(-> & _ & _) | [(-> & _) | ->]];
    try (cbn; split; [lia|]; split; [reflexivity|]; split; [constructor|reflexivity]).
  destruct (handleRAGQuery_cases query h store)
    as [(kept & total & _ & Hkept & Hlen & Htot & ->) | ->];
    try (cbn; split; [lia|]; split; [reflexivity|]; split; [constructor|reflexivity]).
  cbn [fst sources retrievedCount].
  pose proof (hybridSearch_at_most embedder Math_sqrt query 8 store) as Hk.
  rewrite sourcesOf_length.
  split; [lia|]. split; [apply sourcesOf_ids|]. split; [|lia].
  apply List.Forall_forall. intros s Hs.
  apply sourcesOf_In in Hs as (hit & Hin & Hc & Hi & _).
  destruct (Hkept hit Hin) as [Hhit Hscore].
  apply hybridSearch_from_index in Hhit as (chunk & Hchunk & ->).
  exists chunk. cbn [scoreChunk hitChunk] in Hc, Hi. now repeat split.
Qed.

(** X17.  A requested mode other than [auto] and [rag] is handled as
    [general] whatever the index holds: one request without context, the
    model's answer, no sources.  Requested mode [rag] on a non-empty index is
    always handled as grounded, so its result has mode [rag] also when
    nothing relevant was found. *)
Theorem route_explicit_modes (query requestedMode : string) (h : list Message)
        (store : VectorStore) :
  (requestedMode <> "auto" -> requestedMode <> "rag" ->
   route embedder Math_sqrt provider query requestedMode h store
   = ({| answer := provider query None h; mode := "general"; sources := [];
         retrievedCount := None; noRelevantResults := None |},
      [{| prompt := query; context := None; history := h |}]))
  /\ (hasDocuments store = true ->
      route embedder Math_sqrt provider query "rag" h store
      = handleRAGQuery embedder Math_sqrt provider query h store
      /\ mode (fst (route embedder Math_sqrt provider query "rag" h store)) = "rag").
Proof.
  split.
  - intros Hauto Hrag. unfold route, dispatch.
    apply String.eqb_neq in Hauto, Hrag. rewrite Hauto, Hrag. reflexivity.
  - intros Hd. unfold route, dispatch. rewrite Hd. cbn. split; [reflexivity|].
    destruct (handleRAGQuery_cases query h store)
      as [(kept & total & _ & _ & _ & _ & ->) | ->]; reflexivity.
Qed.
End RouterRequests.

(** An upper-case [RAG] on an index that holds the policy is answered
    without the documents; [rag] on the same index with a query that matches
    nothing stays grounded. *)
Lemma route_explicit_modes_witness :
  route tableEmbedder exactRoot cannedProvider "banana" "RAG" []
        (policyStore tableEmbedder)
  = ({| answer := "ok"; mode := "general"; sources := [];
        retrievedCount := None; noRelevantResults := None |},
     [{| prompt := "banana"; context := None; history := [] |}])
  /\ mode (fst (route orthogonalEmbedder exactRoot cannedProvider "banana" "rag" []
                      (policyStore orthogonalEmbedder))) = "rag".
Proof.
  split.
  - apply (route_explicit_modes tableEmbedder exactRoot cannedProvider
             "banana" "RAG" [] (policyStore tableEmbedder)); discriminate.
  - apply (route_explicit_modes orthogonalEmbedder exactRoot cannedProvider
             "banana" "rag" [] (policyStore orthogonalEmbedder)).
    vm_compute. reflexivity.
Defined.

(** ** The language-model service: models *)

Lemma ownProperty_In {V : Type} (props : list (string * V)) (k : string) (v : V) :
  LLM.ownProperty props k = Some v -> In (k, v) props.
Proof.
  induction props as [|[k' v'] props IH]; [discriminate|].
  simpl. destruct (String.eqb_spec k k') as [->|Hne].
  - intros [= ->]. now left.
  - intros H. right. now apply IH.
Qed.

Lemma In_ownProperty {V : Type} (props : list (string * V)) (k : string) (v : V) :
  List.NoDup (map fst props) -> In (k, v) props -> LLM.ownProperty props k = Some v.
Proof.
  induction props as [|[k' v'] props IH]; [intros _ []|].
  simpl. intros Hnd [[= -> ->] | Hin].
  - now rewrite String.eqb_refl.
  - inversion Hnd as [|? ? Hnot Hnd']; subst.
    destruct (String.eqb_spec k k') as [->|Hne]; [|now apply IH].
    exfalso. apply Hnot. apply in_map_iff. now exists (k', v).
Qed.

Lemma ownEntries_plain {V : Type} (props : list (string * V)) :
  Forall (fun entry => JS.isArrayIndex (fst entry) = false) props ->
  JS.ownEntries props = props.
Proof.
  intros H. rewrite List.Forall_forall in H. unfold JS.ownEntries.
  rewrite (filter_none (fun p => JS.isArrayIndex (fst p))) by exact H.
  rewrite (filter_all (fun p => negb (JS.isArrayIndex (fst p)))); [reflexivity|].
  intros x Hx. now rewrite (H x Hx).
Qed.

Lemma serviceInvariant_new (env : LLM.Env) :
  serviceInvariant (LLM.newLLMService env).
Proof.
  assert (Hd : forall client,
    LLM.deepseek (LLM.newLLMService env) = Some client ->
    LLM.baseURL client = Some "https://api.deepseek.com").
  { intros client. unfold LLM.newLLMService. cbn [LLM.deepseek].
    destruct (LLM.DEEPSEEK_API_KEY env) as [key|]; [|discriminate].
    destruct (10 <? String.length key)%nat; [|discriminate]. now intros [= <-]. }
  assert (Ho : forall client,
    LLM.openai (LLM.newLLMService env) = Some client -> LLM.baseURL client = None).
  { intros client. unfold LLM.newLLMService. cbn [LLM.openai].
    destruct (LLM.OPENAI_API_KEY env) as [key|]; [|discriminate].
    destruct (10 <? String.length key)%nat; [|discriminate]. now intros [= <-]. }
  split; [|split; [|split; [|split; [exact Hd|split; [exact Ho|]]]]].
  - cbn. repeat (constructor; [cbn; intuition discriminate|]). constructor.
  - cbn. repeat (constructor; [vm_compute; split; reflexivity|]). constructor.
  - unfold configured. cbn [LLM.models LLM.newLLMService].
    repeat (constructor; [cbn; eauto 8|]). constructor.
  - eexists. split; [reflexivity|reflexivity].
Qed.

Lemma serviceInvariant_setModel (modelId : string) (this : LLM.LLMService) :
  serviceInvariant this -> serviceInvariant (snd (LLM.setModel modelId this)).
Proof.
  intros Hinv. unfold LLM.setModel, LLM.getModel.
  destruct (LLM.ownProperty (LLM.models this) modelId) as [config|] eqn:E.
  - destruct (LLM.available config) eqn:Ha; [|exact Hinv].
    destruct Hinv as (H1 & H2 & H3 & H4 & H5 & _).
    repeat (split; [assumption|]). exists config. now split.
  - destruct (has LLM.prototypeNames modelId); exact Hinv.
Qed.

Lemma serviceInvariant_after (env : LLM.Env) (modelIds : list string) :
  serviceInvariant (serviceAfter env modelIds).
Proof.
  unfold serviceAfter. pose proof (serviceInvariant_new env) as H.
  revert H. generalize (LLM.newLLMService env).
  induction modelIds as [|modelId modelIds IH]; intros this H; [exact H|].
  cbn [fold_left]. apply IH. now apply serviceInvariant_setModel.
Qed.

Lemma listed_iff (this : LLM.LLMService) (modelId : string) :
  serviceInvariant this ->
  In modelId (map LLM.listedId (LLM.getAvailableModels this))
  <-> exists config,
        LLM.ownProperty (LLM.models this) modelId = Some config
        /\ LLM.available config = true.
Proof.
  intros (Hnd & Hplain & _). unfold LLM.getAvailableModels.
  rewrite ownEntries_plain
    by (eapply List.Forall_impl; [|exact Hplain]; now intros a [Ha _]).
  rewrite map_map. cbn [LLM.listedId]. rewrite in_map_iff. split.
  - intros ([k config] & <- & Hin). apply filter_In in Hin as [Hin Ha].
    exists config. split; [|exact Ha]. now apply In_ownProperty.
  - intros (config & Hown & Ha). exists (modelId, config). split; [reflexivity|].
    apply filter_In. split; [|exact Ha]. now apply ownProperty_In.
Qed.

(** X18.  After the constructor and any calls of [setModel], [setModel]
    accepts exactly the ids that [getAvailableModels] lists.  An accepted id
    becomes the current model and the list of models stays as it was; a
    refused id leaves the service as it was, with the error [Unknown model]
    or [Model not available].  A name that every object inherits, such as
    [constructor], is refused as not available rather than as unknown. *)
Theorem setModel_accepts_listed
  (env : LLM.Env) (modelIds : list string) (modelId : string) :
  let this := serviceAfter env modelIds in
  (fst (LLM.setModel modelId this) = Returned
   <-> In modelId (map LLM.listedId (LLM.getAvailableModels this)))
  /\ (fst (LLM.setModel modelId this) = Returned ->
      LLM.getCurrentModel (snd (LLM.setModel modelId this)) = modelId
      /\ LLM.getAvailableModels (snd (LLM.setModel modelId this))
         = LLM.getAvailableModels this)
  /\ (fst (LLM.setModel modelId this) <> Returned ->
      snd (LLM.setModel modelId this) = this
      /\ (fst (LLM.setModel modelId this) = Threw ("Unknown model: " ++ modelId)
          \/ fst (LLM.setModel modelId this)
             = Threw ("Model not available: " ++ modelId)))
  /\ (In modelId LLM.prototypeNames ->
      fst (LLM.setModel modelId this) = Threw ("Model not available: " ++ modelId)).
Proof.
  intros this. pose proof (serviceInvariant_after env modelIds) as Hinv.
  fold this in Hinv. rewrite (listed_iff this modelId Hinv).
  destruct Hinv as (_ & Hplain & _).
  unfold LLM.setModel, LLM.getModel.
  destruct (LLM.ownProperty (LLM.models this) modelId) as [config|] eqn:E.
  - assert (Hown : ~ In modelId LLM.prototypeNames).
    { intros Hin. apply ownProperty_In in E. rewrite List.Forall_forall in Hplain.
      destruct (Hplain _ E) as [_ Hhas]. cbn [fst] in Hhas.
      apply existsb_eqb_In in Hin. unfold has in Hhas. congruence. }
    destruct (LLM.available config) eqn:Ha; cbn [fst snd].
    + split; [split; eauto|]. split; [now intros _|]. split; [congruence|].
      intros Hin. contradiction.
    + split; [split; [discriminate|]|].
      { intros (config' & [= <-] & Ha'). congruence. }
      split; [discriminate|]. split; [auto|]. intros Hin. contradiction.
  - destruct (has LLM.prototypeNames modelId) eqn:Hhas; cbn [fst snd].
    + split; [split; [discriminate | intros (c & Hc & _); discriminate]|].
      split; [discriminate|]. split; [auto|]. reflexivity.
    + split; [split; [discriminate | intros (c & Hc & _); discriminate]|].
      split; [discriminate|]. split; [auto|].
      intros Hin. apply existsb_eqb_In in Hin. unfold has in Hhas. congruence.
Qed.

(** ** The language-model service: requests *)

Section ProviderFacts.
Variable fetch : string -> LLM.ChatRequest -> LLM.FetchReply.
Variable create : LLM.Client -> LLM.ChatRequest -> string + string.
Variable cannotRead : string -> string.

(** X19.  After the constructor and any calls of [setModel] the current
    model is an entry of the table, and [generateResponse] goes to the
    provider of that entry: an Ollama model sends one request to
    [/api/chat] of the Ollama base URL, under the model name of the entry; a
    DeepSeek or OpenAI model sends one request on the client built from the
    respective key, under the current model id; the local answer is produced
    only for the entry [local-simple], and then nothing is sent.  A new
    service starts on [ollama-llama3.2] whatever [DEFAULT_MODEL] says. *)
Theorem generateResponse_dispatch
  (env : LLM.Env) (modelIds : list string)
  (prompt : string) (context : option string) (h : list Message) :
  let this := serviceAfter env modelIds in
  let result := fst (LLM.generateResponse fetch create cannotRead this prompt context h) in
  let sent := snd (LLM.generateResponse fetch create cannotRead this prompt context h) in
  LLM.getCurrentModel (LLM.newLLMService env) = "ollama-llama3.2"
  /\ exists config,
       LLM.getModel this (LLM.currentModel this) = LLM.Own config
       /\ In (LLM.provider config) ["ollama"; "deepseek"; "openai"; "local"]
       /\ (LLM.provider config = "ollama" ->
           exists body,
             sent = [LLM.Fetch (LLM.ollamaBaseUrl this ++ "/api/chat") body]
             /\ LLM.model body = LLM.modelName config
             /\ LLM.modelName config <> None)
       /\ (LLM.provider config = "deepseek" ->
           exists client params,
             LLM.deepseek this = Some client
             /\ LLM.baseURL client = Some "https://api.deepseek.com"
             /\ sent = [LLM.Create client params]
             /\ LLM.model params = Some (LLM.currentModel this))
       /\ (LLM.provider config = "openai" ->
           exists client params,
             LLM.openai this = Some client
             /\ LLM.baseURL client = None
             /\ sent = [LLM.Create client params]
             /\ LLM.model params = Some (LLM.currentModel this))
       /\ (LLM.provider config = "local" ->
           LLM.currentModel this = "local-simple"
           /\ sent = []
           /\ result = LLM.Resolved (LLM.generateLocalResponse prompt context)).
Proof.
  intros this result sent. split; [reflexivity|].
  destruct (serviceInvariant_after env modelIds)
    as (_ & _ & Hconf & Hds & Hoa & config & Hown & Ha).
  fold this in Hconf, Hds, Hoa, Hown.
  assert (Hget : LLM.getModel this (LLM.currentModel this) = LLM.Own config).
  { unfold LLM.getModel. now rewrite Hown. }
  exists config. split; [exact Hget|].
  apply ownProperty_In in Hown. rewrite List.Forall_forall in Hconf.
  specialize (Hconf _ Hown). unfold configured in Hconf. cbn [fst snd] in Hconf.
  subst result sent. unfold LLM.generateResponse. rewrite Hget.
  destruct Hconf as [(Hp & _ & nm & Hnm) | [(Hp & Hav) | [(Hp & Hav) | (Hp & Hk)]]];
    rewrite Hp; cbn [String.eqb Ascii.eqb Bool.eqb andb].
  - split; [cbn; auto|]. split.
    + intros _. unfold LLM.generateOllama. rewrite Hget. cbn [snd].
      eexists. split; [reflexivity|]. cbn [LLM.model]. split; [reflexivity|].
      congruence.
    + repeat split; discriminate.
  - split; [cbn; auto|]. split; [discriminate|]. split; [|split; discriminate].
    intros _. rewrite Ha in Hav. destruct (LLM.deepseek this) as [client|] eqn:E;
      [|discriminate]. cbn [LLM.isSet]. unfold LLM.generateDeepSeek. rewrite E.
    cbn [snd]. eexists _, _. split; [reflexivity|].
    split; [now apply Hds|]. split; reflexivity.
  - split; [cbn; auto|]. split; [discriminate|]. split; [discriminate|].
    split; [|discriminate].
    intros _. rewrite Ha in Hav. destruct (LLM.openai this) as [client|] eqn:E;
      [|discriminate]. cbn [LLM.isSet]. unfold LLM.generateOpenAI. rewrite E.
    cbn [snd]. eexists _, _. split; [reflexivity|].
    split; [now apply Hoa|]. split; reflexivity.
  - split; [cbn; auto 6|]. repeat (split; [discriminate|]). intros _.
    split; [exact Hk|]. split; reflexivity.
Qed.

Lemma sliceLast_length {A : Type} (k : nat) (xs : list A) :
  (0 < k)%nat -> length (JS.sliceLast k xs) = Nat.min k (length xs).
Proof.
  intros Hk. unfold JS.sliceLast.
  destruct (Nat.eqb_spec k 0) as [->|_]; [lia|].
  rewrite length_skipn. lia.
Qed.

Lemma sliceLast_snoc {A : Type} (k : nat) (xs : list A) (x : A) :
  (0 < k)%nat -> exists kept, JS.sliceLast k (xs ++ [x])%list = (kept ++ [x])%list.
Proof.
  intros Hk. unfold JS.sliceLast.
  destruct (Nat.eqb_spec k 0) as [->|_]; [lia|].
  exists (skipn (length xs + 1 - k) xs).
  rewrite length_app. cbn [length]. rewrite skipn_app.
  replace (length xs + 1 - k - length xs)%nat with 0%nat by lia. reflexivity.
Qed.

Lemma map_message_id (l : list Message) :
  map (fun msg => {| role := role msg; messageContent := messageContent msg |}) l = l.
Proof.
  induction l as [|[r c] l IH]; [reflexivity|]. cbn [map role messageContent].
  now rewrite IH.
Qed.

Lemma systemPromptThorough_ends (c : ascii) (text : string) :
  exists instructions,
    LLM.systemPromptThorough (Some (String c text)) = instructions ++ String c text.
Proof.
  unfold LLM.systemPromptThorough. cbn [JS.join].
  eexists. rewrite <- !append_assoc. reflexivity.
Qed.

Lemma systemPromptPlain_ends (c : ascii) (text : string) :
  exists instructions,
    LLM.systemPromptPlain (Some (String c text)) = instructions ++ String c text.
Proof.
  unfold LLM.systemPromptPlain. cbn [JS.join].
  eexists. rewrite <- !append_assoc. reflexivity.
Qed.

Lemma messagesOf_wellAddressed (thorough : bool) (prompt : string)
      (context : option string) (h : list Message) (request : LLM.ChatRequest) :
  LLM.messages request
  = LLM.messagesOf (if thorough then LLM.systemPromptThorough context
                    else LLM.systemPromptPlain context) h prompt ->
  LLM.temperature request = (if LLM.given context then 0.3%Q else 0.7%Q) ->
  wellAddressed prompt context h request.
Proof.
  intros Hm Ht. unfold LLM.messagesOf in Hm. rewrite map_message_id in Hm.
  eexists. split; [exact Hm|]. split; [reflexivity|]. split; [|split; [|exact Ht]].
  - intros Hg. destruct context as [[|c text]|]; try discriminate Hg.
    cbn [messageContent].
    destruct thorough;
      [destruct (systemPromptThorough_ends c text) as [i Hi]
      |destruct (systemPromptPlain_ends c text) as [i Hi]];
      exists i, (String c text); now split.
  - intros Hg. cbn [messageContent].
    destruct context as [[|c text]|]; try discriminate Hg;
      destruct thorough; auto.
Qed.

Lemma generateResponse_sent
  (this : LLM.LLMService) (prompt : string) (context : option string)
  (h : list Message) :
  let sent := snd (LLM.generateResponse fetch create cannotRead this prompt context h) in
  (length sent <= 1)%nat
  /\ Forall (wellAddressed prompt context h) (map bodyOf sent).
Proof.
  cbv zeta. unfold LLM.generateResponse.
  destruct (LLM.getModel this (LLM.currentModel this)) as [config| |] eqn:Hget;
    try (cbn; split; [lia|constructor]).
  destruct (String.eqb (LLM.provider config) "ollama").
  { unfold LLM.generateOllama. rewrite Hget. cbn [snd length map bodyOf].
    split; [lia|]. constructor; [|constructor].
    now apply (messagesOf_wellAddressed true). }
  destruct (String.eqb (LLM.provider config) "deepseek" && LLM.isSet (LLM.deepseek this)).
  { unfold LLM.generateDeepSeek. destruct (LLM.deepseek this);
      cbn [snd length map bodyOf]; (split; [lia|]); [|constructor].
    constructor; [|constructor]. now apply (messagesOf_wellAddressed true). }
  destruct (String.eqb (LLM.provider config) "openai" && LLM.isSet (LLM.openai this)).
  { unfold LLM.generateOpenAI. destruct (LLM.openai this);
      cbn [snd length map bodyOf]; (split; [lia|]); [|constructor].
    constructor; [|constructor]. now apply (messagesOf_wellAddressed false). }
  cbn. split; [lia|constructor].
Qed.

Lemma wellAddressed_last (prompt : string) (context : option string)
      (earlier : list Message) (last : Message) (request : LLM.ChatRequest) :
  wellAddressed prompt context (earlier ++ [last])%list request ->
  exists front,
    LLM.messages request
    = (front ++ [last; {| role := "user"; messageContent := prompt |}])%list.
Proof.
  intros (system & Hm & _). rewrite Hm.
  destruct (sliceLast_snoc 6 earlier last) as [kept ->]; [lia|].
  exists (system :: kept). rewrite <- app_assoc. reflexivity.
Qed.

(** X20.  In every state of the service [generateResponse] sends at most one
    request.  Its messages are a system message, then the last six messages
    of the history (all of them when there are fewer) in order, then the
    prompt as a user message: between two and eight messages.  When a
    non-empty context is given the system message ends with it and the
    temperature is 0.3; otherwise the system message is a fixed text and the
    temperature is 0.7.  A history that ends with a message is sent with
    that message directly in front of the prompt. *)
Theorem generateResponse_messages
  (this : LLM.LLMService) (prompt : string) (context : option string)
  (h : list Message) :
  let sent := snd (LLM.generateResponse fetch create cannotRead this prompt context h) in
  (length sent <= 1)%nat
  /\ Forall (fun s =>
       wellAddressed prompt context h (bodyOf s)
       /\ length (LLM.messages (bodyOf s)) = (2 + Nat.min 6 (length h))%nat
       /\ (forall earlier last, h = (earlier ++ [last])%list ->
           exists front,
             LLM.messages (bodyOf s)
             = (front ++ [last; {| role := "user"; messageContent := prompt |}])%list))
     sent.
Proof.
  intros sent.
  destruct (generateResponse_sent this prompt context h) as [Hlen Hall].
  fold sent in Hlen, Hall. split; [exact Hlen|].
  rewrite List.Forall_forall in *. intros s Hs.
  assert (Hw : wellAddressed prompt context h (bodyOf s)).
  { apply Hall. now apply in_map. }
  split; [exact Hw|]. destruct Hw as (system & Hm & _). rewrite Hm. split.
  - cbn [length]. rewrite length_app, sliceLast_length by lia. cbn [length]. lia.
  - intros earlier last ->. rewrite <- Hm.
    eapply wellAddressed_last. apply Hall. now apply in_map.
Qed.
End ProviderFacts.

(** ** The chat endpoint *)

Lemma alternates_even (l : list StoredMessage) :
  forall n, (length l <= n)%nat -> alternates l = true -> Nat.even (length l) = true.
Proof.
  intros n. revert l. induction n as [|n IH]; intros l Hn Ha.
  - destruct l; [reflexivity | simpl in Hn; lia].
  - destruct l as [|u [|a rest]]; [reflexivity | discriminate |].
    cbn [alternates] in Ha. apply andb_prop in Ha as [_ Ha].
    cbn [length Nat.even]. apply IH; [cbn [length] in Hn; lia | exact Ha].
Qed.

Lemma alternates_snoc (l : list StoredMessage) (u a : StoredMessage) :
  storedRole u = "user" -> storedRole a = "assistant" ->
  forall n, (length l <= n)%nat ->
  alternates l = true -> alternates (l ++ [u; a]) = true.
Proof.
  intros Hu Ha n. revert l. induction n as [|n IH]; intros l Hn Hl.
  - destruct l; [|simpl in Hn; lia]. cbn. now rewrite Hu, Ha.
  - destruct l as [|x [|y rest]]; [cbn; now rewrite Hu, Ha | discriminate |].
    cbn [alternates] in Hl. apply andb_prop in Hl as [Hxy Hl].
    change (alternates (x :: y :: (rest ++ [u; a])) = true).
    cbn [alternates]. rewrite Hxy. cbn [andb].
    apply IH; [cbn [length] in Hn; lia | exact Hl].
Qed.

Lemma alternates_trim (l : list StoredMessage) :
  (length l <= 22)%nat -> alternates l = true ->
  let kept := if (20 <? length l)%nat then JS.sliceLast 20 l else l in
  (length kept <= 20)%nat /\ alternates kept = true.
Proof.
  intros Hlen Ha. pose proof (alternates_even l _ (Nat.le_refl _) Ha) as Heven.
  destruct (Nat.ltb_spec 20 (length l)) as [Hgt|Hle]; cbv zeta; [|split; [lia|exact Ha]].
  assert (Hl : length l = 22%nat).
  { destruct (Nat.eq_dec (length l) 21) as [E|E]; [rewrite E in Heven; discriminate|lia]. }
  unfold JS.sliceLast. cbn [Nat.eqb]. rewrite Hl. cbn [Nat.sub].
  destruct l as [|u [|a rest]]; try discriminate Hl.
  cbn [skipn]. rewrite drop_0. split; [cbn [length] in Hl; lia|].
  cbn [alternates] in Ha. now apply andb_prop in Ha as [_ Ha].
Qed.

Section ChatFacts.
Variable embedder : string -> list Q.
Variable Math_sqrt : Q -> Q.
Variable provider : string -> option string -> list Message -> string.
Variable failure : LlmCall -> option string.

Lemma route_calls (query requestedMode : string) (h : list Message)
      (store : VectorStore) :
  let calls := snd (route embedder Math_sqrt provider query requestedMode h store) in
  (length calls <= 1)%nat
  /\ Forall (fun call => prompt call = query /\ history call = h) calls.
Proof.
  cbv zeta.
  destruct (route_cases embedder Math_sqrt provider query requestedMode h store)
    as [(-> & _) | [(-> & _) | ->]].
  - cbn. split; [lia|constructor].
  - destruct (handleRAGQuery_cases embedder Math_sqrt provider query h store)
      as [(kept & total & _ & _ & _ & _ & ->) | ->]; cbn.
    + split; [lia|]. repeat constructor.
    + split; [lia|constructor].
  - cbn. split; [lia|]. repeat constructor.
Qed.

Lemma firstFailure_answered (calls : list LlmCall) :
  Forall (fun call => failure call = None) calls ->
  firstFailure failure calls = None.
Proof.
  induction 1 as [|call calls Hcall _ IH]; [reflexivity|].
  cbn [firstFailure]. now rewrite Hcall.
Qed.

(** A route asks the language model at most once, so a request that fails
    is the only one. *)
Lemma firstFailure_failed (calls : list LlmCall) (call : LlmCall) (details : string) :
  (length calls <= 1)%nat -> In call calls -> failure call = Some details ->
  firstFailure failure calls = Some details /\ attempted failure calls = [call].
Proof.
  intros Hlen Hin Hcall.
  destruct calls as [|c [|c' rest]]; [destruct Hin | | cbn [length] in Hlen; lia].
  destruct Hin as [-> | []]. cbn [firstFailure attempted]. now rewrite Hcall.
Qed.

Lemma attempted_In (calls : list LlmCall) (call : LlmCall) :
  In call (attempted failure calls) -> In call calls.
Proof.
  induction calls as [|c calls IH]; [intros []|].
  cbn [attempted]. intros [-> | Hin]; [now left|]. right.
  destruct (failure c); [destruct Hin | now apply IH].
Qed.

(** How the handler serves a request that carries a message, when the
    language model answers. *)
Lemma chat_served (body : ChatBody) (store : VectorStore)
      (conversations : gmap string Conversation) (message : string) :
  bodyMessage body = Some message -> message <> "" ->
  let key := addressed body in
  let before := messagesOf conversations key in
  let user := {| storedRole := "user"; storedContent := message;
                 timestamp := userTime body;
                 storedMode := None; storedSources := None |} in
  let routed := route embedder Math_sqrt provider message
                      (match bodyMode body with Some v => v | None => "auto" end)
                      (map seen (before ++ [user])%list) store in
  let assistant := {| storedRole := "assistant";
                      storedContent := answer (fst routed);
                      timestamp := assistantTime body;
                      storedMode := Some (mode (fst routed));
                      storedSources := Some (sources (fst routed)) |} in
  let answered := (before ++ [user; assistant])%list in
  firstFailure failure (snd routed) = None ->
  exists stored,
    chat embedder Math_sqrt provider failure body store conversations
    = ((ChatOk key (fst routed), <[key := stored]> conversations), snd routed)
    /\ conversationId stored
       = match conversations !! key with
         | Some c => conversationId c
         | None => key
         end
    /\ messages stored
       = if (20 <? length answered)%nat then JS.sliceLast 20 answered else answered.
Proof.
  intros Hm Hne key before user routed assistant answered Hok.
  unfold chat. rewrite Hm. destruct message as [|c s]; [congruence|].
  fold (addressed body). fold key.
  assert (Hbefore :
    messages (match conversations !! key with
              | Some stored => stored
              | None => {| conversationId := key; messages := [];
                           createdAt := createdTime body |}
              end) = before).
  { subst before. unfold messagesOf. now destruct (conversations !! key). }
  rewrite Hbefore. fold user. fold routed.
  unfold attempt. rewrite Hok. cbn [bind ret fst snd].
  rewrite app_nil_r. eexists. split; [reflexivity|]. cbn [conversationId messages].
  split.
  - now destruct (conversations !! key).
  - subst answered assistant. rewrite <- app_assoc. reflexivity.
Qed.

(** How the handler serves it when the language model fails: the reply is
    the 500 of the [catch], and the user message stays in the
    conversation. *)
Lemma chat_failed (body : ChatBody) (store : VectorStore)
      (conversations : gmap string Conversation) (message details : string) :
  bodyMessage body = Some message -> message <> "" ->
  let key := addressed body in
  let before := messagesOf conversations key in
  let user := {| storedRole := "user"; storedContent := message;
                 timestamp := userTime body;
                 storedMode := None; storedSources := None |} in
  let routed := route embedder Math_sqrt provider message
                      (match bodyMode body with Some v => v | None => "auto" end)
                      (map seen (before ++ [user])%list) store in
  firstFailure failure (snd routed) = Some details ->
  exists stored,
    chat embedder Math_sqrt provider failure body store conversations
    = ((ChatFailed "Failed to process message" details,
        <[key := stored]> conversations),
       attempted failure (snd routed))
    /\ conversationId stored
       = match conversations !! key with
         | Some c => conversationId c
         | None => key
         end
    /\ messages stored = (before ++ [user])%list.
Proof.
  intros Hm Hne key before user routed Hfail.
  unfold chat. rewrite Hm. destruct message as [|c s]; [congruence|].
  fold (addressed body). fold key.
  assert (Hbefore :
    messages (match conversations !! key with
              | Some stored => stored
              | None => {| conversationId := key; messages := [];
                           createdAt := createdTime body |}
              end) = before).
  { subst before. unfold messagesOf. now destruct (conversations !! key). }
  rewrite Hbefore. fold user. fold routed.
  unfold attempt. rewrite Hfail. cbn [bind ret fst snd].
  rewrite app_nil_r. eexists. split; [reflexivity|]. cbn [conversationId messages].
  split; [now destruct (conversations !! key) | reflexivity].
Qed.

(** Every request that a chat request makes is one of its route. *)
Lemma chat_calls (body : ChatBody) (store : VectorStore)
      (conversations : gmap string Conversation) (message : string) (call : LlmCall) :
  bodyMessage body = Some message -> message <> "" ->
  In call (snd (chat embedder Math_sqrt provider failure body store conversations)) ->
  prompt call = message
  /\ history call
     = (map seen (messagesOf conversations (addressed body))
        ++ [{| role := "user"; messageContent := message |}])%list.
Proof.
  intros Hm Hne Hin.
  match goal with |- _ /\ history call = ?h' => set (h := h') end.
  set (routed := route embedder Math_sqrt provider message
                   (match bodyMode body with Some v => v | None => "auto" end)
                   h store).
  assert (Hrouted : In call (snd routed)).
  { destruct (firstFailure failure (snd routed)) as [details|] eqn:E.
    - destruct (chat_failed body store conversations message details Hm Hne)
        as (stored & Hchat & _).
      { rewrite map_app. exact E. }
      rewrite Hchat in Hin. cbn [snd] in Hin. rewrite map_app in Hin.
      now apply attempted_In in Hin.
    - destruct (chat_served body store conversations message Hm Hne)
        as (stored & Hchat & _).
      { rewrite map_app. exact E. }
      rewrite Hchat in Hin. cbn [snd] in Hin. rewrite map_app in Hin. exact Hin. }
  destruct (route_calls message
              (match bodyMode body with Some v => v | None => "auto" end) h store)
    as [_ Hcalls].
  rewrite List.Forall_forall in Hcalls. now apply Hcalls.
Qed.

Lemma filed_chat (body : ChatBody) (store : VectorStore)
      (conversations : gmap string Conversation) :
  map_Forall (fun key conversation => conversationId conversation = key) conversations ->
  map_Forall (fun key conversation => conversationId conversation = key)
    (snd (fst (chat embedder Math_sqrt provider failure body store conversations))).
Proof.
  intros Hall.
  destruct (bodyMessage body) as [[|c s]|] eqn:Hm;
    try (unfold chat; rewrite Hm; exact Hall).
  set (key := addressed body).
  assert (Hkey : forall stored,
    conversationId stored
    = match conversations !! key with Some c => conversationId c | None => key end ->
    conversationId stored = key).
  { intros stored ->. destruct (conversations !! key) as [conv|] eqn:E; [|reflexivity].
    exact (Hall key conv E). }
  pose proof (chat_served body store conversations (String c s) Hm) as Hs.
  pose proof (chat_failed body store conversations (String c s)) as Hf.
  cbv zeta in Hs, Hf. fold key in Hs, Hf.
  match type of Hs with _ -> firstFailure failure ?calls = None -> _ =>
    destruct (firstFailure failure calls) as [details|] eqn:E end.
  - destruct (Hf details Hm) as (stored & -> & Hid & _); [discriminate | reflexivity|].
    cbn [fst snd]. apply map_Forall_insert_2; [now apply Hkey | exact Hall].
  - destruct Hs as (stored & -> & Hid & _); [discriminate | reflexivity|].
    cbn [fst snd]. apply map_Forall_insert_2; [now apply Hkey | exact Hall].
Qed.

Lemma wellKept_chat (body : ChatBody) (store : VectorStore)
      (conversations : gmap string Conversation) :
  (forall call, failure call = None) ->
  map_Forall wellKept conversations ->
  map_Forall wellKept
    (snd (fst (chat embedder Math_sqrt provider failure body store conversations))).
Proof.
  intros Hanswers Hall.
  destruct (bodyMessage body) as [[|c s]|] eqn:Hm;
    try (unfold chat; rewrite Hm; exact Hall).
  destruct (chat_served body store conversations (String c s) Hm)
    as (stored & -> & Hid & Hmsgs); [discriminate | |].
  { apply firstFailure_answered, List.Forall_forall. intros call _. apply Hanswers. }
  cbn [fst snd]. apply map_Forall_insert_2; [|exact Hall].
  set (key := addressed body) in *.
  assert (Hold : (length (messagesOf conversations key) <= 20)%nat
                 /\ alternates (messagesOf conversations key) = true
                 /\ conversationId stored = key).
  { unfold messagesOf. rewrite Hid.
    destruct (conversations !! key) as [conv|] eqn:E.
    - destruct (Hall key conv E) as (H1 & H2 & H3). auto.
    - cbn. split; [lia|]. split; reflexivity. }
  destruct Hold as (Hlen & Halt & Hkey).
  split; [exact Hkey|]. rewrite Hmsgs.
  apply alternates_trim.
  - rewrite length_app. cbn [length]. lia.
  - eapply alternates_snoc; [reflexivity | reflexivity | apply Nat.le_refl | exact Halt].
Qed.

(** X21.  Whatever chat requests have been served, on whatever index and
    whether or not the language model answered, every stored conversation is
    filed under its own id.  When the language model answers every request,
    every stored conversation holds at most twenty messages and consists of
    pairs of a user message and a message of the assistant, in this order.
    A request without a message, or with an empty one, is answered with
    [Message is required], changes no conversation and asks the language
    model nothing.  A request that the language model fails to answer is
    answered with [Failed to process message] and leaves its user message in
    the conversation, without an answer and without trimming: after a failed
    and an answered [Hello] the conversation reads user, user, assistant. *)
Theorem chat_conversations (requests : list (ChatBody * VectorStore)) :
  map_Forall (fun key conversation => conversationId conversation = key)
             (chatAll embedder Math_sqrt provider failure requests)
  /\ ((forall call, failure call = None) ->
      map_Forall wellKept (chatAll embedder Math_sqrt provider failure requests))
  /\ (forall body store conversations,
        (bodyMessage body = None \/ bodyMessage body = Some "") ->
        chat embedder Math_sqrt provider failure body store conversations
        = ((ChatBadRequest "Message is required", conversations), []))
  /\ (forall body store conversations message call details,
        bodyMessage body = Some message -> message <> "" ->
        let key := addressed body in
        let before := messagesOf conversations key in
        let result :=
          chat embedder Math_sqrt provider failure body store conversations in
        In call (snd (route embedder Math_sqrt provider message
                        (match bodyMode body with Some v => v | None => "auto" end)
                        (map seen before
                         ++ [{| role := "user"; messageContent := message |}])%list
                        store)) ->
        failure call = Some details ->
        fst (fst result) = ChatFailed "Failed to process message" details
        /\ messagesOf (snd (fst result)) key
           = (before ++ [{| storedRole := "user"; storedContent := message;
                            timestamp := userTime body;
                            storedMode := None; storedSources := None |}])%list)
  /\ map storedRole
         (messagesOf (chatAll unitEmbedder exactRoot cannedProvider failsFirst
                        [(helloBody, newVectorStore); (helloAgain, newVectorStore)])
                     "c-1")
     = ["user"; "user"; "assistant"].
Proof.
  split; [|split; [|split; [|split]]].
  - unfold chatAll.
    assert (H : map_Forall (fun key conversation => conversationId conversation = key)
                           (∅ : gmap string Conversation))
      by apply map_Forall_empty.
    revert H. generalize (∅ : gmap string Conversation).
    induction requests as [|[body store] requests IH]; intros conversations H;
      [exact H|].
    cbn [fold_left fst snd]. apply IH. now apply filed_chat.
  - intros Hanswers. unfold chatAll.
    assert (H : map_Forall wellKept (∅ : gmap string Conversation))
      by apply map_Forall_empty.
    revert H. generalize (∅ : gmap string Conversation).
    induction requests as [|[body store] requests IH]; intros conversations H;
      [exact H|].
    cbn [fold_left fst snd]. apply IH. now apply wellKept_chat.
  - intros body store conversations [Hm | Hm]; unfold chat; now rewrite Hm.
  - intros body store conversations message call details Hm Hne key before result
           Hin Hcall.
    match type of Hin with In call (snd ?r) =>
      destruct (firstFailure_failed (snd r) call details) as [Hfirst _];
        [apply route_calls | exact Hin | exact Hcall |] end.
    destruct (chat_failed body store conversations message details Hm Hne)
      as (stored & Hchat & _ & Hmsgs); [rewrite map_app; exact Hfirst|].
    subst result. rewrite Hchat. cbn [fst snd]. split; [reflexivity|].
    unfold messagesOf at 1. fold key. now rewrite lookup_insert_eq.
  - vm_compute. reflexivity.
Qed.

(** X22.  A chat request with a message is routed with its message and the
    requested mode, [auto] when none is given; the history that [route] and
    the language model receive is the stored conversation followed by the
    new user message.  When the language model answers, the reply is the
    result of [route], and afterwards the addressed conversation, which is a
    new one under a fresh id when the request names none, holds the old
    messages, the user message and the answer, cut to the last twenty.  When
    it fails, the reply is [Failed to process message] with the message of
    the error, and the addressed conversation holds the old messages and the
    user message.  Every other conversation is as before. *)
Theorem chat_round (body : ChatBody) (store : VectorStore)
        (conversations : gmap string Conversation) (message : string) :
  bodyMessage body = Some message -> message <> "" ->
  let key := addressed body in
  let before := messagesOf conversations key in
  let routed :=
    route embedder Math_sqrt provider message
          (match bodyMode body with Some v => v | None => "auto" end)
          (map seen before ++ [{| role := "user"; messageContent := message |}])%list
          store in
  let result := chat embedder Math_sqrt provider failure body store conversations in
  let after := snd (fst result) in
  (Forall (fun call => failure call = None) (snd routed) ->
   exists response,
     fst (fst result) = ChatOk key response
     /\ (response, snd result)
        = route embedder Math_sqrt provider message
                (match bodyMode body with Some v => v | None => "auto" end)
                (map seen before ++ [{| role := "user"; messageContent := message |}])%list
                store
     /\ Forall (fun call =>
                  prompt call = message
                  /\ history call
                     = (map seen before
                        ++ [{| role := "user"; messageContent := message |}])%list)
               (snd result)
     /\ (exists kept,
           map seen (messagesOf after key)
           = (map seen kept
              ++ [{| role := "user"; messageContent := message |};
                  {| role := "assistant"; messageContent := answer response |}])%list
           /\ (length before <= 18 -> kept = before)%nat)
     /\ (forall other, other <> key -> after !! other = conversations !! other))
  /\ (forall call details,
        In call (snd routed) -> failure call = Some details ->
        fst (fst result) = ChatFailed "Failed to process message" details
        /\ snd result = [call]
        /\ prompt call = message
        /\ history call
           = (map seen before
              ++ [{| role := "user"; messageContent := message |}])%list
        /\ map seen (messagesOf after key)
           = (map seen before
              ++ [{| role := "user"; messageContent := message |}])%list
        /\ (forall other, other <> key -> after !! other = conversations !! other)).
Proof.
  intros Hm Hne key before routed result after.
  set (h := (map seen before
             ++ [{| role := "user"; messageContent := message |}])%list) in *.
  split.
  - intros Hanswered.
    destruct (chat_served body store conversations message Hm Hne)
      as (stored & Hchat & _ & Hmsgs).
    { rewrite map_app. now apply firstFailure_answered. }
    fold key in Hchat, Hmsgs. fold before in Hchat, Hmsgs.
    match type of Hchat with context [map seen (before ++ [?u])%list] =>
      assert (Hh : map seen (before ++ [u])%list = h)
        by (rewrite map_app; reflexivity);
      rewrite Hh in Hchat, Hmsgs end.
    fold routed in Hchat, Hmsgs.
    subst result after. rewrite Hchat. cbn [fst snd].
    exists (fst routed). split; [reflexivity|]. split; [exact (eq_sym (surjective_pairing routed))|].
    split; [apply route_calls|]. split.
    + unfold messagesOf at 1. rewrite lookup_insert_eq. rewrite Hmsgs.
      match goal with |- context [(before ++ [?u; _])%list] => set (user := u) end.
      match goal with |- context [(before ++ [user; ?a])%list] =>
        set (assistant := a) end.
      destruct (Nat.ltb_spec 20 (length (before ++ [user; assistant])%list)) as [Hgt|Hle].
      * rewrite length_app in Hgt. cbn [length] in Hgt.
        replace (before ++ [user; assistant])%list
          with ((before ++ [user]) ++ [assistant])%list by now rewrite <- app_assoc.
        destruct (sliceLast_snoc 20 (before ++ [user])%list assistant) as [k1 Hk1];
          [lia|].
        rewrite Hk1.
        assert (Hk : exists k0, k1 = (k0 ++ [user])%list).
        { unfold JS.sliceLast in Hk1. cbn [Nat.eqb] in Hk1.
          rewrite !length_app in Hk1. cbn [length] in Hk1.
          rewrite <- app_assoc in Hk1.
          rewrite skipn_app in Hk1.
          replace (length before + 1 + 1 - 20 - length before)%nat with 0%nat in Hk1 by lia.
          rewrite drop_0 in Hk1.
          exists (skipn (length before + 1 + 1 - 20) before).
          rewrite app_assoc in Hk1. now apply app_inj_tail in Hk1 as [<- _]. }
        destruct Hk as [k0 ->]. exists k0. split; [|intros Hb; lia].
        rewrite <- app_assoc, map_app. reflexivity.
      * exists before. split; [|reflexivity]. rewrite map_app. reflexivity.
    + intros other Hother. now rewrite lookup_insert_ne.
  - intros call details Hin Hcall.
    destruct (firstFailure_failed (snd routed) call details) as [Hfirst Hatt];
      [apply route_calls | exact Hin | exact Hcall |].
    destruct (chat_failed body store conversations message details Hm Hne)
      as (stored & Hchat & _ & Hmsgs).
    { rewrite map_app. exact Hfirst. }
    fold key in Hchat, Hmsgs. fold before in Hchat, Hmsgs.
    match type of Hchat with context [map seen (before ++ [?u])%list] =>
      assert (Hh : map seen (before ++ [u])%list = h)
        by (rewrite map_app; reflexivity);
      rewrite Hh in Hchat end.
    fold routed in Hchat.
    subst result after. rewrite Hchat. cbn [fst snd].
    split; [reflexivity|]. split; [exact Hatt|].
    destruct (route_calls message
                (match bodyMode body with Some v => v | None => "auto" end) h store)
      as [_ Hcalls].
    rewrite List.Forall_forall in Hcalls. destruct (Hcalls call Hin) as [Hp Hh'].
    split; [exact Hp|]. split; [exact Hh'|]. split.
    + unfold messagesOf at 1. rewrite lookup_insert_eq, Hmsgs, map_app. reflexivity.
    + intros other Hother. now rewrite lookup_insert_ne.
Qed.
End ChatFacts.

(** The first request of a client opens the conversation [c-1]. *)
Lemma chat_round_witness :
  exists response,
    fst (fst (chat unitEmbedder exactRoot cannedProvider answers helloBody
                   newVectorStore ∅))
    = ChatOk "c-1" response
    /\ (response, snd (chat unitEmbedder exactRoot cannedProvider answers helloBody
                            newVectorStore ∅))
       = route unitEmbedder exactRoot cannedProvider "Hello" "auto"
               [{| role := "user"; messageContent := "Hello" |}] newVectorStore.
Proof.
  destruct (chat_round unitEmbedder exactRoot cannedProvider answers helloBody
              newVectorStore ∅ "Hello" eq_refl) as [Hanswered _]; [discriminate|].
  destruct Hanswered as (response & H1 & H2 & _).
  { apply List.Forall_forall. reflexivity. }
  exists response. split; [exact H1 | exact H2].
Defined.

Section EndToEnd.
Variable embedder : string -> list Q.
Variable Math_sqrt : Q -> Q.
Variable provider : string -> option string -> list Message -> string.
Variable failure : LlmCall -> option string.
Variable fetch : string -> LLM.ChatRequest -> LLM.FetchReply.
Variable create : LLM.Client -> LLM.ChatRequest -> string + string.
Variable cannotRead : string -> string.

(** X23.  From the chat endpoint to the provider: the handler appends the
    user message to the conversation before it routes, and the generators
    append the prompt to the history they are handed; so in every request
    that the service sends for a chat message, in any state of the service,
    the last two messages are both the user message. *)
Theorem chat_prompt_twice
  (this : LLM.LLMService) (body : ChatBody) (store : VectorStore)
  (conversations : gmap string Conversation) (message : string) :
  bodyMessage body = Some message -> message <> "" ->
  Forall (fun call =>
            Forall (fun s =>
                      exists front,
                        LLM.messages (bodyOf s)
                        = (front
                           ++ [{| role := "user"; messageContent := message |};
                               {| role := "user"; messageContent := message |}])%list)
                   (snd (LLM.generateResponse fetch create cannotRead this
                           (prompt call) (context call) (history call))))
         (snd (chat embedder Math_sqrt provider failure body store conversations)).
Proof.
  intros Hm Hne.
  apply List.Forall_forall. intros call Hcall.
  destruct (chat_calls embedder Math_sqrt provider failure body store conversations
              message call Hm Hne Hcall) as [-> ->].
  apply List.Forall_forall. intros s Hs.
  apply (wellAddressed_last message (context call)
           (map seen (messagesOf conversations (addressed body)))).
  match type of Hs with In s (snd (LLM.generateResponse _ _ _ _ _ _ ?h)) =>
    destruct (generateResponse_sent fetch create cannotRead this message
                (context call) h) as [_ Hall]
  end.
  rewrite List.Forall_forall in Hall. apply Hall. now apply in_map.
Qed.
End EndToEnd.

(** The first message of a client, through the general handler to a new
    service: the request to Ollama ends with [Hello] twice. *)
Lemma chat_prompt_twice_witness :
  Forall (fun call =>
            Forall (fun s =>
                      exists front,
                        LLM.messages (bodyOf s)
                        = (front
                           ++ [{| role := "user"; messageContent := "Hello" |};
                               {| role := "user"; messageContent := "Hello" |}])%list)
                   (snd (LLM.generateResponse cannedFetch cannedCreate engineMessage
                           (LLM.newLLMService bareEnv)
                           (prompt call) (context call) (history call))))
         (snd (chat unitEmbedder exactRoot cannedProvider answers helloBody
                    newVectorStore ∅))
  /\ length (snd (chat unitEmbedder exactRoot cannedProvider answers helloBody
                       newVectorStore ∅)) = 1%nat.
Proof.
  split.
  - apply (chat_prompt_twice unitEmbedder exactRoot cannedProvider answers
             cannedFetch cannedCreate engineMessage (LLM.newLLMService bareEnv)
             helloBody newVectorStore ∅ "Hello"); [reflexivity | discriminate].
  - vm_compute. reflexivity.
Defined.

(** ** From the router to the provider: the context of a grounded answer *)

Lemma join_head (sep x : string) (rest : list string) :
  exists tail, JS.join sep (x :: rest) = x ++ tail.
Proof.
  destruct rest as [|y rest]; cbn [JS.join].
  - exists "". now rewrite append_empty_r.
  - eexists. reflexivity.
Qed.

Lemma join_appearsIn (sep x : string) (xs : list string) :
  In x xs -> appearsIn x (JS.join sep xs).
Proof.
  induction xs as [|y ys IH]; [intros []|].
  intros [-> | Hin].
  - destruct (join_head sep x ys) as [tail ->]. now exists "", tail.
  - destruct ys as [|z zs]; [destruct Hin|].
    destruct (IH Hin) as (pre & post & E).
    change (JS.join sep (y :: z :: zs)) with (y ++ sep ++ JS.join sep (z :: zs)).
    rewrite E. exists (y ++ sep ++ pre), post. now rewrite !append_assoc.
Qed.

Lemma appearsIn_suffix (pre s : string) : appearsIn s (pre ++ s).
Proof. exists pre, "". now rewrite append_empty_r. Qed.

Lemma appearsIn_trans (a b c : string) :
  appearsIn a b -> appearsIn b c -> appearsIn a c.
Proof.
  intros (p1 & q1 & ->) (p2 & q2 & ->).
  exists (p2 ++ p1), (q1 ++ q2). now rewrite !append_assoc.
Qed.

Lemma contextOf_cites (hits : list Hit) (hit : Hit) :
  In hit hits -> appearsIn (content (hitChunk hit)) (contextOf hits).
Proof.
  intros Hin. unfold contextOf.
  apply list_elem_of_In, list_elem_of_lookup in Hin as [i Hi].
  eapply appearsIn_trans; [|apply join_appearsIn, list_elem_of_In;
    eapply list_elem_of_lookup_2; rewrite list_lookup_imap, Hi; reflexivity].
  cbn beta.
  match goal with |- appearsIn ?s (?a ++ ?b ++ ?c ++ ?d ++ ?e ++ String nl ?s) =>
    replace (a ++ b ++ c ++ d ++ e ++ String nl s)
      with ((a ++ b ++ c ++ d ++ e ++ String nl "") ++ s)
  end.
  - apply appearsIn_suffix.
  - now rewrite !append_assoc.
Qed.

Lemma contextOf_given (hits : list Hit) :
  hits <> [] -> LLM.given (Some (contextOf hits)) = true.
Proof.
  destruct hits as [|hit hits]; [congruence|]. intros _.
  unfold contextOf. cbn [imap].
  match goal with |- context [JS.join ?sep (?x :: ?rest)] =>
    destruct (join_head sep x rest) as [tail ->] end.
  reflexivity.
Qed.

Section Grounding.
Variable embedder : string -> list Q.
Variable Math_sqrt : Q -> Q.
Variable provider : string -> option string -> list Message -> string.
Variable fetch : string -> LLM.ChatRequest -> LLM.FetchReply.
Variable create : LLM.Client -> LLM.ChatRequest -> string + string.
Variable cannotRead : string -> string.

(** X24.  What the language model is told for a routed query, in any state
    of the service.  For a [general] result the call has no context and the
    request goes out at temperature 0.7.  For a [rag] result that asks the
    model, the context is not empty and contains the content of every source
    the result cites; the request goes out at temperature 0.3, and its first
    message, the system message, ends with that context. *)
Theorem route_context
  (this : LLM.LLMService) (query requestedMode : string) (h : list Message)
  (store : VectorStore) :
  let routed := route embedder Math_sqrt provider query requestedMode h store in
  Forall (fun call =>
    let sent := snd (LLM.generateResponse fetch create cannotRead this
                       (prompt call) (context call) (history call)) in
    (mode (fst routed) = "general" ->
     context call = None
     /\ Forall (fun s => LLM.temperature (bodyOf s) = 0.7%Q) sent)
    /\ (mode (fst routed) = "rag" ->
        exists ctx,
          context call = Some ctx
          /\ ctx <> ""
          /\ Forall (fun src => JS.includes ctx (sourceContent src) = true)
                    (sources (fst routed))
          /\ Forall (fun s =>
                       LLM.temperature (bodyOf s) = 0.3%Q
                       /\ exists system rest instructions,
                            LLM.messages (bodyOf s) = system :: rest
                            /\ role system = "system"
                            /\ messageContent system = instructions ++ ctx)
                    sent))
    (snd routed).
Proof.
  intros routed. subst routed.
  assert (Hsent : forall ctx,
    Forall (fun s => wellAddressed query ctx h (bodyOf s))
           (snd (LLM.generateResponse fetch create cannotRead this query ctx h))).
  { intros ctx.
    destruct (generateResponse_sent fetch create cannotRead this query ctx h)
      as [_ Hall].
    rewrite List.Forall_forall in *. intros s Hs. apply Hall. now apply in_map. }
  destruct (route_cases embedder Math_sqrt provider query requestedMode h store)
    as [(-> & _) | [(-> & _) | ->]].
  - constructor.
  - destruct (handleRAGQuery_cases embedder Math_sqrt provider query h store)
      as [(kept & total & Hne & _ & _ & _ & ->) | ->]; [|constructor].
    cbn [fst snd mode sources]. constructor; [|constructor].
    cbn [prompt context history]. split; [discriminate|]. intros _.
    exists (contextOf kept). split; [reflexivity|].
    pose proof (contextOf_given kept Hne) as Hg.
    split; [intros E; rewrite E in Hg; discriminate|]. split.
    + apply List.Forall_forall. intros src Hsrc.
      apply sourcesOf_In in Hsrc as (hit & Hin & -> & _).
      now apply appearsIn_includes, contextOf_cites.
    + eapply List.Forall_impl; [|apply Hsent].
      intros s (system & Hm & Hr & Hgiven & _ & Ht). cbv beta. rewrite Ht, Hg.
      split; [reflexivity|].
      destruct (Hgiven Hg) as (instructions & text & [= <-] & Hc).
      eexists system, _, instructions. split; [exact Hm|]. now split.
  - cbn [fst snd mode handleGeneralQuery generateGeneralResponse generateResponse
         bind ret app]. constructor; [|constructor].
    cbn [prompt context history]. split; [|discriminate]. intros _.
    split; [reflexivity|].
    eapply List.Forall_impl; [|apply Hsent].
    intros s (system & _ & _ & _ & _ & Ht). cbv beta. now rewrite Ht.
Qed.
End Grounding.

(** ** Reading files and pages *)

Lemma chunkSentences_source (this : DocumentProcessor) (md : SourceMeta)
      (sentences : list string) :
  Forall (fun chunk => source (metadata chunk) = md)
         (chunkSentences this md sentences).
Proof.
  unfold chunkSentences, finish.
  assert (Hinv : forall st,
    Forall (fun chunk => source (metadata chunk) = md) (chunks_acc st) ->
    Forall (fun chunk => source (metadata chunk) = md)
           (chunks_acc (fold_left (chunkStep this md) sentences st))).
  { induction sentences as [|s ss IH]; intros st H; [exact H|].
    cbn [fold_left]. apply IH. unfold chunkStep.
    destruct (_ && _); cbn [chunks_acc]; [|exact H].
    apply Forall_app. split; [exact H|]. now repeat constructor. }
  specialize (Hinv chunkerStart (List.Forall_nil _)).
  destruct (nonEmpty _); [|exact Hinv].
  apply Forall_app. split; [exact Hinv|]. now repeat constructor.
Qed.

Section ReadingFacts.
Variable this : DocumentProcessor.
Variable extname : string -> string.
Variable pdfParse : string -> string + string.
Variable extractRawText : string -> string + string.
Variable readWorkbook : string -> list (string * string) + string.
Variable readFileSync : string -> string + string.

(** X25.  [processFile] decides by the lower-cased extension of the original
    name alone.  For an extension outside the nine it has a case for, it
    fails with [Unsupported file type] and the extension, whatever the file
    holds.  For [.pptx] it always succeeds, on a text that is not empty.
    Whenever it succeeds, the extension is one of the nine and the chunks
    are the chunks of some text, all stamped with the original name and the
    extension and numbered [0, 1, 2, ...] with ids made of the original name
    and the number. *)
Theorem processFile_outcome (filePath originalName : string) :
  let ext := JS.toLowerCase (extname originalName) in
  let md := fileMeta extname originalName in
  let result := processFile this extname pdfParse extractRawText readWorkbook
                            readFileSync filePath originalName in
  (~ In ext supportedTypes -> result = inr ("Unsupported file type: " ++ ext))
  /\ (ext = ".pptx" ->
      exists text, text <> "" /\ result = inl (createChunks this md text))
  /\ (forall chunks, result = inl chunks ->
      In ext supportedTypes
      /\ (exists text, chunks = createChunks this md text)
      /\ Forall (fun chunk => source (metadata chunk) = md) chunks
      /\ numbered md chunks).
Proof.
  intros ext md result.
  assert (Hcases :
    (In ext supportedTypes
     /\ (exists read : string + string,
           result = match read with
                    | inl text => inl (createChunks this md text)
                    | inr message => inr message
                    end
           /\ (ext = ".pptx" -> exists text, text <> "" /\ read = inl text)))
    \/ (~ In ext supportedTypes
        /\ result = inr ("Unsupported file type: " ++ ext))).
  { subst result md. unfold processFile, fileMeta. fold ext.
    generalize dependent ext. intros ext.
    destruct (String.eqb_spec ext ".pdf") as [->|N1].
    { left. split; [cbn; auto|]. eexists. split; [reflexivity|]. discriminate. }
    destruct (String.eqb_spec ext ".docx") as [->|N2].
    { left. split; [cbn; auto|]. eexists. split; [reflexivity|]. discriminate. }
    destruct (String.eqb_spec ext ".xlsx") as [->|N3].
    { left. split; [cbn; auto|]. eexists. split; [reflexivity|]. discriminate. }
    destruct (String.eqb_spec ext ".xls") as [->|N4].
    { left. split; [cbn; auto 6|]. eexists. split; [reflexivity|]. discriminate. }
    cbn [orb].
    destruct (String.eqb_spec ext ".pptx") as [->|N5].
    { left. split; [cbn; auto 6|].
      exists (inl (extractPptx extractRawText filePath)).
      split; [reflexivity|]. intros _.
      unfold extractPptx. destruct (extractRawText filePath) as [[|c s]|m];
        eexists; (split; [|reflexivity]); discriminate. }
    destruct (String.eqb_spec ext ".txt") as [->|N6].
    { left. split; [cbn; auto 7|]. eexists. split; [reflexivity|]. discriminate. }
    destruct (String.eqb_spec ext ".md") as [->|N7].
    { left. split; [cbn; auto 8|]. eexists. split; [reflexivity|]. discriminate. }
    destruct (String.eqb_spec ext ".markdown") as [->|N8].
    { left. split; [cbn; auto 9|]. eexists. split; [reflexivity|]. discriminate. }
    cbn [orb].
    destruct (String.eqb_spec ext ".csv") as [->|N9].
    { left. split; [cbn; auto 10|]. eexists. split; [reflexivity|]. discriminate. }
    right. split; [|reflexivity]. cbn. intuition congruence. }
  split; [|split].
  - intros Hno. destruct Hcases as [[Hin _] | [_ H]]; [contradiction | exact H].
  - intros Hp. destruct Hcases as [(_ & read & Hr & Hpptx) | [Hno _]].
    + destruct (Hpptx Hp) as (text & Hne & ->). now exists text.
    + exfalso. apply Hno. rewrite Hp. cbn. auto 6.
  - intros chunks Hc. destruct Hcases as [(Hin & read & Hr & _) | [_ H]];
      [|congruence].
    rewrite Hr in Hc. destruct read as [text|m]; [|discriminate].
    injection Hc as <-. split; [exact Hin|]. split; [now exists text|].
    split; [apply chunkSentences_source | apply chunkSentences_numbered].
Qed.
End ReadingFacts.

Lemma replaceSpaceRuns_singleLine (s : string) :
  forall inRun, singleLine (replaceSpaceRuns inRun s) = true.
Proof.
  unfold singleLine. induction s as [|c s IH]; intros inRun; [reflexivity|].
  cbn [replaceSpaceRuns]. destruct (JS.isSpace c) eqn:E.
  - destruct inRun; [apply IH|]. cbn [allChars]. now rewrite IH.
  - cbn [allChars]. now rewrite E, IH.
Qed.

Lemma replaceNewlineRuns_singleLine (s : string) :
  singleLine s = true -> forall inRun, replaceNewlineRuns inRun s = s.
Proof.
  unfold singleLine. induction s as [|c s IH]; intros H inRun; [reflexivity|].
  cbn [allChars] in H. apply andb_prop in H as [Hc Hs].
  cbn [replaceNewlineRuns]. destruct (Ascii.eqb_spec c nl) as [->|_].
  - discriminate Hc.
  - now rewrite IH.
Qed.

Section UrlFacts.
Variable embedder : string -> list Q.
Variable this : DocumentProcessor.
Variable load : string -> Page + string.

(** X26.  The URL endpoint.  Without a URL, or with an empty one, it answers
    [URL is required]; when the page cannot be loaded it answers
    [Failed to process URL] with the details [Failed to fetch URL] and the
    message; in both cases the store stays as it is.  Otherwise it adds one
    document under the drawn id and the URL as name and reports its chunks:
    their content holds no white space other than single-space characters
    (the page text has every run of white space replaced by a space, after
    which the replacement of runs of line feeds changes nothing), and they
    are stamped with the URL, the type [webpage] and a title, which is the
    URL when the page has none. *)
Theorem ingestUrl_outcome
  (address : option string) (docId now : string) (vectorStore : VectorStore) :
  let result := ingestUrl embedder this load address docId now vectorStore in
  (forall raw, replaceNewlineRuns false (replaceSpaceRuns false raw)
               = replaceSpaceRuns false raw)
  /\ match address with
     | None | Some EmptyString =>
         result = (UrlBadRequest "URL is required", vectorStore)
     | Some a =>
         match load a with
         | inr message =>
             result = (UrlFailed "Failed to process URL"
                                 ("Failed to fetch URL: " ++ message),
                       vectorStore)
         | inl page =>
             exists chunks,
               processUrl this load a = inl chunks
               /\ (let after := addDocument embedder docId a chunks now vectorStore in
                   result = (UrlOk a docId (length chunks)
                                   (getDocumentCount after) (getChunkCount after),
                             after)
                   /\ getChunkCount after
                      = (getChunkCount vectorStore + length chunks)%nat
                   /\ (consistent vectorStore -> consistent after))
               /\ Forall (fun chunk =>
                            singleLine (content chunk) = true
                            /\ url (source (metadata chunk)) = Some a
                            /\ type (source (metadata chunk)) = "webpage"
                            /\ (title (source (metadata chunk))
                                = Some (titleText page)
                                \/ titleText page = ""
                                   /\ title (source (metadata chunk)) = Some a))
                         chunks
         end
     end.
Proof.
  intros result. split.
  { intros raw. apply replaceNewlineRuns_singleLine, replaceSpaceRuns_singleLine. }
  subst result. unfold ingestUrl.
  destruct address as [[|c s]|]; try reflexivity.
  unfold processUrl. destruct (load (String c s)) as [page|message]; [|reflexivity].
  eexists. split; [reflexivity|]. split.
  - cbv zeta. split; [reflexivity|]. split.
    + unfold getChunkCount. rewrite addDocument_chunks, length_app, length_map.
      reflexivity.
    + intros Hc.
      match goal with |- consistent (addDocument _ ?d ?nm ?input ?t ?st) =>
        exact (consistent_serve embedder st (Add d nm input t) Hc) end.
  - match goal with |- Forall _ (createChunks _ ?md ?text) =>
      pose proof (chunkSentences_source this md (splitIntoSentences text)) as Hsrc;
      assert (Hline : Forall (fun chunk => singleLine (content chunk) = true)
                             (createChunks this md text))
    end.
    { unfold createChunks, singleLine.
      apply chunkSentences_chars; [reflexivity|].
      apply splitIntoSentences_chars, trim_chars.
      rewrite replaceNewlineRuns_singleLine by apply replaceSpaceRuns_singleLine.
      apply replaceSpaceRuns_singleLine. }
    unfold createChunks in *. rewrite List.Forall_forall in *.
    intros chunk Hin. split; [now apply Hline|].
    rewrite (Hsrc chunk Hin). cbn [url type title source].
    split; [reflexivity|]. split; [reflexivity|].
    unfold orElse. destruct (titleText page); auto.
Qed.
End UrlFacts.

(** ** The upload endpoint *)

Section UploadFacts.
Variable embedder : string -> list Q.
Variable documentProcessor : DocumentProcessor.
Variable extname : string -> string.
Variable pdfParse : string -> string + string.
Variable extractRawText : string -> string + string.
Variable readWorkbook : string -> list (string * string) + string.
Variable readFileSync : string -> string + string.
Variable unlinkSync : string -> option string.

Local Abbreviation chunksOf' :=
  (chunksOf documentProcessor extname pdfParse extractRawText readWorkbook
            readFileSync).
Local Abbreviation readable' :=
  (readable documentProcessor extname pdfParse extractRawText readWorkbook
            readFileSync).
Local Abbreviation reported' :=
  (reported documentProcessor extname pdfParse extractRawText readWorkbook
            readFileSync unlinkSync).
Local Abbreviation accepted' :=
  (accepted documentProcessor extname pdfParse extractRawText readWorkbook
            readFileSync).
Local Abbreviation ingested' :=
  (ingested embedder documentProcessor extname pdfParse extractRawText
            readWorkbook readFileSync).
Local Abbreviation uploadFile' :=
  (uploadFile embedder documentProcessor extname pdfParse extractRawText
              readWorkbook readFileSync unlinkSync).

Lemma uploadFile_step (file : UploadedFile) (results : list UploadResult)
      (vectorStore : VectorStore) :
  uploadFile' (results, vectorStore) file
  = ((results ++ reported' file)%list,
     if readable' file
     then addDocument embedder (drawnId file) (originalname file)
                      (chunksOf' file) (addedTime file) vectorStore
     else vectorStore).
Proof.
  unfold uploadFile, reported, readable, accepted, chunksOf.
  destruct (processFile _ _ _ _ _ _ (path file) (originalname file)); [|reflexivity].
  destruct (unlinkSync (path file)); [|reflexivity].
  now rewrite <- app_assoc.
Qed.

Lemma uploadFile_fold (files : list UploadedFile) :
  forall (results : list UploadResult) (vectorStore : VectorStore),
    fold_left uploadFile' files (results, vectorStore)
    = ((results ++ flat_map reported' files)%list, ingested' files vectorStore).
Proof.
  induction files as [|file files IH]; intros results vectorStore.
  - cbn. now rewrite app_nil_r.
  - cbn [fold_left flat_map]. rewrite uploadFile_step, IH, app_assoc.
    f_equal. unfold ingested. cbn [List.filter].
    now destruct (readable' file).
Qed.

Lemma reported_success (files : list UploadedFile) :
  List.filter (fun r => String.eqb (status r) "success") (flat_map reported' files)
  = map accepted' (List.filter readable' files).
Proof.
  induction files as [|file files IH]; [reflexivity|].
  cbn [flat_map List.filter]. rewrite List.filter_app, IH.
  unfold reported at 1, readable at 2.
  destruct (processFile _ _ _ _ _ _ (path file) (originalname file)); cbn.
  - destruct (unlinkSync (path file)); reflexivity.
  - reflexivity.
Qed.

Lemma reported_some (file : UploadedFile) :
  (1 <= length (reported' file))%nat
  /\ (unlinkSync (path file) = None ->
      map resultFilename (reported' file) = [originalname file]).
Proof.
  unfold reported.
  destruct (processFile _ _ _ _ _ _ (path file) (originalname file)).
  - destruct (unlinkSync (path file)); cbn; split; try lia; try reflexivity.
    discriminate.
  - cbn. split; [lia|reflexivity].
Qed.

Lemma reported_status (files : list UploadedFile) :
  Forall (fun r => status r = "success" \/ status r = "error")
         (flat_map reported' files).
Proof.
  apply List.Forall_forall. intros r Hr.
  apply in_flat_map in Hr as (file & _ & Hr). unfold reported in Hr.
  destruct (processFile _ _ _ _ _ _ (path file) (originalname file)).
  - destruct Hr as [<- | Hr]; [now left|].
    destruct (unlinkSync (path file)); [|destruct Hr].
    destruct Hr as [<- | []]. now right.
  - destruct Hr as [<- | []]. now right.
Qed.

Lemma status_partition (results : list UploadResult) :
  Forall (fun r => status r = "success" \/ status r = "error") results ->
  (length (List.filter (fun r => String.eqb (status r) "success") results)
   + length (List.filter (fun r => String.eqb (status r) "error") results)
   = length results)%nat.
Proof.
  induction results as [|r results IH]; [reflexivity|].
  intros H. inversion H as [|? ? Hr Hrest]; subst. specialize (IH Hrest).
  cbn [List.filter]. destruct Hr as [-> | ->]; cbn; lia.
Qed.

Lemma ingested_chunks (files : list UploadedFile) :
  forall vectorStore,
    getChunkCount (ingested' files vectorStore)
    = (getChunkCount vectorStore
       + list_sum (map (fun file => length (chunksOf' file))
                       (List.filter readable' files)))%nat.
Proof.
  unfold ingested, list_sum.
  induction (List.filter readable' files) as [|file rest IH];
    intros vectorStore; [cbn; lia|].
  cbn [fold_left map fold_right]. rewrite IH. unfold getChunkCount.
  rewrite addDocument_chunks, length_app, length_map. lia.
Qed.

Lemma ingested_consistent (files : list UploadedFile) :
  forall vectorStore,
    consistent vectorStore -> consistent (ingested' files vectorStore).
Proof.
  unfold ingested. induction (List.filter readable' files) as [|file rest IH];
    intros vectorStore H; [exact H|].
  cbn [fold_left]. apply IH.
  match goal with |- consistent (addDocument _ ?d ?nm ?input ?t ?st) =>
    exact (consistent_serve embedder st (Add d nm input t) H) end.
Qed.

(** X27.  The upload endpoint on at least one file.  The store afterwards is
    the store before with the files that [processFile] can read added as
    documents, in order, under the drawn ids and the original names; a file
    that cannot be read adds nothing.  [processed] is the number of those
    files, and the [success] entries of [results] list them in order with
    their ids and chunk counts; [processed] and [failed] add up to the
    number of entries, which is at least the number of files; when no
    uploaded file fails to be deleted there is exactly one entry per file,
    in order.  The reported totals are the counts of the new store, the
    chunk total being the old one plus the chunk counts of the added files,
    and an index that agreed with its registry still does. *)
Theorem upload_report (files : list UploadedFile) (vectorStore : VectorStore) :
  files <> [] ->
  let result := upload embedder documentProcessor extname pdfParse extractRawText
                       readWorkbook readFileSync unlinkSync (Some files)
                       vectorStore in
  let after := ingested' files vectorStore in
  let read := List.filter readable' files in
  exists failed results,
    result = (UploadOk (length read) failed results
                       (getDocumentCount after) (getChunkCount after),
              after)
    /\ List.filter (fun r => String.eqb (status r) "success") results
       = map accepted' read
    /\ (length read + failed = length results)%nat
    /\ (length files <= length results)%nat
    /\ ((forall file, In file files -> unlinkSync (path file) = None) ->
        map resultFilename results = map originalname files)
    /\ getChunkCount after
       = (getChunkCount vectorStore
          + list_sum (map (fun file => length (chunksOf' file)) read))%nat
    /\ (consistent vectorStore -> consistent after).
Proof.
  intros Hne result after read. subst result. unfold upload.
  destruct files as [|file files]; [congruence|].
  rewrite uploadFile_fold. cbn [app].
  set (fs := file :: files) in *. fold after.
  pose proof (reported_success fs) as Hs. fold read in Hs.
  eexists _, (flat_map reported' fs). split.
  { rewrite Hs, length_map. reflexivity. }
  split; [exact Hs|]. split.
  { rewrite <- (status_partition _ (reported_status fs)), Hs, length_map.
    reflexivity. }
  split.
  { clearbody fs. clear. induction fs as [|f fs IH]; [cbn; lia|].
    cbn [flat_map length]. rewrite length_app.
    destruct (reported_some f) as [H1 _]. lia. }
  split.
  { clearbody fs. clear. intros Hun. induction fs as [|f fs IH]; [reflexivity|].
    cbn [flat_map map]. rewrite map_app, IH.
    - destruct (reported_some f) as [_ H2]. rewrite H2; [reflexivity|].
      apply Hun. now left.
    - intros g Hg. apply Hun. now right. }
  split; [apply ingested_chunks | apply ingested_consistent].
Qed.
End UploadFacts.

(** Three uploads: a text file, a text file that cannot be read, an image. *)
Lemma upload_report_witness :
  exists failed results,
    upload unitEmbedder defaultProcessor sampleExtname noText noText noWorkbook
           sampleDisk alwaysUnlinks (Some sampleUploads) newVectorStore
    = (UploadOk
         (length (List.filter (readable defaultProcessor sampleExtname noText
                                        noText noWorkbook sampleDisk)
                              sampleUploads))
         failed results
         (getDocumentCount
            (ingested unitEmbedder defaultProcessor sampleExtname noText noText
                      noWorkbook sampleDisk sampleUploads newVectorStore))
         (getChunkCount
            (ingested unitEmbedder defaultProcessor sampleExtname noText noText
                      noWorkbook sampleDisk sampleUploads newVectorStore)),
       ingested unitEmbedder defaultProcessor sampleExtname noText noText
                noWorkbook sampleDisk sampleUploads newVectorStore)
    /\ (length sampleUploads <= length results)%nat.
Proof.
  destruct (upload_report unitEmbedder defaultProcessor sampleExtname noText
              noText noWorkbook sampleDisk alwaysUnlinks sampleUploads
              newVectorStore) as (failed & results & Hr & _ & _ & Hl & _);
    [discriminate|].
  exists failed, results. split; [exact Hr | exact Hl].
Defined.

(** What the endpoint answers to them. *)
Example upload_sample :
  fst (upload unitEmbedder defaultProcessor sampleExtname noText noText noWorkbook
              sampleDisk alwaysUnlinks (Some sampleUploads) newVectorStore)
  = UploadOk 1 2
      [ {| resultFilename := "cats.txt"; resultDocId := Some "doc-1";
           resultChunks := Some 1%nat; status := "success";
           resultError := None |};
        {| resultFilename := "dogs.TXT"; resultDocId := None;
           resultChunks := None; status := "error";
           resultError := Some "ENOENT: no such file or directory" |};
        {| resultFilename := "logo.png"; resultDocId := None;
           resultChunks := None; status := "error";
           resultError := Some "Unsupported file type: .png" |} ]
      1 1.
Proof. vm_compute. reflexivity. Qed.

(** The URL endpoint on a page with two paragraphs and no title, and on an
    address that does not resolve. *)
Example ingestUrl_sample :
  (match processUrl defaultProcessor sampleWeb "https://example.org/pets" with
   | inl chunks =>
       map (fun chunk => (id chunk, content chunk, title (source (metadata chunk))))
           chunks
   | inr _ => []
   end)
  = [("https://example.org/pets-chunk-0", "Cats purr. Dogs bark.",
      Some "https://example.org/pets")]
  /\ fst (ingestUrl unitEmbedder defaultProcessor sampleWeb
                    (Some "https://example.org/pets") "doc-9"
                    "2024-01-01T00:00:00.000Z" newVectorStore)
     = UrlOk "https://example.org/pets" "doc-9" 1 1 1
  /\ fst (ingestUrl unitEmbedder defaultProcessor sampleWeb
                    (Some "https://example.org/none") "doc-9"
                    "2024-01-01T00:00:00.000Z" newVectorStore)
     = UrlFailed "Failed to process URL"
                 "Failed to fetch URL: getaddrinfo ENOTFOUND".
Proof. repeat split; vm_compute; reflexivity. Qed.
